(** * CYK recognizer of [src/App.jsx]: a shallow embedding and its properties

    The development follows the JavaScript source function by function:
    [parseGrammarFromText], the two tokenizers of the Generate-Table
    handlers, [cykWithPointers], [buildParseTree] and [cykAlgorithm], then
    [renderAsciiTree], [toD3Tree], [parseGrammar] and
    [handleCheckGrammar].

    JavaScript strings are sequences of UTF-16 code units, arrays are lists,
    [Set] and [Map] are insertion-ordered lists, and an exception is an
    explicit [Throw] in a small error monad. *)

From Stdlib Require Import String Ascii DecimalString.
From Stdlib Require Import List NArith ZArith Arith Lia Bool Relations.
Import ListNotations.

(** ** Errors *)

Inductive exn := TypeError | RangeError.

Inductive result (A : Type) : Type :=
| Ok (a : A)
| Throw (e : exn).

Arguments Ok {A} a.
Arguments Throw {A} e.

Definition bind {A B} (c : result A) (k : A -> result B) : result B :=
  match c with
  | Ok a => k a
  | Throw e => Throw e
  end.

Declare Scope js_scope.
Delimit Scope js_scope with js.
Notation "x <- c ;; k" := (bind c (fun x => k))
  (at level 61, c at next level, right associativity) : js_scope.
Notation "' pat <- c ;; k" := (bind c (fun x => match x with pat => k end))
  (at level 61, pat pattern, c at next level, right associativity) : js_scope.
Open Scope js_scope.

(** [l.forEach(body)] and the counting [for] loops, threading the mutable
    state [St] through the iterations; an exception leaves the loop. *)
Fixpoint forEach {A St} (l : list A) (body : A -> St -> result St) (s : St)
  : result St :=
  match l with
  | [] => Ok s
  | x :: l' => s' <- body x s ;; forEach l' body s'
  end.

(** [l.forEach((x, idx) => ...)], indices counted from [from]. *)
Fixpoint forEachIdx {A St} (from : nat) (l : list A)
  (body : nat -> A -> St -> result St) (s : St) : result St :=
  match l with
  | [] => Ok s
  | x :: l' => s' <- body from x s ;; forEachIdx (S from) l' body s'
  end.

(** ** Strings *)

(** A JavaScript string: its UTF-16 code units. *)
Definition jsstring := list N.

(** An ASCII literal as a JavaScript string. *)
Definition js (s : string) : jsstring :=
  map N_of_ascii (list_ascii_of_string s).

Definition RIGHT_ARROW : N := 8594.   (* U+2192 *)
Definition QUOTE : N := 34.
Definition LF : N := 10.
Definition BAR : N := 124.
Definition SPACE : N := 32.

Fixpoint streq (a b : jsstring) : bool :=
  match a, b with
  | [], [] => true
  | x :: a', y :: b' => (x =? y)%N && streq a' b'
  | _, _ => false
  end.

(** White space of [String.prototype.trim] and of the regular expression
    class [\s]: WhiteSpace and LineTerminator code points. *)
Definition isWhite (c : N) : bool :=
  ((9 <=? c) && (c <=? 13) || (c =? 32) || (c =? 160) || (c =? 5760)
   || (8192 <=? c) && (c <=? 8202) || (c =? 8232) || (c =? 8233)
   || (c =? 8239) || (c =? 8287) || (c =? 12288) || (c =? 65279))%N.

Fixpoint trimStart (s : jsstring) : jsstring :=
  match s with
  | c :: s' => if isWhite c then trimStart s' else s
  | [] => []
  end.

Definition trimEnd (s : jsstring) : jsstring := rev (trimStart (rev s)).

Definition trim (s : jsstring) : jsstring := trimEnd (trimStart s).

(** [s.replace(/\s+/g, _)] with the empty replacement. *)
Definition stripWhite (s : jsstring) : jsstring :=
  filter (fun c => negb (isWhite c)) s.

Fixpoint startsWith (p s : jsstring) : bool :=
  match p, s with
  | [], _ => true
  | x :: p', y :: s' => (x =? y)%N && startsWith p' s'
  | _ :: _, [] => false
  end.

(** [s.indexOf(p)]: position of the first occurrence, [-1] when absent. *)
Fixpoint indexOfFrom (pos : Z) (p s : jsstring) : Z :=
  if startsWith p s then pos
  else match s with
       | [] => (-1)%Z
       | _ :: s' => indexOfFrom (pos + 1) p s'
       end.

Definition indexOf (s p : jsstring) : Z := indexOfFrom 0 p s.

(** [s.includes(p)]. *)
Definition includes (s p : jsstring) : bool := negb (indexOf s p =? -1)%Z.

(** Relative index of [slice]: negative counts from the end, then clamped. *)
Definition sliceIndex (len : nat) (k : Z) : nat :=
  if (k <? 0)%Z then Z.to_nat (Z.max (Z.of_nat len + k) 0)
  else Nat.min (Z.to_nat k) len.

(** [s.slice(from, to)] and [s.slice(from)]. *)
Definition slice (s : jsstring) (from to : Z) : jsstring :=
  let a := sliceIndex (length s) from in
  let b := sliceIndex (length s) to in
  firstn (b - a) (skipn a s).

Definition sliceFrom (s : jsstring) (from : Z) : jsstring :=
  skipn (sliceIndex (length s) from) s.

(** [s.split(sep)] for a separator of one code unit. *)
Fixpoint splitChar (sep : N) (cur : jsstring) (s : jsstring) : list jsstring :=
  match s with
  | [] => [rev cur]
  | c :: s' =>
      if (c =? sep)%N then rev cur :: splitChar sep [] s'
      else splitChar sep (c :: cur) s'
  end.

Definition split1 (s : jsstring) (sep : N) : list jsstring :=
  splitChar sep [] s.

(** [s.split(/\s+/)]: the pieces between maximal runs of white space; a run
    at either end leaves an empty piece there, and the empty string gives
    one empty piece.  [gap] tells that the scan is inside a run. *)
Fixpoint splitWsFrom (gap : bool) (cur : jsstring) (s : jsstring)
  : list jsstring :=
  match s with
  | [] => [rev cur]
  | c :: s' =>
      if isWhite c then
        if gap then splitWsFrom true [] s'
        else rev cur :: splitWsFrom true [] s'
      else splitWsFrom false (c :: cur) s'
  end.

Definition splitWs (s : jsstring) : list jsstring := splitWsFrom false [] s.

(** [s.split('')]: one string per code unit. *)
Definition chars (s : jsstring) : list jsstring := map (fun c => [c]) s.

(** Template-literal rendering of a number that is a loop index. *)
Definition numToString (n : nat) : jsstring :=
  js (NilEmpty.string_of_uint (Nat.to_uint n)).

(** ** Sets, maps and objects *)

(** A [Set] of strings in insertion order. *)
Definition JsSet := list jsstring.

Definition setHas (s : JsSet) (x : jsstring) : bool := existsb (streq x) s.

Definition setAdd (s : JsSet) (x : jsstring) : JsSet :=
  if setHas s x then s else s ++ [x].

(** A [Map] with string keys in insertion order. *)
Definition JsMap (V : Type) := list (jsstring * V).

Fixpoint mapGet {V} (m : JsMap V) (k : jsstring) : option V :=
  match m with
  | [] => None
  | (k', v) :: m' => if streq k k' then Some v else mapGet m' k
  end.

Definition mapHas {V} (m : JsMap V) (k : jsstring) : bool :=
  match mapGet m k with Some _ => true | None => false end.

Fixpoint mapSet {V} (m : JsMap V) (k : jsstring) (v : V) : JsMap V :=
  match m with
  | [] => [(k, v)]
  | (k', v') :: m' =>
      if streq k k' then (k', v) :: m' else (k', v') :: mapSet m' k v
  end.

(** ** The grammar *)

Definition Production := list jsstring.

(** The [rules] object: its own enumerable properties, kept in the order in
    which [Object.keys] lists them (array-index keys in ascending numeric
    order first, then the other keys in creation order). *)
Definition JsObject := list (jsstring * list Production).

Definition objectKeys (o : JsObject) : list jsstring := map fst o.

(** Properties every object literal inherits from [Object.prototype]; each
    is a function or an object, hence truthy, and none has a [push] or a
    [forEach] method. *)
Definition objectPrototypeKeys : list jsstring :=
  map js ["constructor"; "__defineGetter__"; "__defineSetter__";
          "hasOwnProperty"; "__lookupGetter__"; "__lookupSetter__";
          "isPrototypeOf"; "propertyIsEnumerable"; "toString"; "valueOf";
          "__proto__"; "toLocaleString"]%string.

(** What the property read [o[k]] finds. *)
Inductive propValue :=
| Undefined
| Inherited
| Own (v : list Production).

Definition getProp (o : JsObject) (k : jsstring) : propValue :=
  match mapGet o k with
  | Some v => Own v
  | None => if setHas objectPrototypeKeys k then Inherited else Undefined
  end.

Definition isDigit (c : N) : bool := ((48 <=? c) && (c <=? 57))%N.

Definition digitsValue (s : jsstring) : N :=
  fold_left (fun acc c => acc * 10 + (c - 48))%N s 0%N.

(** A key is an array index when it is the canonical decimal form of an
    integer below [2^32 - 1]. *)
Definition arrayIndex (k : jsstring) : option N :=
  match k with
  | [] => None
  | c :: rest =>
      if forallb isDigit k
         && (negb (c =? 48)%N || match rest with [] => true | _ => false end)
         && (digitsValue k <? 4294967295)%N
      then Some (digitsValue k) else None
  end.

Fixpoint insertIndexed (o : JsObject) (n : N) (k : jsstring)
  (v : list Production) : JsObject :=
  match o with
  | [] => [(k, v)]
  | (k', v') :: o' =>
      match arrayIndex k' with
      | Some n' =>
          if (n <? n')%N then (k, v) :: o
          else (k', v') :: insertIndexed o' n k v
      | None => (k, v) :: o
      end
  end.

(** The assignment [o[k] = v] where [k] is an own property or is not found
    at all (the only assignments the source makes). *)
Definition setProp (o : JsObject) (k : jsstring) (v : list Production)
  : JsObject :=
  if mapHas o k then mapSet o k v
  else match arrayIndex k with
       | Some n => insertIndexed o n k v
       | None => o ++ [(k, v)]
       end.

Record Grammar := {
  variables : list jsstring;
  terminals : list jsstring;
  startSymbol : jsstring;
  rules : JsObject
}.

(** The predefined grammar for examples. *)
Definition exampleGrammar : Grammar := {|
  variables := [js "S"; js "A"; js "B"];
  terminals := [js "a"; js "b"];
  startSymbol := js "S";
  rules := [(js "S", [[js "A"; js "B"]; [js "B"; js "A"]]);
            (js "A", [[js "a"]]);
            (js "B", [[js "b"]])]
|}.

(** *** parseGrammarFromText *)

Definition nonEmpty (s : jsstring) : bool :=
  match s with [] => false | _ => true end.

(** The match of [trimmed] against the pattern: a quote, one or more
    characters other than a quote, a quote; the result is the captured
    middle part. *)
Definition quotedMatch (t : jsstring) : option jsstring :=
  match t with
  | c :: rest =>
      if (c =? QUOTE)%N then
        match rev rest with
        | d :: rmid =>
            if (d =? QUOTE)%N && nonEmpty rmid
               && forallb (fun x => negb (x =? QUOTE)%N) rmid
            then Some (rev rmid) else None
        | [] => None
        end
      else None
  | [] => None
  end.

(** [/^[a-z]$/.test(sym)]. *)
Definition isLowerLetter (sym : jsstring) : bool :=
  match sym with
  | [c] => ((97 <=? c) && (c <=? 122))%N
  | _ => false
  end.

(** [/^[A-Z]{2}$/.test(sym)], giving [sym[0]] and [sym[1]]. *)
Definition upperPair (sym : jsstring) : option (jsstring * jsstring) :=
  match sym with
  | [b; c] =>
      if ((65 <=? b) && (b <=? 90) && (65 <=? c) && (c <=? 90))%N
      then Some ([b], [c]) else None
  | _ => None
  end.

(** The local variables of [parseGrammarFromText] that the callbacks
    mutate. *)
Record ParseState := {
  psRules : JsObject;
  psVariables : JsSet;
  psTerminals : JsSet;
  psStart : jsstring
}.

(** [rules[left].push(p)]. *)
Definition pushRule (o : JsObject) (left : jsstring) (p : Production)
  : result JsObject :=
  match getProp o left with
  | Own arr => Ok (mapSet o left (arr ++ [p]))
  | Inherited => Throw TypeError
  | Undefined => Throw TypeError
  end.

(** The callback run on every alternative of a right-hand side. *)
Definition addProduction (left : jsstring) (prod : jsstring)
  (st : ParseState) : result ParseState :=
  let trimmed := trim prod in
  match quotedMatch trimmed with
  | Some token =>
      r <- pushRule (psRules st) left [token] ;;
      Ok {| psRules := r; psVariables := psVariables st;
            psTerminals := setAdd (psTerminals st) token;
            psStart := psStart st |}
  | None =>
      let parts := filter nonEmpty (splitWs trimmed) in
      match parts with
      | [sym] =>
          if isLowerLetter sym then
            r <- pushRule (psRules st) left [sym] ;;
            Ok {| psRules := r; psVariables := psVariables st;
                  psTerminals := setAdd (psTerminals st) sym;
                  psStart := psStart st |}
          else
            match upperPair sym with
            | Some (B, C) =>
                r <- pushRule (psRules st) left [B; C] ;;
                Ok {| psRules := r;
                      psVariables := setAdd (setAdd (psVariables st) B) C;
                      psTerminals := psTerminals st;
                      psStart := psStart st |}
            | None =>
                r <- pushRule (psRules st) left [sym] ;;
                Ok {| psRules := r;
                      psVariables := setAdd (psVariables st) sym;
                      psTerminals := psTerminals st;
                      psStart := psStart st |}
            end
      | [B; C] =>
          r <- pushRule (psRules st) left [B; C] ;;
          Ok {| psRules := r;
                psVariables := setAdd (setAdd (psVariables st) B) C;
                psTerminals := psTerminals st;
                psStart := psStart st |}
      | _ => Ok st
      end
  end.

(** Where a line is cut: the value of [splitter]. *)
Definition splitterOf (line : jsstring) : Z :=
  let arrowIndex := indexOf line (js "->") in
  let altArrowIndex :=
    if (arrowIndex =? -1)%Z then indexOf line [RIGHT_ARROW] else arrowIndex in
  if negb (altArrowIndex =? -1)%Z then altArrowIndex else (-1)%Z.

(** The values of [left] and [right] for a line cut at [splitter]. *)
Definition leftOf (line : jsstring) (splitter : Z) : jsstring :=
  stripWhite (trim (slice line 0 splitter)).

Definition rightOf (line : jsstring) (splitter : Z) : jsstring :=
  trim (sliceFrom line (splitter + 2)).

(** The callback run on every line. *)
Definition compileLine (idx : nat) (line : jsstring) (st : ParseState)
  : result ParseState :=
  let splitter := splitterOf line in
  if (splitter =? -1)%Z then Ok st
  else
    let left := leftOf line splitter in
    let right := rightOf line splitter in
    let start := if (idx =? 0) && nonEmpty left then left else psStart st in
    let rules1 :=
      match getProp (psRules st) left with
      | Undefined => setProp (psRules st) left []
      | _ => psRules st
      end in
    forEach (map trim (split1 right BAR)) (addProduction left)
      {| psRules := rules1;
         psVariables := setAdd (psVariables st) left;
         psTerminals := psTerminals st;
         psStart := start |}.

(** The non-blank lines of the text, trimmed. *)
Definition linesOf (text : jsstring) : list jsstring :=
  filter (fun l => (0 <? length l)) (map trim (split1 text LF)).

Definition parseGrammarFromText (text : jsstring) : result Grammar :=
  st <- forEachIdx 0 (linesOf text) compileLine
          {| psRules := []; psVariables := []; psTerminals := [];
             psStart := js "S" |} ;;
  Ok {| variables := psVariables st;
        terminals := psTerminals st;
        startSymbol := psStart st;
        rules := psRules st |}.

(** *** Tokenizers of the two Generate-Table handlers *)

(** Simulator tab. *)
Definition tokenizeSimulator (simWord : jsstring) : list jsstring :=
  if includes simWord [SPACE] then splitWs (trim simWord)
  else chars (trim simWord).

(** Personal Grammar Checker tab. *)
Definition tokenizePGC (pgcSentence : jsstring) : list jsstring :=
  splitWs (trim pgcSentence).

(** ** Recognition *)

(** Two-dimensional arrays. *)
Definition Matrix (X : Type) := list (list X).

(** [Array(n).fill(null).map(() => Array(n).fill(null).map(() => x))],
    where the inner callback builds a fresh object [x] for every cell. *)
Definition newMatrix {X} (n : nat) (x : X) : Matrix X :=
  repeat (repeat x n) n.

(** [m[i][j]], [None] when either index is out of range. *)
Definition cell {X} (m : Matrix X) (i j : nat) : option X :=
  match nth_error m i with
  | Some row => nth_error row j
  | None => None
  end.

Fixpoint setNth {X} (l : list X) (i : nat) (x : X) : list X :=
  match l, i with
  | [], _ => []
  | _ :: l', 0 => x :: l'
  | y :: l', S i' => y :: setNth l' i' x
  end.

(** The matrix after the object in cell [(i, j)] was mutated into [x]. *)
Definition setCell {X} (m : Matrix X) (i j : nat) (x : X) : Matrix X :=
  match nth_error m i with
  | Some row => setNth m i (setNth row j x)
  | None => m
  end.

(** A cell access of the derivability table, recorded for the triangular
    invariant. *)
Inductive access :=
| Rd (i j : nat)
| Wr (i j : nat).

(** The mutable locals of a recognizer: the table, a second structure
    ([back] or [steps]) and the accesses made so far, most recent first. *)
Record Run (X : Type) := {
  tbl : Matrix JsSet;
  aux : X;
  log : list access
}.

Arguments tbl {X} r.
Arguments aux {X} r.
Arguments log {X} r.

(** [table[i][j].has(x)]. *)
Definition tableHas {X} (i j : nat) (x : jsstring) (st : Run X)
  : result (bool * Run X) :=
  match cell (tbl st) i j with
  | Some c =>
      Ok (setHas c x,
          {| tbl := tbl st; aux := aux st; log := Rd i j :: log st |})
  | None => Throw TypeError
  end.

(** [table[i][j].add(x)]. *)
Definition tableAdd {X} (i j : nat) (x : jsstring) (st : Run X)
  : result (Run X) :=
  match cell (tbl st) i j with
  | Some c =>
      Ok {| tbl := setCell (tbl st) i j (setAdd c x); aux := aux st;
            log := Wr i j :: log st |}
  | None => Throw TypeError
  end.

(** [grammar.rules[A]] as the receiver of [forEach]. *)
Definition rulesOf (grammar : Grammar) (A : jsstring)
  : result (list Production) :=
  match getProp (rules grammar) A with
  | Own prods => Ok prods
  | Inherited => Throw TypeError
  | Undefined => Throw TypeError
  end.

(** *** cykWithPointers *)

(** A derivation record of the [back] table. *)
Inductive Deriv :=
| Terminal (token : jsstring)
| Binary (left right : jsstring) (split : nat).

Definition BackTable := Matrix (JsMap (list Deriv)).

Record CykResult := {
  accepted : bool;
  table : Matrix JsSet;
  back : BackTable
}.

(** [if (!back[i][j].has(A)) back[i][j].set(A, []);
     back[i][j].get(A).push(d)]. *)
Definition backPush (i j : nat) (A : jsstring) (d : Deriv)
  (st : Run BackTable) : result (Run BackTable) :=
  match cell (aux st) i j with
  | Some m =>
      let m1 := if mapHas m A then m else mapSet m A [] in
      match mapGet m1 A with
      | Some l =>
          Ok {| tbl := tbl st;
                aux := setCell (aux st) i j (mapSet m1 A (l ++ [d]));
                log := log st |}
      | None => Throw TypeError
      end
  | None => Throw TypeError
  end.

(** Body of the innermost callback of the diagonal loop. *)
Definition diagStep (i : nat) (tok A : jsstring) (prod : Production)
  (st : Run BackTable) : result (Run BackTable) :=
  match prod with
  | [p0] =>
      if streq p0 tok then
        st1 <- tableAdd i i A st ;;
        backPush i i A (Terminal tok) st1
      else Ok st
  | _ => Ok st
  end.

(** Body of the innermost callback of the upper-triangle loop. *)
Definition pairStep (i j k : nat) (A : jsstring) (prod : Production)
  (st : Run BackTable) : result (Run BackTable) :=
  match prod with
  | [B; C] =>
      '(hasB, st1) <- tableHas i k B st ;;
      if hasB then
        '(hasC, st2) <- tableHas (k + 1) j C st1 ;;
        if hasC then
          st3 <- tableAdd i j A st2 ;;
          backPush i j A (Binary B C k) st3
        else Ok st2
      else Ok st1
  | _ => Ok st
  end.

(** The recognizer together with the accesses it made to the table, in
    the order in which they happened. *)
Definition cykWithPointersTraced (tokens : list jsstring) (grammar : Grammar)
  : result (CykResult * list access) :=
  let n := length tokens in
  if n =? 0 then Ok ({| accepted := false; table := []; back := [] |}, [])
  else
    let st0 := {| tbl := newMatrix n []; aux := newMatrix n []; log := [] |} in
    (* diagonal from terminals: for i in [0, n), tok = tokens[i] *)
    st1 <- forEachIdx 0 tokens (fun i tok =>
             forEach (objectKeys (rules grammar)) (fun A st =>
               prods <- rulesOf grammar A ;;
               forEach prods (diagStep i tok A) st)) st0 ;;
    (* upper triangle: len in [2, n], i in [0, n - len], k in [i, j) *)
    st2 <- forEach (seq 2 (n - 1)) (fun len =>
             forEach (seq 0 (n - len + 1)) (fun i =>
               let j := i + len - 1 in
               forEach (seq i (j - i)) (fun k =>
                 forEach (objectKeys (rules grammar)) (fun A st =>
                   prods <- rulesOf grammar A ;;
                   forEach prods (pairStep i j k A) st)))) st1 ;;
    '(acc, st3) <- tableHas 0 (n - 1) (startSymbol grammar) st2 ;;
    Ok ({| accepted := acc; table := tbl st3; back := aux st3 |},
        rev (log st3)).

Definition cykWithPointers (tokens : list jsstring) (grammar : Grammar)
  : result CykResult :=
  '(r, _) <- cykWithPointersTraced tokens grammar ;; Ok r.

(** *** buildParseTree *)

Inductive ParseTree :=
| Bare (label : jsstring)
| Leaf (label : jsstring) (token : jsstring)
| Node (label : jsstring) (left right : ParseTree).

(** The inner function [choose].  [depth] is the number of nested calls the
    call stack still allows; running out of it is the RangeError of the
    engine. *)
Fixpoint choose (depth : nat) (back : BackTable) (A : jsstring) (i j : nat)
  : result ParseTree :=
  match depth with
  | 0 => Throw RangeError
  | S d =>
      match cell back i j with
      | None => Throw TypeError
      | Some m =>
          match mapGet m A with
          | None => Ok (Bare A)
          | Some [] => Ok (Bare A)
          | Some (Terminal token :: _) => Ok (Leaf A token)
          | Some (Binary B C k :: _) =>
              l <- choose d back B i k ;;
              r <- choose d back C (k + 1) j ;;
              Ok (Node A l r)
          end
      end
  end.

(** [None] is the [null] result.  The argument [back] is always an array
    here, so the test [!back] is false. *)
Definition buildParseTree (depth : nat) (grammar : Grammar)
  (tokens : list jsstring) (back : BackTable) : result (option ParseTree) :=
  let n := length tokens in
  let S := startSymbol grammar in
  if n =? 0 then Ok None
  else
    match cell back 0 (n - 1) with
    | None => Throw TypeError
    | Some m =>
        if mapHas m S then t <- choose depth back S 0 (n - 1) ;; Ok (Some t)
        else Ok None
    end.

(** *** cykAlgorithm *)

Record TraceResult := {
  tAccepted : bool;
  tTable : Matrix JsSet;
  tSteps : list jsstring
}.

(** [steps.push(msg)]. *)
Definition stepsPush (msg : jsstring) (st : Run (list jsstring))
  : Run (list jsstring) :=
  {| tbl := tbl st; aux := aux st ++ [msg]; log := log st |}.

Definition diagMessage (i : nat) (char variable : jsstring) : jsstring :=
  js "Cell[" ++ numToString i ++ js "][" ++ numToString i ++ js "]: '"
  ++ char ++ js "' can be derived from " ++ variable.

Definition pairMessage (i j k : nat) (variable B C : jsstring) : jsstring :=
  js "Cell[" ++ numToString i ++ js "][" ++ numToString j ++ js "]: "
  ++ variable ++ js " " ++ [RIGHT_ARROW] ++ js " " ++ B ++ C
  ++ js " (from [" ++ numToString i ++ js "][" ++ numToString k
  ++ js "] and [" ++ numToString (k + 1) ++ js "][" ++ numToString j
  ++ js "])".

Definition diagStepA (i : nat) (char variable : jsstring)
  (production : Production) (st : Run (list jsstring))
  : result (Run (list jsstring)) :=
  match production with
  | [p0] =>
      if streq p0 char then
        st1 <- tableAdd i i variable st ;;
        Ok (stepsPush (diagMessage i char variable) st1)
      else Ok st
  | _ => Ok st
  end.

Definition pairStepA (i j k : nat) (variable : jsstring)
  (production : Production) (st : Run (list jsstring))
  : result (Run (list jsstring)) :=
  match production with
  | [B; C] =>
      '(hasB, st1) <- tableHas i k B st ;;
      if hasB then
        '(hasC, st2) <- tableHas (k + 1) j C st1 ;;
        if hasC then
          st3 <- tableAdd i j variable st2 ;;
          Ok (stepsPush (pairMessage i j k variable B C) st3)
        else Ok st2
      else Ok st1
  | _ => Ok st
  end.

(** [word] is indexed like an array: a token array, or a string seen as the
    sequence of its one-unit strings. *)
Definition cykAlgorithmTraced (word : list jsstring) (grammar : Grammar)
  : result (TraceResult * list access) :=
  let n := length word in
  if n =? 0 then Ok ({| tAccepted := false; tTable := []; tSteps := [] |}, [])
  else
    let st0 := {| tbl := newMatrix n []; aux := []; log := [] |} in
    st1 <- forEachIdx 0 word (fun i char =>
             forEach (objectKeys (rules grammar)) (fun variable st =>
               prods <- rulesOf grammar variable ;;
               forEach prods (diagStepA i char variable) st)) st0 ;;
    st2 <- forEach (seq 2 (n - 1)) (fun len =>
             forEach (seq 0 (n - len + 1)) (fun i =>
               let j := i + len - 1 in
               forEach (seq i (j - i)) (fun k =>
                 forEach (objectKeys (rules grammar)) (fun variable st =>
                   prods <- rulesOf grammar variable ;;
                   forEach prods (pairStepA i j k variable) st)))) st1 ;;
    '(acc, st3) <- tableHas 0 (n - 1) (startSymbol grammar) st2 ;;
    Ok ({| tAccepted := acc; tTable := tbl st3; tSteps := aux st3 |},
        rev (log st3)).

Definition cykAlgorithm (word : list jsstring) (grammar : Grammar)
  : result TraceResult :=
  '(r, _) <- cykAlgorithmTraced word grammar ;; Ok r.

(** *** The Generate-Table handlers *)

Record Outcome := {
  oAccepted : bool;
  oTable : Matrix JsSet;
  oTree : option ParseTree
}.

(** What both handlers do once the tokens are known. *)
Definition recognize (depth : nat) (grammarText : jsstring)
  (tokens : list jsstring) : result Outcome :=
  g <- parseGrammarFromText grammarText ;;
  cr <- cykWithPointers tokens g ;;
  tree <- (if accepted cr then buildParseTree depth g tokens (back cr)
           else Ok None) ;;
  Ok {| oAccepted := accepted cr; oTable := table cr; oTree := tree |}.

Definition generatePGC (depth : nat) (pgcGrammarText pgcSentence : jsstring)
  : result Outcome :=
  recognize depth pgcGrammarText (tokenizePGC pgcSentence).

Definition generateSimulator (depth : nat) (simGrammarText simWord : jsstring)
  : result Outcome :=
  recognize depth simGrammarText (tokenizeSimulator simWord).

(** The initial contents of the two tabs. *)
Definition quoted (s : string) : jsstring := QUOTE :: js s ++ [QUOTE].

Definition simGrammarText : jsstring :=
  js "S -> AB | BC" ++ [LF] ++ js "A -> BA | a" ++ [LF]
  ++ js "B -> CC | b" ++ [LF] ++ js "C -> AB | a".

Definition simWord : jsstring := js "ababa".

Definition pgcGrammarText : jsstring :=
  js "S -> NP VP" ++ [LF] ++ js "NP -> Det N" ++ [LF]
  ++ js "VP -> V NP" ++ [LF]
  ++ js "Det -> " ++ quoted "the" ++ js " | " ++ quoted "a" ++ [LF]
  ++ js "N -> " ++ quoted "cat" ++ js " | " ++ quoted "dog" ++ [LF]
  ++ js "V -> " ++ quoted "chased".

Definition pgcSentence : jsstring := js "the cat chased a dog".

(** ** Reading a rule line *)

(** [line] contains [p]. *)
Definition contains (p line : jsstring) : Prop :=
  exists pre post, line = pre ++ p ++ post.

(** [pre] is what precedes the first occurrence of [p] in [line], and
    [post] what follows it. *)
Definition firstAt (p pre post line : jsstring) : Prop :=
  line = pre ++ p ++ post /\
  forall pre' post', line = pre' ++ p ++ post' -> length pre <= length pre'.

(** The first line on which [compileLine] finds an arrow marker. *)
Definition firstArrowLine (text : jsstring) : option jsstring :=
  find (fun l => negb (splitterOf l =? -1)%Z) (linesOf text).

(** The start symbol by the rule of the source: the left-hand side of the
    line of index 0 when that line has a marker and a non-empty left-hand
    side, the default otherwise. *)
Definition startOfFirstLine (text : jsstring) : jsstring :=
  match linesOf text with
  | [] => js "S"
  | line :: _ =>
      let splitter := splitterOf line in
      if negb (splitter =? -1)%Z && nonEmpty (leftOf line splitter)
      then leftOf line splitter
      else js "S"
  end.

(** No left-hand side of the text is the name of a property that the
    [rules] object inherits. *)
Definition plainLeftSides (text : jsstring) : bool :=
  forallb (fun line =>
    let splitter := splitterOf line in
    (splitter =? -1)%Z
    || negb (setHas objectPrototypeKeys (leftOf line splitter)))
    (linesOf text).

(** The array [rules[left]] exists. *)
Definition hasArray (left : jsstring) (st : ParseState) : Prop :=
  exists arr, getProp (psRules st) left = Own arr.

(** [pieces.join(sep)] for a separator of one code unit. *)
Fixpoint join1 (sep : N) (pieces : list jsstring) : jsstring :=
  match pieces with
  | [] => []
  | [p] => p
  | p :: rest => p ++ sep :: join1 sep rest
  end.

(** ** The words of a string *)

Definition allWhite (s : jsstring) : bool := forallb isWhite s.

Definition noWhite (s : jsstring) : bool :=
  forallb (fun c => negb (isWhite c)) s.

(** [Words s ws]: [ws] lists, in order, the maximal runs of characters of
    [s] that are not white space. *)
Inductive Words : jsstring -> list jsstring -> Prop :=
| Words_none gap :
    allWhite gap = true -> Words gap []
| Words_more gap w rest ws :
    allWhite gap = true -> w <> [] -> noWhite w = true ->
    (rest = [] \/ exists c rest', rest = c :: rest' /\ isWhite c = true) ->
    Words rest ws ->
    Words (gap ++ w ++ rest) (w :: ws).

(** The string does not end, resp. start, with white space. *)
Fixpoint endsClean (s : jsstring) : bool :=
  match s with
  | [] => true
  | c :: s' => match s' with [] => negb (isWhite c) | _ => endsClean s' end
  end.

Definition startsClean (s : jsstring) : Prop :=
  match s with
  | c :: _ => isWhite c = false
  | [] => False
  end.

(** ** Derivations of a grammar *)

Section Derivations.
Variable G : Grammar.

(** [rhs] is one of the productions registered for [A]. *)
Definition hasProduction (A : jsstring) (rhs : Production) : Prop :=
  exists prods, getProp (rules G) A = Own prods /\ In rhs prods.

(** One rewriting step on sentential forms: a symbol is replaced by the
    right-hand side of one of its productions. *)
Inductive step : list jsstring -> list jsstring -> Prop :=
| step_rewrite u A v rhs :
    hasProduction A rhs -> step (u ++ A :: v) (u ++ rhs ++ v).

(** Derivation in any number of steps. *)
Definition derives : list jsstring -> list jsstring -> Prop :=
  clos_refl_trans_1n (list jsstring) step.

Definition isVariable (x : jsstring) : Prop := In x (variables G).
Definition isTerminal (x : jsstring) : Prop := In x (terminals G).

(** The start symbol derives the terminal string [w]. *)
Definition generates (w : list jsstring) : Prop :=
  Forall isTerminal w /\ derives [startSymbol G] w.

(** Yield of a derivation tree whose inner nodes are binary productions
    and whose leaves are one-symbol productions. *)
Inductive Yield : jsstring -> list jsstring -> Prop :=
| Yield_terminal A t :
    hasProduction A [t] -> Yield A [t]
| Yield_binary A B C u v :
    hasProduction A [B; C] -> Yield B u -> Yield C v -> Yield A (u ++ v).

(** What a symbol of a sentential form contributes to the terminal
    string derived from the form. *)
Definition explains (X : jsstring) (wX : list jsstring) : Prop :=
  (isTerminal X /\ wX = [X]) \/ Yield X wX.

(** Chomsky normal form: variables and terminals are disjoint, the start
    symbol and every left-hand side are variables, and every production
    is one terminal or exactly two variables. *)
Record CNF : Prop := {
  cnf_disjoint : forall x, isVariable x -> isTerminal x -> False;
  cnf_start : isVariable (startSymbol G);
  cnf_lhs : forall A rhs, hasProduction A rhs -> isVariable A;
  cnf_rhs : forall A rhs, hasProduction A rhs ->
      (exists t, rhs = [t] /\ isTerminal t) \/
      (exists B C, rhs = [B; C] /\ isVariable B /\ isVariable C)
}.

Definition productionOk (rhs : Production) : bool :=
  match rhs with
  | [t] => setHas (terminals G) t
  | [B; C] => setHas (variables G) B && setHas (variables G) C
  | _ => false
  end.

(** The executable form of [CNF]. *)
Definition isCNF : bool :=
  forallb (fun x => negb (setHas (terminals G) x)) (variables G)
  && setHas (variables G) (startSymbol G)
  && forallb (fun A =>
       match getProp (rules G) A with
       | Own prods => setHas (variables G) A && forallb productionOk prods
       | _ => true
       end) (objectKeys (rules G)).

(** No production is registered for any key of [rules]. *)
Definition noProductions : bool :=
  forallb (fun A =>
    match getProp (rules G) A with
    | Own prods => match prods with [] => true | _ => false end
    | _ => true
    end) (objectKeys (rules G)).
End Derivations.

Arguments cnf_disjoint {G} _.
Arguments cnf_start {G} _.
Arguments cnf_lhs {G} _.
Arguments cnf_rhs {G} _.

(** ** Vocabulary of the recognizer's invariants *)

Section Vocabulary.
Variable grammar : Grammar.
Variable tokens : list jsstring.

(** [tokens[i..j]], both ends included. *)
Definition sub (i j : nat) : list jsstring :=
  firstn (j + 1 - i) (skipn i tokens).

(** Number of tokens of the span [(i, j)]; zero below the diagonal. *)
Definition span (i j : nat) : nat := j + 1 - i.

(** [A] is in the set held by cell [(i, j)]. *)
Definition mem (t : Matrix JsSet) (i j : nat) (A : jsstring) : Prop :=
  exists c, cell t i j = Some c /\ In A c.

(** The matrix has exactly the cells [(i, j)] with [i, j < n]. *)
Definition square {X} (m : Matrix X) : Prop :=
  forall i j, cell m i j <> None <-> (i < length tokens /\ j < length tokens).

(** The access touches a cell on or above the diagonal. *)
Definition triangular (a : access) : Prop :=
  match a with
  | Rd i j => i <= j < length tokens
  | Wr i j => i <= j < length tokens
  end.

(** A derivation record of cell [(i, j)] is justified by the table. *)
Definition validDeriv (t : Matrix JsSet) (i j : nat) (d : Deriv) : Prop :=
  match d with
  | Terminal tok => i = j /\ nth_error tokens i = Some tok
  | Binary B C k => i <= k < j /\ mem t i k B /\ mem t (k + 1) j C
  end.

(** What holds of the locals of [cykWithPointers] between two steps. *)
Record Inv (st : Run BackTable) : Prop := {
  inv_square : square (tbl st);
  inv_sound : forall i j A,
      mem (tbl st) i j A -> i <= j /\ Yield grammar A (sub i j);
  inv_log : Forall triangular (log st);
  inv_bsquare : square (aux st);
  inv_bhas : forall i j A, mem (tbl st) i j A ->
      exists m l, cell (aux st) i j = Some m /\ mapGet m A = Some l;
  inv_bvalid : forall i j m A l,
      cell (aux st) i j = Some m -> mapGet m A = Some l ->
      l <> [] /\ Forall (validDeriv (tbl st) i j) l
}.

(** Progress between two states while spans of [L] tokens are filled:
    shorter spans are left alone and no cell loses a member. *)
Definition grows {X Y} (L : nat) (st : Run X) (st' : Run Y) : Prop :=
  (forall i j, span i j < L -> cell (tbl st) i j = cell (tbl st') i j)
  /\ (forall i j A, mem (tbl st) i j A -> mem (tbl st') i j A).

(** Cell [(i, j)] reflects production [prod] of [A] at split [k]. *)
Definition closedAt {X} (i j k : nat) (A : jsstring) (prod : Production)
  (st : Run X) : Prop :=
  forall B C, prod = [B; C] ->
    mem (tbl st) i k B -> mem (tbl st) (k + 1) j C -> mem (tbl st) i j A.

(** Cell [(i, j)] reflects every binary production at split [k]. *)
Definition closedSplit {X} (i j k : nat) (st : Run X) : Prop :=
  forall A B C, hasProduction grammar A [B; C] ->
    mem (tbl st) i k B -> mem (tbl st) (k + 1) j C -> mem (tbl st) i j A.

(** Every variable deriving a span of [L] tokens is in its cell. *)
Definition completeAt {X} (L : nat) (st : Run X) : Prop :=
  forall i j A, i <= j < length tokens -> span i j = L ->
    Yield grammar A (sub i j) -> mem (tbl st) i j A.
End Vocabulary.

Arguments inv_square {grammar tokens st} _.
Arguments inv_sound {grammar tokens st} _.
Arguments inv_log {grammar tokens st} _.
Arguments inv_bsquare {grammar tokens st} _.
Arguments inv_bhas {grammar tokens st} _.
Arguments inv_bvalid {grammar tokens st} _.
Arguments grows {X Y} L st st'.
Arguments closedAt {X} i j k A prod st.
Arguments completeAt grammar tokens {X} L st.
Arguments closedSplit grammar {X} i j k st.

(** The two recognizers hold the same table and have made the same accesses
    to it. *)
Definition sameTable (s1 : Run BackTable) (s2 : Run (list jsstring)) : Prop :=
  tbl s1 = tbl s2 /\ log s1 = log s2.

(** ** Parse trees *)

Fixpoint noBare (t : ParseTree) : bool :=
  match t with
  | Bare _ => false
  | Leaf _ _ => true
  | Node _ l r => noBare l && noBare r
  end.

(** The terminal leaves, left to right. *)
Fixpoint leaves (t : ParseTree) : list jsstring :=
  match t with
  | Bare _ => []
  | Leaf _ token => [token]
  | Node _ l r => leaves l ++ leaves r
  end.

Definition rootLabel (t : ParseTree) : jsstring :=
  match t with
  | Bare A => A
  | Leaf A _ => A
  | Node A _ _ => A
  end.

(** ** Showing a parse tree *)

(** *** renderAsciiTree *)

(** [' '.repeat(indent)]. *)
Definition spaces (indent : nat) : jsstring := repeat SPACE indent.

Definition BACKSLASH : N := 92.

(** The inner function [draw]: the array [lines] after the call on node
    [n]. *)
Fixpoint draw (n : ParseTree) (indent : nat) (lines : list jsstring)
  : list jsstring :=
  match n with
  | Bare label => lines ++ [spaces indent ++ label]
  | Leaf label token =>
      lines ++ [spaces indent ++ label] ++ [spaces indent ++ js "|"]
            ++ [spaces indent ++ token]
  | Node label l r =>
      let lines1 :=
        lines ++ [spaces indent ++ label]
              ++ [spaces indent ++ js "/ " ++ [BACKSLASH]] in
      draw r (indent + 2) (draw l (indent + 0) lines1)
  end.

(** [None] is the [null] tree. *)
Definition renderAsciiTree (node : option ParseTree) : jsstring :=
  match node with
  | None => []
  | Some n => join1 LF (draw n 0 [])
  end.

(** *** toD3Tree *)

(** A node for the tree widget: a name and, when the property is
    present, the array of children. *)
#[local] Unset Elimination Schemes.
Inductive D3Node :=
| D3 (name : jsstring) (children : option (list D3Node)).
#[local] Set Elimination Schemes.

Fixpoint toD3Node (node : ParseTree) : D3Node :=
  match node with
  | Leaf label token => D3 label (Some [D3 token None])
  | Node label l r => D3 label (Some [toD3Node l; toD3Node r])
  | Bare label => D3 label None
  end.

Definition toD3Tree (node : option ParseTree) : option D3Node :=
  match node with
  | None => None
  | Some n => Some (toD3Node n)
  end.

Definition d3Name (d : D3Node) : jsstring :=
  match d with D3 name _ => name end.

(** The names of the nodes without children, left to right. *)
Fixpoint d3Leaves (d : D3Node) : list jsstring :=
  match d with
  | D3 name None => [name]
  | D3 _ (Some children) => flat_map d3Leaves children
  end.

(** ** The Check Grammar tab *)

Definition COMMA : N := 44.

(** [s.split(sep)] for a separator string that is not empty: the pieces
    between the occurrences of [sep], found from left to right without
    overlap.  [skip] counts the code units of an occurrence that are still
    to be passed over. *)
Fixpoint splitStr (sep : jsstring) (skip : nat) (cur : jsstring)
  (s : jsstring) : list jsstring :=
  match s with
  | [] => [rev cur]
  | c :: s' =>
      match skip with
      | S k => splitStr sep k cur s'
      | 0 =>
          if startsWith sep s
          then rev cur :: splitStr sep (length sep - 1) [] s'
          else splitStr sep 0 (c :: cur) s'
      end
  end.

Definition split (s sep : jsstring) : list jsstring := splitStr sep 0 [] s.

(** The state [customGrammar] of the form: four text fields. *)
Module Custom.
Record GrammarInput := {
  variables : jsstring;
  terminals : jsstring;
  startSymbol : jsstring;
  rules : jsstring
}.
End Custom.

Definition customGrammar : Custom.GrammarInput := {|
  Custom.variables := js "S,A,B";
  Custom.terminals := js "a,b";
  Custom.startSymbol := js "S";
  Custom.rules := js "S->AB|BA" ++ [LF] ++ js "A->a" ++ [LF] ++ js "B->b"
|}.

(** *** parseGrammar *)

(** The assignment [o[k] = v] on an object whose prototype chain ends in
    [Object.prototype]: the key [__proto__] runs the inherited setter,
    which replaces the prototype and creates no own property; any other
    key becomes or stays an own property.  Consumers of the object read
    own properties only. *)
Definition assignProp (o : JsObject) (k : jsstring) (v : list Production)
  : JsObject :=
  if streq k (js "__proto__") then o else setProp o k v.

(** The symbols of one alternative: its code units that are not white
    space. *)
Definition symbolsOf (prod : jsstring) : Production :=
  filter (fun c => nonEmpty (trim c)) (chars (trim prod)).

(** What the callback computes from a line before it assigns: [variable]
    and [productions], from the first two pieces [left] and [right] of the
    line.  A line without [->] leaves [right] undefined, and the call of
    its [split] method raises. *)
Definition readRule (line : jsstring)
  : result (jsstring * list Production) :=
  match split line (js "->") with
  | piece0 :: piece1 :: _ =>
      let variable := trim piece0 in
      let productions := map symbolsOf (split1 piece1 BAR) in
      Ok (variable, productions)
  | _ => Throw TypeError
  end.

(** The callback run on every line. *)
Definition customLine (line : jsstring) (parsedRules : JsObject)
  : result JsObject :=
  '(variable, productions) <- readRule line ;;
  Ok (assignProp parsedRules variable productions).

(** The lines that pass the filter. *)
Definition ruleLines (grammarInput : Custom.GrammarInput) : list jsstring :=
  filter (fun l => nonEmpty (trim l))
         (split1 (Custom.rules grammarInput) LF).

Definition parseGrammar (grammarInput : Custom.GrammarInput)
  : result Grammar :=
  let lines := ruleLines grammarInput in
  parsedRules <- forEach lines customLine [] ;;
  Ok {| variables :=
          map trim (split1 (Custom.variables grammarInput) COMMA);
        terminals :=
          map trim (split1 (Custom.terminals grammarInput) COMMA);
        startSymbol := trim (Custom.startSymbol grammarInput);
        rules := parsedRules |}.

(** *** handleCheckGrammar *)

(** The body of the timer callback; [input] is the string of the text
    field, indexed by code unit. *)
Definition handleCheckGrammar (useCustom : bool)
  (customGrammar : Custom.GrammarInput) (input : jsstring)
  : result TraceResult :=
  grammar <- (if useCustom then parseGrammar customGrammar
              else Ok exampleGrammar) ;;
  cykAlgorithm (chars input) grammar.

(** ** Derivation records and derivation trees *)

(** A record of variable [A] names one of the productions of [A]. *)
Definition justifies (G : Grammar) (A : jsstring) (d : Deriv) : Prop :=
  match d with
  | Terminal tok => hasProduction G A [tok]
  | Binary B C _ => hasProduction G A [B; C]
  end.

(** Every entry of [back] belongs to a member of the table cell and holds
    records of productions of its variable. *)
Definition Justified (G : Grammar) (st : Run BackTable) : Prop :=
  forall i j m A l,
    cell (aux st) i j = Some m -> mapGet m A = Some l ->
    mem (tbl st) i j A /\ Forall (justifies G A) l.

(** The tree applies a production of the grammar at every node. *)
Inductive DerivationTree (G : Grammar) : ParseTree -> Prop :=
| DerivationTree_leaf A tok :
    hasProduction G A [tok] -> DerivationTree G (Leaf A tok)
| DerivationTree_node A l r :
    hasProduction G A [rootLabel l; rootLabel r] ->
    DerivationTree G l -> DerivationTree G r ->
    DerivationTree G (Node A l r).

(** ** The steps of cykAlgorithm *)

(** What a message of [steps] reports, read against the table. *)
Inductive Reported (G : Grammar) (w : list jsstring) (t : Matrix JsSet)
  : jsstring -> Prop :=
| Reported_diag i tok A :
    nth_error w i = Some tok -> hasProduction G A [tok] -> mem t i i A ->
    Reported G w t (diagMessage i tok A)
| Reported_pair i j k A B C :
    i <= k < j -> hasProduction G A [B; C] ->
    mem t i k B -> mem t (k + 1) j C -> mem t i j A ->
    Reported G w t (pairMessage i j k A B C).

(** The message tells how [A] came into cell [(i, j)]. *)
Definition reports (i j : nat) (A msg : jsstring) : Prop :=
  (i = j /\ exists tok, msg = diagMessage i tok A) \/
  (exists k B C, msg = pairMessage i j k A B C).

(** Every message reports a fact of the table, and every member of a cell
    has a message. *)
Definition Explained (G : Grammar) (w : list jsstring)
  (st : Run (list jsstring)) : Prop :=
  Forall (Reported G w (tbl st)) (aux st) /\
  forall i j A, mem (tbl st) i j A ->
    exists msg, In msg (aux st) /\ reports i j A msg.

(** ** Grammars whose symbols are all registered *)

(** A production of one symbol that is registered as a terminal or as a
    variable, or of two registered variables; no symbol is empty. *)
Definition registered (vars terms : JsSet) (p : Production) : Prop :=
  match p with
  | [x] => x <> [] /\ (In x terms \/ In x vars)
  | [B; C] => B <> [] /\ C <> [] /\ In B vars /\ In C vars
  | _ => False
  end.

Definition Closed (st : ParseState) : Prop :=
  (NoDup (psVariables st) /\ NoDup (psTerminals st)) /\
  forall A prods, In (A, prods) (psRules st) ->
    In A (psVariables st) /\
    Forall (registered (psVariables st) (psTerminals st)) prods.

(** ** Lines that make parseGrammarFromText fail *)

(** The alternative makes [addProduction] push a production. *)
Definition pushes (prod : jsstring) : bool :=
  match quotedMatch (trim prod) with
  | Some _ => true
  | None =>
      match filter nonEmpty (splitWs (trim prod)) with
      | [_] => true
      | [_; _] => true
      | _ => false
      end
  end.

(** The line has an arrow marker, its left-hand side is the name of a
    property inherited from [Object.prototype], and one of its
    alternatives pushes a production. *)
Definition offending (line : jsstring) : bool :=
  let splitter := splitterOf line in
  negb (splitter =? -1)%Z
  && setHas objectPrototypeKeys (leftOf line splitter)
  && existsb pushes (map trim (split1 (rightOf line splitter) BAR)).

(** No own property of [rules] has the name of an inherited one. *)
Definition noShadow (st : ParseState) : Prop :=
  forall k, setHas objectPrototypeKeys k = true ->
    mapGet (psRules st) k = None.

(** ** The tree that buildParseTree picks *)

(** Number of levels of the tree: the nesting of the calls of [choose]
    that build it. *)
Fixpoint height (t : ParseTree) : nat :=
  match t with
  | Node _ l r => S (Nat.max (height l) (height r))
  | _ => 1
  end.

(** [t] is the tree for [A] over the span [(i, j)] that takes, at every
    node, the record pushed first on the list that the back table holds
    for the variable and the span of the node ([choices[0]]); records
    pushed later on the same list play no part. *)
Inductive FirstRecorded (back : BackTable)
  : jsstring -> nat -> nat -> ParseTree -> Prop :=
| FirstRecorded_leaf A i j m tok rest :
    cell back i j = Some m ->
    mapGet m A = Some (Terminal tok :: rest) ->
    FirstRecorded back A i j (Leaf A tok)
| FirstRecorded_node A i j m B C k rest l r :
    cell back i j = Some m ->
    mapGet m A = Some (Binary B C k :: rest) ->
    FirstRecorded back B i k l ->
    FirstRecorded back C (k + 1) j r ->
    FirstRecorded back A i j (Node A l r).

(** * Properties *)

(** ** Strings, sets, maps and matrices *)

Lemma streq_true_iff (a b : jsstring) : streq a b = true <-> a = b.
Proof.
  revert b; induction a as [|x a IH]; intros [|y b]; simpl;
    try (split; [discriminate | congruence]); try tauto.
  rewrite andb_true_iff, N.eqb_eq, IH. split.
  - intros [-> ->]; reflexivity.
  - intros H; injection H as -> ->; auto.
Qed.

Lemma streq_refl (a : jsstring) : streq a a = true.
Proof. apply streq_true_iff; reflexivity. Qed.

Lemma streq_false_iff (a b : jsstring) : streq a b = false <-> a <> b.
Proof.
  rewrite <- streq_true_iff. destruct (streq a b); split; congruence.
Qed.

Lemma setHas_In (s : JsSet) (x : jsstring) : setHas s x = true <-> In x s.
Proof.
  unfold setHas. rewrite existsb_exists. split.
  - intros (y & Hy & E). apply streq_true_iff in E. subst; assumption.
  - intros H. exists x. split; [assumption | apply streq_refl].
Qed.

Lemma In_setAdd (s : JsSet) (x y : jsstring) :
  In y (setAdd s x) <-> In y s \/ y = x.
Proof.
  unfold setAdd. destruct (setHas s x) eqn:E.
  - apply setHas_In in E. split; [auto | intros [H | ->]; assumption].
  - rewrite in_app_iff. simpl. intuition congruence.
Qed.

Lemma mapGet_mapSet_same {V} (m : JsMap V) k v :
  mapGet (mapSet m k v) k = Some v.
Proof.
  induction m as [|[k' v'] m IH]; simpl.
  - rewrite streq_refl; reflexivity.
  - destruct (streq k k') eqn:E; simpl; rewrite E; auto.
Qed.

Lemma mapGet_mapSet_other {V} (m : JsMap V) k k' v :
  k' <> k -> mapGet (mapSet m k v) k' = mapGet m k'.
Proof.
  intros Hne. induction m as [|[k0 v0] m IH]; simpl.
  - apply streq_false_iff in Hne. rewrite Hne; reflexivity.
  - destruct (streq k k0) eqn:E; simpl.
    + apply streq_true_iff in E; subst k0.
      apply streq_false_iff in Hne. rewrite Hne; reflexivity.
    + destruct (streq k' k0); auto.
Qed.

Lemma mapGet_In_keys {V} (m : JsMap V) k v :
  mapGet m k = Some v -> In k (map fst m).
Proof.
  induction m as [|[k0 v0] m IH]; simpl; [discriminate|].
  destruct (streq k k0) eqn:E.
  - apply streq_true_iff in E; auto.
  - auto.
Qed.

Lemma In_keys_mapGet {V} (m : JsMap V) k :
  In k (map fst m) -> exists v, mapGet m k = Some v.
Proof.
  induction m as [|[k0 v0] m IH]; simpl; [tauto|].
  intros H. destruct (streq k k0) eqn:E; [eauto|].
  destruct H as [H | H]; [|auto].
  subst k0. rewrite streq_refl in E; discriminate.
Qed.

Lemma nth_error_setNth {X} (l : list X) i i' x :
  nth_error (setNth l i x) i' =
  if i =? i' then match nth_error l i with Some _ => Some x | None => None end
  else nth_error l i'.
Proof.
  revert i i'; induction l as [|y l IH]; intros [|i] [|i']; simpl; auto.
  destruct (i =? i'); reflexivity.
Qed.

Lemma cell_setCell {X} (m : Matrix X) i j x i' j' :
  cell (setCell m i j x) i' j' =
  if (i =? i') && (j =? j')
  then match cell m i j with Some _ => Some x | None => None end
  else cell m i' j'.
Proof.
  unfold cell, setCell.
  destruct (nth_error m i) as [row|] eqn:Hrow.
  - rewrite nth_error_setNth, Hrow.
    destruct (i =? i') eqn:Ei; simpl; [|reflexivity].
    apply Nat.eqb_eq in Ei; subst i'. rewrite Hrow.
    rewrite nth_error_setNth. reflexivity.
  - destruct (i =? i') eqn:Ei; simpl; [|reflexivity].
    apply Nat.eqb_eq in Ei; subst i'. rewrite Hrow.
    destruct (j =? j'); reflexivity.
Qed.

Lemma nth_error_repeat_lt {X} (x : X) n i :
  nth_error (repeat x n) i = if i <? n then Some x else None.
Proof.
  revert i; induction n as [|n IH]; intros [|i]; simpl; auto.
Qed.

Lemma cell_newMatrix {X} (x : X) n i j :
  cell (newMatrix n x) i j = if (i <? n) && (j <? n) then Some x else None.
Proof.
  unfold cell, newMatrix. rewrite nth_error_repeat_lt.
  destruct (i <? n); simpl; [apply nth_error_repeat_lt | reflexivity].
Qed.

Lemma bind_Ok {A B} (a : A) (k : A -> result B) : bind (Ok a) k = k a.
Proof. reflexivity. Qed.

(** Split a conjunction into its parts, and nothing else. *)
Ltac splits := repeat match goal with |- _ /\ _ => split end.

(** ** Loops *)

Lemma forEachIdx_forEach {A St} from (l : list A)
  (body : nat -> A -> St -> result St) s :
  forEachIdx from l body s =
  forEach (combine (seq from (length l)) l)
    (fun p => body (fst p) (snd p)) s.
Proof.
  revert from s; induction l as [|x l IH]; intros from s; simpl; [reflexivity|].
  destruct (body from x s); simpl; auto.
Qed.

Section LoopRule.
Context {A St : Type}.
Variable Inv : St -> Prop.
Variable R : St -> St -> Prop.
Variable Q : A -> St -> Prop.
Variable body : A -> St -> result St.
Hypothesis R_refl : forall s, R s s.
Hypothesis R_trans : forall a b c, R a b -> R b c -> R a c.
Hypothesis Q_stable : forall x s s', Q x s -> R s s' -> Q x s'.

(** Total-correctness rule for a loop: every iteration keeps [Inv], moves
    the state along [R] and establishes [Q] for its element, which later
    iterations cannot undo; an iteration may rely on [Q] for the elements
    already visited. *)
Lemma forEach_rule (done todo : list A) (s : St) :
  (forall pre x post s,
      done ++ todo = pre ++ x :: post -> Inv s ->
      (forall y, In y pre -> Q y s) ->
      exists s', body x s = Ok s' /\ Inv s' /\ R s s' /\ Q x s') ->
  Inv s -> (forall y, In y done -> Q y s) ->
  exists s', forEach todo body s = Ok s' /\ Inv s' /\ R s s'
             /\ forall y, In y (done ++ todo) -> Q y s'.
Proof.
  revert done s; induction todo as [|x todo IH]; intros done s Hbody HI HQ.
  - exists s. simpl. rewrite app_nil_r. auto.
  - destruct (Hbody done x todo s eq_refl HI HQ) as (s1 & E1 & I1 & R1 & Q1).
    destruct (IH (done ++ [x]) s1) as (s2 & E2 & I2 & R2 & Q2).
    + intros pre y post s0 E. apply (Hbody pre y post).
      rewrite <- E, <- app_assoc. reflexivity.
    + assumption.
    + intros y Hy. apply in_app_iff in Hy. destruct Hy as [Hy | [<- | []]].
      * eapply Q_stable; eauto.
      * assumption.
    + exists s2. simpl. rewrite E1. simpl. repeat split; eauto.
      intros y Hy. apply Q2. rewrite <- app_assoc. exact Hy.
Qed.
End LoopRule.

(** The rule for a loop whose iterations do not depend on each other. *)
Lemma forEach_each {A St} (Inv : St -> Prop) (R : St -> St -> Prop)
  (Q : A -> St -> Prop) (body : A -> St -> result St) (l : list A) (s : St) :
  (forall s, R s s) -> (forall a b c, R a b -> R b c -> R a c) ->
  (forall x s s', Q x s -> R s s' -> Q x s') ->
  (forall x s, In x l -> Inv s ->
      exists s', body x s = Ok s' /\ Inv s' /\ R s s' /\ Q x s') ->
  Inv s ->
  exists s', forEach l body s = Ok s' /\ Inv s' /\ R s s'
             /\ forall y, In y l -> Q y s'.
Proof.
  intros Hr Ht Hs Hb HI.
  apply (forEach_rule Inv R Q body Hr Ht Hs [] l s); simpl; [|assumption|tauto].
  intros pre x post s0 E HI0 _. apply Hb; [|assumption].
  rewrite E. apply in_elt.
Qed.

Section LoopSim.
Context {A S1 S2 : Type}.
Variable Rel : S1 -> S2 -> Prop.
Variable body1 : A -> S1 -> result S1.
Variable body2 : A -> S2 -> result S2.

(** Two loops over the same list whose bodies keep [Rel] run in step. *)
Lemma forEach_sim (l : list A) :
  (forall x s1 s2 s1', In x l -> Rel s1 s2 -> body1 x s1 = Ok s1' ->
      exists s2', body2 x s2 = Ok s2' /\ Rel s1' s2') ->
  forall s1 s2 s1', Rel s1 s2 -> forEach l body1 s1 = Ok s1' ->
    exists s2', forEach l body2 s2 = Ok s2' /\ Rel s1' s2'.
Proof.
  induction l as [|x l IH]; intros Hb s1 s2 s1' HR E; simpl in *.
  - injection E as <-. eauto.
  - destruct (body1 x s1) as [t1|] eqn:E1; simpl in E; [|discriminate].
    destruct (Hb x s1 s2 t1 (or_introl eq_refl) HR E1) as (t2 & E2 & HR').
    rewrite E2; simpl. eapply IH; eauto.
Qed.
End LoopSim.

(** ** Spans of the token sequence *)

Lemma firstn_plus {X} (a b : nat) (l : list X) :
  firstn (a + b) l = firstn a l ++ firstn b (skipn a l).
Proof.
  revert l; induction a as [|a IH]; intros [|x l]; simpl; auto.
  - destruct b; reflexivity.
  - rewrite IH; reflexivity.
Qed.

Lemma app_eq_length {X} (u v u' v' : list X) :
  u ++ v = u' ++ v' -> length u = length u' -> u = u' /\ v = v'.
Proof.
  revert u'; induction u as [|x u IH]; intros [|y u'] E L; simpl in *;
    try discriminate; auto.
  injection E as -> E. injection L as L.
  destruct (IH _ E L) as [-> ->]. auto.
Qed.

Lemma seq_split (a m : nat) pre x post :
  seq a m = pre ++ x :: post -> pre = seq a (x - a) /\ a <= x < a + m.
Proof.
  revert a m; induction pre as [|y pre IH]; intros a [|m] E; simpl in E;
    try discriminate.
  - injection E as Ex _. subst x. rewrite Nat.sub_diag. simpl.
    split; [auto | lia].
  - injection E as Ey E. subst y. apply IH in E. destruct E as [E H].
    replace (x - a) with (S (x - S a)) by lia. simpl. split; [congruence | lia].
Qed.

Lemma In_combine_seq {X} (l : list X) a i x :
  In (i, x) (combine (seq a (length l)) l) <->
  a <= i /\ nth_error l (i - a) = Some x.
Proof.
  revert a; induction l as [|y l IH]; intros a; simpl.
  - split; [tauto|]. intros [_ H]. destruct (i - a); discriminate.
  - rewrite IH. split.
    + intros [E | [H1 H2]].
      * injection E as <- <-. rewrite Nat.sub_diag. auto.
      * split; [lia|]. replace (i - a) with (S (i - S a)) by lia. exact H2.
    + intros [H1 H2]. destruct (Nat.eq_dec a i) as [<- | Hne].
      * rewrite Nat.sub_diag in H2. injection H2 as <-. auto.
      * right. split; [lia|].
        replace (i - a) with (S (i - S a)) in H2 by lia. exact H2.
Qed.

Section Spans.
Variable tokens : list jsstring.

Lemma sub_length i j :
  j < length tokens -> length (sub tokens i j) = j + 1 - i.
Proof.
  intros H. unfold sub. rewrite length_firstn, length_skipn. lia.
Qed.

Lemma sub_single i tok :
  nth_error tokens i = Some tok -> sub tokens i i = [tok].
Proof.
  intros H. apply nth_error_split in H. destruct H as (l1 & l2 & E & L).
  unfold sub. replace (i + 1 - i) with 1 by lia.
  rewrite E, <- L, skipn_app, skipn_all, Nat.sub_diag. reflexivity.
Qed.

Lemma sub_app i k j :
  i <= k -> k < j ->
  sub tokens i j = sub tokens i k ++ sub tokens (k + 1) j.
Proof.
  intros H1 H2. unfold sub.
  replace (j + 1 - i) with ((k + 1 - i) + (j + 1 - (k + 1))) by lia.
  rewrite firstn_plus, skipn_skipn.
  replace (k + 1 - i + i) with (k + 1) by lia. reflexivity.
Qed.

Lemma sub_full :
  tokens <> [] -> sub tokens 0 (length tokens - 1) = tokens.
Proof.
  intros H. unfold sub. simpl.
  destruct tokens as [|x l]; [congruence|]. simpl length.
  replace (S (length l) - 1 + 1 - 0) with (length (x :: l)) by (simpl; lia).
  apply firstn_all.
Qed.

Lemma sub_split i j u v :
  i <= j < length tokens -> sub tokens i j = u ++ v -> u <> [] -> v <> [] ->
  exists k, i <= k < j /\ u = sub tokens i k /\ v = sub tokens (k + 1) j.
Proof.
  intros Hij E Hu Hv.
  assert (L : length (u ++ v) = j + 1 - i)
    by (rewrite <- E; apply sub_length; lia).
  rewrite length_app in L.
  assert (0 < length u) by (destruct u; simpl; [congruence | lia]).
  assert (0 < length v) by (destruct v; simpl; [congruence | lia]).
  exists (i + length u - 1). split; [lia|].
  rewrite (sub_app i (i + length u - 1) j) in E by lia.
  symmetry in E. apply app_eq_length in E; [tauto|].
  rewrite sub_length by lia. lia.
Qed.
End Spans.

Section YieldFacts.
Variable G : Grammar.

Lemma Yield_nonempty A w : Yield G A w -> w <> [].
Proof.
  induction 1 as [A t H | A B C u v H Hu IHu Hv IHv]; [discriminate|].
  destruct u; [congruence | discriminate].
Qed.

Lemma Yield_single A t : Yield G A [t] -> hasProduction G A [t].
Proof.
  intros H. remember [t] as w eqn:E.
  destruct H as [A t' Hp | A B C u v Hp Hu Hv].
  - injection E as ->. assumption.
  - apply Yield_nonempty in Hu. apply Yield_nonempty in Hv.
    destruct u as [|x u]; [congruence|]. destruct u; [|discriminate].
    simpl in E. injection E as _ E. congruence.
Qed.
End YieldFacts.

(** ** Invariants of cykWithPointers *)

Lemma cell_setCell_same {X} (m : Matrix X) i j c x :
  cell m i j = Some c -> cell (setCell m i j x) i j = Some x.
Proof.
  intros H. rewrite cell_setCell, !Nat.eqb_refl, H. reflexivity.
Qed.

Lemma cell_setCell_other {X} (m : Matrix X) i j x i' j' :
  (i, j) <> (i', j') -> cell (setCell m i j x) i' j' = cell m i' j'.
Proof.
  intros H. rewrite cell_setCell.
  destruct (i =? i') eqn:Ei; [|reflexivity].
  destruct (j =? j') eqn:Ej; [|reflexivity].
  apply Nat.eqb_eq in Ei, Ej. congruence.
Qed.

Lemma pair_eq_dec (i j i' j' : nat) : (i, j) = (i', j') \/ (i, j) <> (i', j').
Proof.
  destruct (Nat.eq_dec i i'), (Nat.eq_dec j j'); subst; auto;
    right; congruence.
Qed.

Section Invariants.
Variable grammar : Grammar.
Variable tokens : list jsstring.

Local Abbreviation n := (length tokens).
Local Abbreviation square := (square tokens).
Local Abbreviation Inv := (Inv grammar tokens).
Local Abbreviation sub := (sub tokens).

Lemma square_cell {X} (m : Matrix X) i j :
  square m -> i < n -> j < n -> exists c, cell m i j = Some c.
Proof.
  intros Hs Hi Hj. destruct (cell m i j) eqn:E; [eauto|].
  exfalso. apply (proj2 (Hs i j)); auto.
Qed.

Lemma square_setCell {X} (m : Matrix X) i j x :
  square m -> square (setCell m i j x).
Proof.
  intros Hs i' j'. rewrite <- (Hs i' j').
  destruct (pair_eq_dec i j i' j') as [E | E].
  - injection E as <- <-. destruct (cell m i j) eqn:Ec.
    + rewrite (cell_setCell_same _ _ _ _ _ Ec). split; discriminate.
    + rewrite cell_setCell, !Nat.eqb_refl, Ec. simpl. tauto.
  - rewrite cell_setCell_other by assumption. tauto.
Qed.

Lemma square_newMatrix {X} (x : X) : square (newMatrix n x).
Proof.
  intros i j. rewrite cell_newMatrix.
  destruct (Nat.ltb_spec i n); destruct (Nat.ltb_spec j n); simpl;
    split; try discriminate; try congruence; try lia; auto.
Qed.

Lemma mem_add (t : Matrix JsSet) i j c A i' j' A' :
  cell t i j = Some c ->
  mem (setCell t i j (setAdd c A)) i' j' A' <->
  mem t i' j' A' \/ (i' = i /\ j' = j /\ A' = A).
Proof.
  intros Hc. unfold mem.
  destruct (pair_eq_dec i j i' j') as [E | E].
  - injection E as <- <-. rewrite (cell_setCell_same _ _ _ _ _ Hc). split.
    + intros (c' & Ec & Hin). injection Ec as <-.
      apply In_setAdd in Hin. destruct Hin as [Hin | ->]; eauto.
    + intros [(c' & Ec & Hin) | (_ & _ & ->)]; eexists; split; eauto;
        apply In_setAdd; auto.
      left. congruence.
  - rewrite cell_setCell_other by assumption. split; [auto|].
    intros [H | (-> & -> & _)]; [assumption | congruence].
Qed.

Lemma grows_refl {X} L (st : Run X) : grows L st st.
Proof. split; auto. Qed.

Lemma grows_trans {X Y Z} L (a : Run X) (b : Run Y) (c : Run Z) :
  grows L a b -> grows L b c -> grows L a c.
Proof.
  intros [H1 H2] [H3 H4]. split; intros.
  - rewrite H1, H3; auto.
  - auto.
Qed.

Lemma grows_weaken {X Y} L L' (a : Run X) (b : Run Y) :
  L' <= L -> grows L a b -> grows L' a b.
Proof.
  intros HL [H1 H2]. split; intros; auto. apply H1. lia.
Qed.

Lemma closedAt_stable {X} i j k A prod (st st' : Run X) :
  i <= k < j -> closedAt i j k A prod st -> grows (span i j) st st' ->
  closedAt i j k A prod st'.
Proof.
  intros Hk Hc [Hsame Hmono] B C E (cB & EB & HB) (cC & EC & HC).
  apply Hmono. apply (Hc B C E).
  - exists cB. rewrite Hsame; [auto | unfold span; lia].
  - exists cC. rewrite Hsame; [auto | unfold span; lia].
Qed.

Lemma validDeriv_mono (t t' : Matrix JsSet) i j d :
  (forall i j A, mem t i j A -> mem t' i j A) ->
  validDeriv tokens t i j d -> validDeriv tokens t' i j d.
Proof.
  intros Hm. destruct d as [tok | B C k]; simpl; [tauto|].
  intros (H1 & H2 & H3). auto.
Qed.

(** A read of a cell on or above the diagonal. *)
Lemma tableHas_spec i j x (st : Run BackTable) :
  Inv st -> i <= j < n ->
  exists c st',
    cell (tbl st) i j = Some c /\
    tableHas i j x st = Ok (setHas c x, st') /\
    tbl st' = tbl st /\ Inv st' /\ grows (S n) st st'.
Proof.
  intros HI Hij.
  destruct (square_cell _ i j (inv_square HI)) as (c & Ec); try lia.
  exists c. eexists. split; [exact Ec|]. unfold tableHas. rewrite Ec.
  split; [reflexivity|]. split; [reflexivity|]. split.
  - destruct HI. constructor; simpl; auto.
  - split; simpl; auto.
Qed.

(** Adding [A] to cell [(i, j)] and recording why. *)
Lemma add_spec i j A d (st : Run BackTable) :
  Inv st -> i <= j < n -> Yield grammar A (sub i j) ->
  validDeriv tokens (tbl st) i j d ->
  exists st',
    (st1 <- tableAdd i j A st ;; backPush i j A d st1) = Ok st' /\
    Inv st' /\ grows (span i j) st st' /\ mem (tbl st') i j A.
Proof.
  intros HI Hij HY Hd.
  destruct (square_cell _ i j (inv_square HI)) as (c & Ec); try lia.
  destruct (square_cell _ i j (inv_bsquare HI)) as (m & Em); try lia.
  unfold tableAdd. rewrite Ec. simpl. unfold backPush. simpl. rewrite Em.
  set (m1 := if mapHas m A then m else mapSet m A []).
  assert (Hm1 : exists l, mapGet m1 A = Some l /\
                 (mapGet m A = Some l \/ l = [])).
  { unfold m1, mapHas. destruct (mapGet m A) as [l|] eqn:El; [eauto|].
    exists []. rewrite mapGet_mapSet_same. auto. }
  destruct Hm1 as (l & El & Hl). rewrite El.
  assert (Hother : forall A', A' <> A -> mapGet m1 A' = mapGet m A').
  { intros A' Hne. unfold m1. destruct (mapHas m A); [reflexivity|].
    apply mapGet_mapSet_other; assumption. }
  assert (Hmono : forall i' j' A', mem (tbl st) i' j' A' ->
            mem (setCell (tbl st) i j (setAdd c A)) i' j' A').
  { intros. apply (mem_add _ _ _ _ _ _ _ _ Ec). auto. }
  eexists. split; [reflexivity|]. split; [|split].
  - constructor; simpl.
    + apply square_setCell, (inv_square HI).
    + intros i' j' A' H. apply (mem_add _ _ _ _ _ _ _ _ Ec) in H.
      destruct H as [H | (-> & -> & ->)]; [apply (inv_sound HI _ _ _ H)|].
      split; [lia | assumption].
    + constructor; [simpl; lia | apply (inv_log HI)].
    + apply square_setCell, (inv_bsquare HI).
    + intros i' j' A' H.
      destruct (pair_eq_dec i j i' j') as [E | E].
      * injection E as <- <-. rewrite (cell_setCell_same _ _ _ _ _ Em).
        destruct (list_eq_dec N.eq_dec A' A) as [-> | Hne].
        -- eexists; eexists; split; [reflexivity|].
           apply mapGet_mapSet_same.
        -- apply (mem_add _ _ _ _ _ _ _ _ Ec) in H.
           destruct H as [H | (_ & _ & ->)]; [|congruence].
           destruct (inv_bhas HI _ _ _ H) as (m0 & l0 & E0 & E1).
           rewrite Em in E0. injection E0 as <-.
           eexists; exists l0; split; [reflexivity|].
           rewrite mapGet_mapSet_other, Hother by assumption. exact E1.
      * rewrite cell_setCell_other by assumption.
        apply (inv_bhas HI). apply (mem_add _ _ _ _ _ _ _ _ Ec) in H.
        destruct H as [H | (-> & -> & _)]; [assumption | congruence].
    + intros i' j' m' A' l' Hc Hg.
      assert (Hold : forall m0 A0 l0, cell (aux st) i' j' = Some m0 ->
                mapGet m0 A0 = Some l0 ->
                l0 <> [] /\ Forall (validDeriv tokens
                  (setCell (tbl st) i j (setAdd c A)) i' j') l0).
      { intros m0 A0 l0 H0 H1.
        destruct (inv_bvalid HI _ _ _ _ _ H0 H1) as [N F].
        split; [assumption|]. eapply Forall_impl; [|exact F].
        intros d'. apply validDeriv_mono. exact Hmono. }
      destruct (pair_eq_dec i j i' j') as [E | E].
      * injection E as <- <-. rewrite (cell_setCell_same _ _ _ _ _ Em) in Hc.
        injection Hc as <-.
        destruct (list_eq_dec N.eq_dec A' A) as [-> | Hne].
        -- rewrite mapGet_mapSet_same in Hg. injection Hg as <-.
           split; [destruct l; discriminate|].
           apply Forall_app. split.
           ++ destruct Hl as [Hl | ->]; [|constructor].
              apply (Hold m A l Em Hl).
           ++ constructor; [|constructor].
              eapply validDeriv_mono; [exact Hmono | exact Hd].
        -- rewrite mapGet_mapSet_other, Hother in Hg by assumption.
           apply (Hold m A' l' Em Hg).
      * rewrite cell_setCell_other in Hc by assumption.
        apply (Hold m' A' l' Hc Hg).
  - split; simpl.
    + intros i' j' Hs. rewrite cell_setCell_other; [reflexivity|].
      intros E. injection E as <- <-. lia.
    + exact Hmono.
  - simpl. apply (mem_add _ _ _ _ _ _ _ _ Ec). auto.
Qed.

(** A read changes neither the table nor the bookkeeping. *)
Lemma tableHas_grows i j x (st st' : Run BackTable) b L :
  tableHas i j x st = Ok (b, st') -> grows L st st'.
Proof.
  unfold tableHas. destruct (cell (tbl st) i j); [|discriminate].
  intros E. injection E as _ <-. split; simpl; auto.
Qed.

Lemma pairStep_spec i j k A prods prod (st : Run BackTable) :
  Inv st -> i <= k < j -> j < n ->
  getProp (rules grammar) A = Own prods -> In prod prods ->
  exists st',
    pairStep i j k A prod st = Ok st' /\ Inv st' /\
    grows (span i j) st st' /\ closedAt i j k A prod st'.
Proof.
  intros HI Hk Hj Hp Hin.
  destruct prod as [|B [|C [|D prod]]];
    try (exists st; simpl; splits; auto using grows_refl;
         intros B' C' E'; discriminate).
  unfold pairStep.
  destruct (tableHas_spec i k B st HI) as (c1 & st1 & Ec1 & E1 & T1 & I1 & _);
    [lia|].
  rewrite E1. simpl.
  pose proof (tableHas_grows _ _ _ _ _ _ (span i j) E1) as G1.
  destruct (setHas c1 B) eqn:HB.
  2:{ exists st1. splits; auto.
      intros B' C' E (c & Ec & Hc) _. injection E as <- <-.
      rewrite T1, Ec1 in Ec. injection Ec as <-.
      apply setHas_In in Hc. congruence. }
  destruct (tableHas_spec (k + 1) j C st1 I1)
    as (c2 & st2 & Ec2 & E2 & T2 & I2 & _); [lia|].
  rewrite E2. simpl.
  pose proof (tableHas_grows _ _ _ _ _ _ (span i j) E2) as G2.
  destruct (setHas c2 C) eqn:HC.
  2:{ exists st2. splits; auto.
      - eapply grows_trans; eauto.
      - intros B' C' E _ (c & Ec & Hc). injection E as <- <-.
        rewrite T2, Ec2 in Ec. injection Ec as <-.
        apply setHas_In in Hc. congruence. }
  apply setHas_In in HB, HC.
  assert (MB : mem (tbl st2) i k B) by (exists c1; rewrite T2, T1; auto).
  assert (MC : mem (tbl st2) (k + 1) j C) by (exists c2; rewrite T2; auto).
  destruct (add_spec i j A (Binary B C k) st2 I2) as (st3 & E3 & I3 & G3 & M3).
  - lia.
  - rewrite (sub_app tokens i k j) by lia.
    apply Yield_binary with (B := B) (C := C).
    + exists prods; auto.
    + apply (inv_sound I2 _ _ _ MB).
    + apply (inv_sound I2 _ _ _ MC).
  - simpl. auto.
  - exists st3. splits; auto.
    + eapply grows_trans; [exact G1|]. eapply grows_trans; eauto.
    + intros B' C' _ _ _. exact M3.
Qed.

Lemma diagStep_spec i tok A prods prod (st : Run BackTable) :
  Inv st -> nth_error tokens i = Some tok ->
  getProp (rules grammar) A = Own prods -> In prod prods ->
  exists st',
    diagStep i tok A prod st = Ok st' /\ Inv st' /\
    grows 1 st st' /\ (prod = [tok] -> mem (tbl st') i i A).
Proof.
  intros HI Ht Hp Hin.
  assert (Hi : i < n) by (apply nth_error_Some; congruence).
  destruct prod as [|p0 [|p1 prod]]; simpl;
    try (exists st; splits; auto using grows_refl; discriminate).
  destruct (streq p0 tok) eqn:E.
  2:{ exists st. splits; auto using grows_refl.
      intros E'. injection E' as ->. rewrite streq_refl in E.
      discriminate. }
  apply streq_true_iff in E. subst p0.
  destruct (add_spec i i A (Terminal tok) st HI) as (st' & E' & I' & G' & M').
  - lia.
  - rewrite (sub_single _ _ _ Ht). apply Yield_terminal. exists prods; auto.
  - simpl. auto.
  - exists st'. splits; auto.
    replace 1 with (span i i) by (unfold span; lia). exact G'.
Qed.

Lemma rulesOf_key A :
  In A (objectKeys (rules grammar)) ->
  exists prods,
    getProp (rules grammar) A = Own prods /\ rulesOf grammar A = Ok prods.
Proof.
  intros H. apply In_keys_mapGet in H. destruct H as (prods & E).
  exists prods. unfold rulesOf, getProp. rewrite E. auto.
Qed.

Lemma hasProduction_key A rhs :
  hasProduction grammar A rhs -> In A (objectKeys (rules grammar)).
Proof.
  intros (prods & E & _). unfold getProp in E.
  destruct (mapGet (rules grammar) A) eqn:Eg.
  - eapply mapGet_In_keys; eauto.
  - destruct (setHas objectPrototypeKeys A); discriminate.
Qed.

Lemma closedSplit_stable i j k (st st' : Run BackTable) :
  i <= k < j -> closedSplit grammar i j k st -> grows (span i j) st st' ->
  closedSplit grammar i j k st'.
Proof.
  intros Hk Hc [Hsame Hmono] A B C Hp (cB & EB & HB) (cC & EC & HC).
  apply Hmono. apply (Hc A B C Hp).
  - exists cB. rewrite Hsame; [auto | unfold span; lia].
  - exists cC. rewrite Hsame; [auto | unfold span; lia].
Qed.

(** *** The upper-triangle loops, innermost first *)

Lemma pair_prods i j k A prods (st : Run BackTable) :
  Inv st -> i <= k < j -> j < n ->
  getProp (rules grammar) A = Own prods ->
  exists st',
    forEach prods (pairStep i j k A) st = Ok st' /\ Inv st' /\
    grows (span i j) st st' /\
    forall prod, In prod prods -> closedAt i j k A prod st'.
Proof.
  intros HI Hk Hj Hp. apply forEach_each; auto using grows_refl.
  - intros a b c. apply grows_trans.
  - intros prod s s'. apply closedAt_stable; assumption.
  - intros prod s Hin Hs. eapply pairStep_spec; eauto.
Qed.

Lemma pair_keys i j k (st : Run BackTable) :
  Inv st -> i <= k < j -> j < n ->
  exists st',
    forEach (objectKeys (rules grammar)) (fun A st =>
      prods <- rulesOf grammar A ;;
      forEach prods (pairStep i j k A) st) st = Ok st' /\
    Inv st' /\ grows (span i j) st st' /\ closedSplit grammar i j k st'.
Proof.
  intros HI Hk Hj.
  destruct (forEach_each Inv (grows (span i j))
    (fun A s => forall prods prod,
       getProp (rules grammar) A = Own prods -> In prod prods ->
       closedAt i j k A prod s)
    (fun A st => prods <- rulesOf grammar A ;;
                 forEach prods (pairStep i j k A) st)
    (objectKeys (rules grammar)) st) as (st' & E & I' & G & Q);
    auto using grows_refl.
  - intros a b c. apply grows_trans.
  - intros A s s' H G prods prod Hp Hin.
    eapply closedAt_stable; eauto.
  - intros A s Hin Hs. destruct (rulesOf_key A Hin) as (prods & Hp & Er).
    rewrite Er. simpl.
    destruct (pair_prods i j k A prods s Hs Hk Hj Hp) as (s' & E & I' & G & Q).
    exists s'. splits; auto.
    intros prods' prod Hp' Hin'. rewrite Hp in Hp'. injection Hp' as <-.
    auto.
  - exists st'. splits; auto.
    intros A B C Hp. pose proof (hasProduction_key _ _ Hp) as Hkey.
    destruct Hp as (prods & Hp & Hin). apply (Q A Hkey prods _ Hp Hin B C).
    reflexivity.
Qed.

Lemma pair_splits i j (st : Run BackTable) :
  Inv st -> j < n ->
  exists st',
    forEach (seq i (j - i)) (fun k =>
      forEach (objectKeys (rules grammar)) (fun A st =>
        prods <- rulesOf grammar A ;;
        forEach prods (pairStep i j k A) st)) st = Ok st' /\
    Inv st' /\ grows (span i j) st st' /\
    forall k, i <= k < j -> closedSplit grammar i j k st'.
Proof.
  intros HI Hj.
  destruct (forEach_each Inv (grows (span i j))
    (fun k s => i <= k < j -> closedSplit grammar i j k s)
    (fun k => forEach (objectKeys (rules grammar)) (fun A st =>
        prods <- rulesOf grammar A ;;
        forEach prods (pairStep i j k A) st))
    (seq i (j - i)) st) as (st' & E & I' & G & Q);
    auto using grows_refl.
  - intros a b c. apply grows_trans.
  - intros k s s' H G Hk. eapply closedSplit_stable; eauto.
  - intros k s Hin Hs. apply in_seq in Hin.
    destruct (pair_keys i j k s Hs) as (s' & E & I' & G & Q); try lia.
    exists s'. splits; auto.
  - exists st'. splits; auto. intros k Hk. apply Q; [|assumption].
    apply in_seq. lia.
Qed.

Lemma pair_starts len (st : Run BackTable) :
  Inv st -> 2 <= len <= n ->
  exists st',
    forEach (seq 0 (n - len + 1)) (fun i =>
      let j := i + len - 1 in
      forEach (seq i (j - i)) (fun k =>
        forEach (objectKeys (rules grammar)) (fun A st =>
          prods <- rulesOf grammar A ;;
          forEach prods (pairStep i j k A) st))) st = Ok st' /\
    Inv st' /\ grows len st st' /\
    forall i k, i + len - 1 < n -> i <= k < i + len - 1 ->
      closedSplit grammar i (i + len - 1) k st'.
Proof.
  intros HI Hlen.
  assert (Hspan : forall i, span i (i + len - 1) = len)
    by (intros; unfold span; lia).
  destruct (forEach_each Inv (grows len)
    (fun i s => forall k, i <= k < i + len - 1 ->
       closedSplit grammar i (i + len - 1) k s)
    (fun i =>
      let j := i + len - 1 in
      forEach (seq i (j - i)) (fun k =>
        forEach (objectKeys (rules grammar)) (fun A st =>
          prods <- rulesOf grammar A ;;
          forEach prods (pairStep i j k A) st)))
    (seq 0 (n - len + 1)) st) as (st' & E & I' & G & Q);
    auto using grows_refl.
  - intros a b c. apply grows_trans.
  - intros i s s' H G k Hk. eapply closedSplit_stable; eauto.
    rewrite Hspan. exact G.
  - intros i s Hin Hs. apply in_seq in Hin. cbv zeta.
    destruct (pair_splits i (i + len - 1) s Hs) as (s' & E & I' & G & Q);
      try lia.
    rewrite Hspan in G. exists s'. splits; auto.
  - exists st'. splits; auto. intros i k Hi Hk. apply Q; [|assumption].
    apply in_seq. lia.
Qed.

Lemma completeAt_mono L (st st' : Run BackTable) :
  completeAt grammar tokens L st -> grows 0 st st' ->
  completeAt grammar tokens L st'.
Proof.
  intros H [_ Hmono] i j A Hij Hs HY. apply Hmono. apply H; assumption.
Qed.

(** A span of [len >= 2] tokens is complete once the shorter ones are and
    its own cells reflect every production at every split. *)
Lemma completeAt_step len (st : Run BackTable) :
  2 <= len ->
  (forall L, 1 <= L < len -> completeAt grammar tokens L st) ->
  (forall i k, i + len - 1 < n -> i <= k < i + len - 1 ->
      closedSplit grammar i (i + len - 1) k st) ->
  completeAt grammar tokens len st.
Proof.
  intros Hlen Hshort Hclosed i j A Hij Hs HY. unfold span in Hs.
  remember (sub i j) as w eqn:Ew.
  destruct HY as [A t Hp | A B C u v Hp Hu Hv].
  - assert (L : length (sub i j) = 1) by (rewrite <- Ew; reflexivity).
    rewrite sub_length in L by lia. lia.
  - symmetry in Ew.
    destruct (sub_split tokens i j u v Hij Ew) as (k & Hk & -> & ->);
      eauto using Yield_nonempty.
    replace j with (i + len - 1) in * by lia.
    apply (Hclosed i k) with (B := B) (C := C); try lia; auto.
    + apply (Hshort (span i k)); unfold span; try lia; auto.
    + apply (Hshort (span (k + 1) (i + len - 1))); unfold span; try lia; auto.
Qed.

Lemma pair_lengths (st : Run BackTable) :
  Inv st -> completeAt grammar tokens 1 st ->
  exists st',
    forEach (seq 2 (n - 1)) (fun len =>
      forEach (seq 0 (n - len + 1)) (fun i =>
        let j := i + len - 1 in
        forEach (seq i (j - i)) (fun k =>
          forEach (objectKeys (rules grammar)) (fun A st =>
            prods <- rulesOf grammar A ;;
            forEach prods (pairStep i j k A) st)))) st = Ok st' /\
    Inv st' /\ forall L, completeAt grammar tokens L st'.
Proof.
  intros HI H1.
  destruct (forEach_rule
    (fun s => Inv s /\ completeAt grammar tokens 1 s) (grows 0)
    (fun L s => completeAt grammar tokens L s)
    (fun len =>
      forEach (seq 0 (n - len + 1)) (fun i =>
        let j := i + len - 1 in
        forEach (seq i (j - i)) (fun k =>
          forEach (objectKeys (rules grammar)) (fun A st =>
            prods <- rulesOf grammar A ;;
            forEach prods (pairStep i j k A) st))))
    (@grows_refl _ 0) (@grows_trans _ _ _ 0)
    (fun L s s' => @completeAt_mono L s s')
    [] (seq 2 (n - 1)) st) as (st' & E & [I' C1] & G & Q);
    simpl; auto; [|tauto|].
  - intros pre len post s Eseq [Hs Hc1] Hpre.
    apply seq_split in Eseq. destruct Eseq as [-> Hlen].
    destruct (pair_starts len s Hs) as (s' & E & I' & G & Q); [lia|].
    assert (G0 : grows 0 s s') by (eapply grows_weaken; [|exact G]; lia).
    exists s'. splits; auto.
    + eapply completeAt_mono; eauto.
    + apply completeAt_step; [lia| |assumption].
      intros L HL. eapply completeAt_mono; [|exact G0].
      destruct (Nat.eq_dec L 1) as [-> | Hne]; [assumption|].
      apply Hpre. apply in_seq. lia.
  - exists st'. splits; auto. intros L i j A Hij Hs HY.
    destruct (Nat.eq_dec L 1) as [-> | Hne]; [apply C1; assumption|].
    apply (Q L); auto. apply in_seq. unfold span in Hs. lia.
Qed.

(** *** The diagonal loops, innermost first *)

Lemma diag_prods i tok A prods (st : Run BackTable) :
  Inv st -> nth_error tokens i = Some tok ->
  getProp (rules grammar) A = Own prods ->
  exists st',
    forEach prods (diagStep i tok A) st = Ok st' /\ Inv st' /\
    grows 1 st st' /\ (In [tok] prods -> mem (tbl st') i i A).
Proof.
  intros HI Ht Hp.
  destruct (forEach_each Inv (grows 1)
    (fun prod s => prod = [tok] -> mem (tbl s) i i A)
    (diagStep i tok A) prods st) as (st' & E & I' & G & Q);
    auto using grows_refl.
  - intros a b c. apply grows_trans.
  - intros prod s s' H [_ Hmono] Ep. auto.
  - intros prod s Hin Hs. eapply diagStep_spec; eauto.
  - exists st'. splits; auto. intros Hin. apply (Q [tok]); auto.
Qed.

Lemma diag_keys i tok (st : Run BackTable) :
  Inv st -> nth_error tokens i = Some tok ->
  exists st',
    forEach (objectKeys (rules grammar)) (fun A st =>
      prods <- rulesOf grammar A ;;
      forEach prods (diagStep i tok A) st) st = Ok st' /\
    Inv st' /\ grows 1 st st' /\
    forall A, hasProduction grammar A [tok] -> mem (tbl st') i i A.
Proof.
  intros HI Ht.
  destruct (forEach_each Inv (grows 1)
    (fun A s => hasProduction grammar A [tok] -> mem (tbl s) i i A)
    (fun A st => prods <- rulesOf grammar A ;;
                 forEach prods (diagStep i tok A) st)
    (objectKeys (rules grammar)) st) as (st' & E & I' & G & Q);
    auto using grows_refl.
  - intros a b c. apply grows_trans.
  - intros A s s' H [_ Hmono] Hp. auto.
  - intros A s Hin Hs. destruct (rulesOf_key A Hin) as (prods & Hp & Er).
    rewrite Er. simpl.
    destruct (diag_prods i tok A prods s Hs Ht Hp) as (s' & E & I' & G & Q).
    exists s'. splits; auto.
    intros (prods' & Hp' & Hin'). rewrite Hp in Hp'. injection Hp' as <-.
    auto.
  - exists st'. splits; auto. intros A Hp. apply Q; [|assumption].
    eapply hasProduction_key; eauto.
Qed.

Lemma diag_all (st : Run BackTable) :
  Inv st ->
  exists st',
    forEachIdx 0 tokens (fun i tok =>
      forEach (objectKeys (rules grammar)) (fun A st =>
        prods <- rulesOf grammar A ;;
        forEach prods (diagStep i tok A) st)) st = Ok st' /\
    Inv st' /\ completeAt grammar tokens 1 st'.
Proof.
  intros HI. rewrite forEachIdx_forEach.
  destruct (forEach_each Inv (grows 1)
    (fun (p : nat * jsstring) s =>
       forall A, hasProduction grammar A [snd p] ->
                 mem (tbl s) (fst p) (fst p) A)
    (fun p =>
      forEach (objectKeys (rules grammar)) (fun A st =>
        prods <- rulesOf grammar A ;;
        forEach prods (diagStep (fst p) (snd p) A) st))
    (combine (seq 0 n) tokens) st) as (st' & E & I' & G & Q);
    auto using grows_refl.
  - intros a b c. apply grows_trans.
  - intros p s s' H [_ Hmono] A Hp. auto.
  - intros [i tok] s Hin Hs. apply In_combine_seq in Hin.
    rewrite Nat.sub_0_r in Hin. simpl. apply diag_keys; tauto.
  - exists st'. splits; auto. intros i j A Hij Hs HY.
    unfold span in Hs. assert (j = i) by lia. subst j.
    destruct (nth_error tokens i) as [tok|] eqn:Et.
    2:{ apply nth_error_None in Et. lia. }
    rewrite (sub_single _ _ _ Et) in HY. apply Yield_single in HY.
    apply (Q (i, tok)); [|assumption].
    apply In_combine_seq. rewrite Nat.sub_0_r. split; [lia | assumption].
Qed.

Lemma Inv_initial :
  Inv {| tbl := newMatrix n []; aux := newMatrix n []; log := [] |}.
Proof.
  assert (E : forall X (x : X) i j c,
            cell (newMatrix n x) i j = Some c -> c = x).
  { intros X x i j c. rewrite cell_newMatrix.
    destruct ((i <? n) && (j <? n)); congruence. }
  constructor; simpl; auto using square_newMatrix.
  - intros i j A (c & Ec & Hc). apply E in Ec. subst c. destruct Hc.
  - intros i j A (c & Ec & Hc). apply E in Ec. subst c. destruct Hc.
  - intros i j m A l Ec. apply E in Ec. subst m. discriminate.
Qed.

(** What a run of [cykWithPointers] on a non-empty input leaves behind. *)
Lemma cykWithPointersTraced_spec :
  tokens <> [] ->
  exists r acc,
    cykWithPointersTraced tokens grammar = Ok (r, acc) /\
    Inv {| tbl := table r; aux := back r; log := rev acc |} /\
    (forall L, completeAt grammar tokens L
                 {| tbl := table r; aux := back r; log := rev acc |}) /\
    (accepted r = true <->
     mem (table r) 0 (n - 1) (startSymbol grammar)).
Proof.
  intros Hne. unfold cykWithPointersTraced. cbv zeta.
  assert (Hn : 0 < n) by (destruct tokens; simpl; [congruence | lia]).
  destruct (Nat.eqb_spec n 0) as [Hz | _]; [lia|].
  destruct (diag_all _ Inv_initial) as (st1 & E1 & I1 & C1).
  rewrite E1, bind_Ok.
  destruct (pair_lengths st1 I1 C1) as (st2 & E2 & I2 & C2).
  cbv zeta in E2. rewrite E2, bind_Ok.
  destruct (tableHas_spec 0 (n - 1) (startSymbol grammar) st2 I2)
    as (c & st3 & Ec & E3 & T3 & I3 & _); [lia|].
  rewrite E3, bind_Ok. eexists. eexists. split; [reflexivity|]. simpl.
  rewrite rev_involutive. destruct st3 as [t3 b3 l3]. simpl in *.
  subst t3. splits; auto. split.
  - intros H. apply setHas_In in H. exists c. auto.
  - intros (c' & Ec' & Hc'). rewrite Ec in Ec'. injection Ec' as <-.
    apply setHas_In. assumption.
Qed.
End Invariants.

(** ** Derivations and derivation trees *)

Section DerivationFacts.
Variable G : Grammar.

Lemma derives_refl a : derives G a a.
Proof. apply Relation_Operators.rt1n_refl. Qed.

Lemma derives_trans a b c : derives G a b -> derives G b c -> derives G a c.
Proof.
  induction 1 as [a | a b b' Hs Hd IH]; intros Hc; [exact Hc|].
  eapply Relation_Operators.rt1n_trans; [exact Hs | exact (IH Hc)].
Qed.

Lemma derives_context u v a b :
  derives G a b -> derives G (u ++ a ++ v) (u ++ b ++ v).
Proof.
  induction 1 as [a | a b c Hs Hd IH]; [apply derives_refl|].
  eapply Relation_Operators.rt1n_trans; [|exact IH].
  destruct Hs as [x A y rhs Hp].
  replace (u ++ (x ++ A :: y) ++ v) with ((u ++ x) ++ A :: (y ++ v))
    by (repeat rewrite <- app_assoc; reflexivity).
  replace (u ++ (x ++ rhs ++ y) ++ v) with ((u ++ x) ++ rhs ++ (y ++ v))
    by (repeat rewrite <- app_assoc; reflexivity).
  constructor. assumption.
Qed.

Lemma isCNF_CNF : isCNF G = true -> CNF G.
Proof.
  unfold isCNF. rewrite !andb_true_iff, !forallb_forall.
  intros [[Hd Hs] Hr].
  assert (Hprod : forall A rhs, hasProduction G A rhs ->
            setHas (variables G) A = true /\ productionOk G rhs = true).
  { intros A rhs Hp. pose proof (Hr A) as H.
    destruct Hp as (prods & E & Hin). rewrite E in H.
    assert (K : In A (objectKeys (rules G))).
    { unfold getProp in E. destruct (mapGet (rules G) A) eqn:Eg.
      - eapply mapGet_In_keys; eauto.
      - destruct (setHas objectPrototypeKeys A); discriminate. }
    apply H in K. apply andb_true_iff in K. destruct K as [K1 K2].
    split; [assumption|]. rewrite forallb_forall in K2. auto. }
  constructor.
  - intros x Hv Ht. apply Hd in Hv. apply setHas_In in Ht.
    rewrite Ht in Hv. discriminate.
  - apply setHas_In. assumption.
  - intros A rhs Hp. apply setHas_In. apply (Hprod A rhs Hp).
  - intros A rhs Hp. destruct (Hprod A rhs Hp) as [_ H].
    destruct rhs as [|B [|C [|D rhs]]]; simpl in H; try discriminate.
    + left. exists B. split; [reflexivity | apply setHas_In; assumption].
    + right. exists B, C. apply andb_true_iff in H.
      unfold isVariable. rewrite <- !setHas_In. tauto.
Qed.

Hypothesis HG : CNF G.

Lemma Yield_derives A w :
  Yield G A w -> derives G [A] w /\ Forall (isTerminal G) w.
Proof.
  induction 1 as [A t Hp | A B C u v Hp Hu [IHu1 IHu2] Hv [IHv1 IHv2]].
  - split.
    + eapply Relation_Operators.rt1n_trans; [|apply derives_refl].
      apply (step_rewrite G [] A [] [t] Hp).
    + destruct (cnf_rhs HG _ _ Hp) as [(t' & E & Ht) | (B & C & E & _)];
        [|discriminate].
      injection E as ->. auto.
  - split; [|apply Forall_app; auto].
    eapply Relation_Operators.rt1n_trans;
      [apply (step_rewrite G [] A [] [B; C] Hp)|].
    simpl. eapply derives_trans.
    + apply (derives_context [] [C] _ _ IHu1).
    + simpl. pose proof (derives_context u [] _ _ IHv1) as H.
      rewrite !app_nil_r in H. exact H.
Qed.

Lemma explains_variable X wX :
  isVariable G X -> explains G X wX -> Yield G X wX.
Proof.
  intros Hv [[Ht _] | H]; [|assumption].
  destruct (cnf_disjoint HG _ Hv Ht).
Qed.

Lemma derives_explained a w :
  derives G a w -> Forall (isTerminal G) w ->
  exists ws, w = concat ws /\ Forall2 (explains G) a ws.
Proof.
  induction 1 as [a | a b c Hs Hd IH]; intros Hw.
  - exists (map (fun x => [x]) a). split.
    + clear Hw. induction a as [|x a IH]; simpl; congruence.
    + induction Hw as [|x a Hx Ha IH]; simpl; constructor; auto.
      left. auto.
  - destruct (IH Hw) as (ws & Ew & F). clear IH.
    destruct Hs as [u A v rhs Hp].
    apply Forall2_app_inv_l in F. destruct F as (wu & ws' & Fu & F & ->).
    apply Forall2_app_inv_l in F. destruct F as (wr & wv & Fr & Fv & ->).
    exists (wu ++ [concat wr] ++ wv). split.
    + rewrite Ew, !concat_app. simpl. rewrite app_nil_r. reflexivity.
    + apply Forall2_app; [assumption|]. constructor; [|assumption].
      right.
      destruct (cnf_rhs HG _ _ Hp) as [(t & -> & Ht) | (B & C & -> & HB & HC)].
      * inversion Fr as [|x wt l l' Hx Hnil]; subst.
        inversion Hnil; subst. simpl. rewrite app_nil_r.
        destruct Hx as [[_ ->] | Hy]; [constructor; assumption|].
        exfalso. apply (cnf_disjoint HG t); [|assumption].
        inversion Hy as [A' t' Hp' | A' B C u' v' Hp' _ _]; subst;
          eapply cnf_lhs; eauto.
      * inversion Fr as [|x wB l l' HxB Htl]; subst.
        inversion Htl as [|y wC l2 l2' HxC Hnil]; subst.
        inversion Hnil; subst. simpl. rewrite app_nil_r.
        apply Yield_binary with (B := B) (C := C); auto using explains_variable.
Qed.

(** In a grammar in normal form, the derivation trees of the start
    symbol yield exactly the terminal strings it derives. *)
Lemma generates_iff_Yield w :
  generates G w <-> Yield G (startSymbol G) w.
Proof.
  split.
  - intros [Hw Hd]. destruct (derives_explained _ _ Hd Hw) as (ws & E & F).
    inversion F as [|x w0 l l' Hx Hnil]; subst. inversion Hnil; subst.
    simpl. rewrite app_nil_r.
    apply explains_variable; [apply (cnf_start HG) | assumption].
  - intros H. apply Yield_derives in H. split; tauto.
Qed.
End DerivationFacts.

(** ** What the recognizer returns *)

Lemma cykWithPointers_of_traced tokens grammar r acc :
  cykWithPointersTraced tokens grammar = Ok (r, acc) ->
  cykWithPointers tokens grammar = Ok r.
Proof. intros E. unfold cykWithPointers. rewrite E. reflexivity. Qed.

Lemma cykWithPointersTraced_nil grammar :
  cykWithPointersTraced [] grammar =
  Ok ({| accepted := false; table := []; back := [] |}, []).
Proof. reflexivity. Qed.

Lemma cykWithPointersTraced_total tokens grammar :
  exists r acc, cykWithPointersTraced tokens grammar = Ok (r, acc).
Proof.
  destruct tokens as [|t tokens].
  - rewrite cykWithPointersTraced_nil. eauto.
  - destruct (cykWithPointersTraced_spec grammar (t :: tokens))
      as (r & acc & E & _); [discriminate | eauto].
Qed.

(** The recognizer accepts exactly the yields of the derivation trees of
    the start symbol, whatever the grammar. *)
Lemma cykWithPointers_Yield tokens grammar :
  exists r,
    cykWithPointers tokens grammar = Ok r /\
    (accepted r = true <-> Yield grammar (startSymbol grammar) tokens).
Proof.
  destruct tokens as [|t tokens].
  - eexists. split; [reflexivity|]. simpl. split; [discriminate|].
    intros H. apply Yield_nonempty in H. congruence.
  - destruct (cykWithPointersTraced_spec grammar (t :: tokens))
      as (r & acc & E & HI & HC & Hacc); [discriminate|].
    exists r. split; [eapply cykWithPointers_of_traced; eauto|].
    rewrite Hacc. rewrite <- (sub_full (t :: tokens)) at 2 by discriminate.
    split.
    + intros M. apply (inv_sound HI _ _ _ M).
    + intros HY. eapply (HC _ 0); eauto. simpl. lia.
Qed.

(** X19. Every cell on or above the diagonal holds exactly the variables
    whose derivation trees yield its span. *)
Lemma cykWithPointers_table tokens grammar r :
  cykWithPointers tokens grammar = Ok r ->
  forall i j A, i <= j < length tokens ->
    (mem (table r) i j A <-> Yield grammar A (sub tokens i j)).
Proof.
  intros E i j A Hij. destruct tokens as [|t tokens]; [simpl in Hij; lia|].
  destruct (cykWithPointersTraced_spec grammar (t :: tokens))
    as (r0 & acc & E0 & HI & HC & _); [discriminate|].
  rewrite (cykWithPointers_of_traced _ _ _ _ E0) in E. injection E as ->.
  split.
  - intros M. apply (inv_sound HI _ _ _ M).
  - intros HY. apply (HC (span i j) i j A Hij eq_refl HY).
Qed.

(** ** Parse trees from the recorded derivations *)

Section Trees.
Variable grammar : Grammar.
Variable tokens : list jsstring.
Variable st : Run BackTable.
Hypothesis HI : Inv grammar tokens st.

Lemma choose_spec depth : forall i j A,
  mem (tbl st) i j A -> j < length tokens -> span i j <= depth ->
  exists t,
    choose depth (aux st) A i j = Ok t /\ noBare t = true /\
    leaves t = sub tokens i j /\ rootLabel t = A.
Proof.
  induction depth as [|d IH]; intros i j A M Hj Hd.
  - destruct (inv_sound HI _ _ _ M) as [Hij _]. unfold span in Hd. lia.
  - destruct (inv_sound HI _ _ _ M) as [Hij _].
    destruct (inv_bhas HI _ _ _ M) as (m & l & Em & El).
    destruct (inv_bvalid HI _ _ _ _ _ Em El) as [Hne Hv].
    simpl. rewrite Em, El. destruct l as [|dv l]; [congruence|].
    apply Forall_inv in Hv. destruct dv as [tok | B C k]; simpl in Hv.
    + destruct Hv as [<- Ht]. eexists. split; [reflexivity|]. simpl.
      rewrite (sub_single _ _ _ Ht). auto.
    + destruct Hv as (Hk & MB & MC). unfold span in Hd.
      destruct (IH i k B MB) as (tl & E1 & N1 & L1 & _);
        [lia | unfold span; lia |].
      destruct (IH (k + 1) j C MC) as (tr & E2 & N2 & L2 & _);
        [lia | unfold span; lia |].
      rewrite E1, E2. simpl. eexists. split; [reflexivity|]. simpl.
      rewrite N1, N2, L1, L2, <- sub_app by lia. auto.
Qed.
End Trees.

(** More stack never changes the tree that [choose] builds. *)
Lemma choose_more_depth back d : forall d' A i j t,
  choose d back A i j = Ok t -> d <= d' -> choose d' back A i j = Ok t.
Proof.
  induction d as [|d IH]; intros d' A i j t E Hd; [discriminate|].
  destruct d' as [|d']; [lia|]. simpl in *.
  destruct (cell back i j) as [m|]; [|discriminate].
  destruct (mapGet m A) as [[|[tok | B C k] l]|]; auto.
  destruct (choose d back B i k) as [tl|] eqn:E1; [|discriminate].
  destruct (choose d back C (k + 1) j) as [tr|] eqn:E2; [|discriminate].
  rewrite (IH d' _ _ _ _ E1), (IH d' _ _ _ _ E2) by lia. exact E.
Qed.

Lemma buildParseTree_any_depth d1 d2 grammar tokens back t1 t2 :
  buildParseTree d1 grammar tokens back = Ok t1 ->
  buildParseTree d2 grammar tokens back = Ok t2 -> t1 = t2.
Proof.
  unfold buildParseTree. destruct (length tokens =? 0); [congruence|].
  destruct (cell back 0 (length tokens - 1)) as [m|]; [|discriminate].
  destruct (mapHas m (startSymbol grammar)); [|congruence].
  destruct (choose d1 back _ 0 _) as [u1|] eqn:E1; [|discriminate].
  destruct (choose d2 back _ 0 _) as [u2|] eqn:E2; [|discriminate].
  simpl. intros H1 H2. injection H1 as <-. injection H2 as <-.
  apply (choose_more_depth _ _ (Nat.max d1 d2)) in E1; [|lia].
  apply (choose_more_depth _ _ (Nat.max d1 d2)) in E2; [|lia].
  congruence.
Qed.

(** ** cykAlgorithm runs in step with cykWithPointers *)

Lemma backPush_frame i j A d (s s' : Run BackTable) :
  backPush i j A d s = Ok s' -> tbl s' = tbl s /\ log s' = log s.
Proof.
  unfold backPush. destruct (cell (aux s) i j) as [m|]; [|discriminate].
  destruct (mapGet _ A); [|discriminate].
  intros E. injection E as <-. auto.
Qed.

Lemma sim_tableAdd i j x s1 s2 s1' :
  sameTable s1 s2 -> tableAdd i j x s1 = Ok s1' ->
  exists s2', tableAdd i j x s2 = Ok s2' /\ sameTable s1' s2'.
Proof.
  intros [Ht El]. unfold tableAdd. rewrite <- Ht.
  destruct (cell (tbl s1) i j); [|discriminate].
  intros E. injection E as <-. eexists. split; [reflexivity|].
  split; simpl; congruence.
Qed.

Lemma sim_tableHas i j x s1 s2 b s1' :
  sameTable s1 s2 -> tableHas i j x s1 = Ok (b, s1') ->
  exists s2', tableHas i j x s2 = Ok (b, s2') /\ sameTable s1' s2'.
Proof.
  intros [Ht El]. unfold tableHas. rewrite <- Ht.
  destruct (cell (tbl s1) i j); [|discriminate].
  intros E. injection E as <- <-. eexists. split; [reflexivity|].
  split; simpl; congruence.
Qed.

Lemma sim_diagStep i tok A prod s1 s2 s1' :
  sameTable s1 s2 -> diagStep i tok A prod s1 = Ok s1' ->
  exists s2', diagStepA i tok A prod s2 = Ok s2' /\ sameTable s1' s2'.
Proof.
  intros HR. unfold diagStep, diagStepA.
  destruct prod as [|p0 [|p1 prod]];
    try (intros E; injection E as <-; eauto).
  destruct (streq p0 tok); [|intros E; injection E as <-; eauto].
  destruct (tableAdd i i A s1) as [t1|] eqn:E1; [|discriminate].
  destruct (sim_tableAdd _ _ _ _ _ _ HR E1) as (t2 & E2 & [Ht El]).
  rewrite E2. simpl. intros E. apply backPush_frame in E.
  eexists. split; [reflexivity|]. destruct E. split; simpl; congruence.
Qed.

Lemma sim_pairStep i j k A prod s1 s2 s1' :
  sameTable s1 s2 -> pairStep i j k A prod s1 = Ok s1' ->
  exists s2', pairStepA i j k A prod s2 = Ok s2' /\ sameTable s1' s2'.
Proof.
  intros HR. unfold pairStep, pairStepA.
  destruct prod as [|B [|C [|D prod]]];
    try (intros E; injection E as <-; eauto).
  destruct (tableHas i k B s1) as [[b t1]|] eqn:E1; [|discriminate].
  destruct (sim_tableHas _ _ _ _ _ _ _ HR E1) as (t2 & E2 & HR1).
  rewrite E2. simpl. destruct b; [|intros E; injection E as <-; eauto].
  destruct (tableHas (k + 1) j C t1) as [[c u1]|] eqn:E3; [|discriminate].
  destruct (sim_tableHas _ _ _ _ _ _ _ HR1 E3) as (u2 & E4 & HR2).
  rewrite E4. simpl. destruct c; [|intros E; injection E as <-; eauto].
  destruct (tableAdd i j A u1) as [v1|] eqn:E5; [|discriminate].
  destruct (sim_tableAdd _ _ _ _ _ _ HR2 E5) as (v2 & E6 & [Ht El]).
  rewrite E6. simpl. intros E. apply backPush_frame in E.
  eexists. split; [reflexivity|]. destruct E. split; simpl; congruence.
Qed.

Lemma sim_keys grammar (f : jsstring -> Production -> Run BackTable ->
                            result (Run BackTable))
  (g : jsstring -> Production -> Run (list jsstring) ->
       result (Run (list jsstring))) :
  (forall A prod s1 s2 s1', sameTable s1 s2 -> f A prod s1 = Ok s1' ->
      exists s2', g A prod s2 = Ok s2' /\ sameTable s1' s2') ->
  forall s1 s2 s1', sameTable s1 s2 ->
    forEach (objectKeys (rules grammar)) (fun A st =>
      prods <- rulesOf grammar A ;; forEach prods (f A) st) s1 = Ok s1' ->
    exists s2',
      forEach (objectKeys (rules grammar)) (fun A st =>
        prods <- rulesOf grammar A ;; forEach prods (g A) st) s2 = Ok s2'
      /\ sameTable s1' s2'.
Proof.
  intros Hfg. apply forEach_sim. intros A s1 s2 s1' _ HR.
  destruct (rulesOf grammar A) as [prods|]; simpl; [|discriminate].
  revert s1 s2 s1' HR. apply forEach_sim. intros prod s1 s2 s1' _.
  apply Hfg.
Qed.

Lemma cykAlgorithm_sim word grammar r acc :
  cykWithPointersTraced word grammar = Ok (r, acc) ->
  exists r',
    cykAlgorithmTraced word grammar = Ok (r', acc) /\
    tAccepted r' = accepted r /\ tTable r' = table r.
Proof.
  unfold cykWithPointersTraced, cykAlgorithmTraced. cbv zeta.
  destruct (length word =? 0).
  - intros E. injection E as <- <-. eexists. split; [reflexivity|]. auto.
  - rewrite !forEachIdx_forEach.
    match goal with
    | |- context [@forEach _ (Run BackTable) ?l ?f ?s0] =>
        destruct (forEach l f s0) as [s1|] eqn:E1; [|discriminate]
    end.
    rewrite bind_Ok.
    match goal with
    | |- context [@forEach _ (Run (list jsstring)) ?l ?f ?t0] =>
        assert (S1 : exists t1, forEach l f t0 = Ok t1 /\ sameTable s1 t1)
    end.
    { eapply (forEach_sim sameTable); [| |exact E1].
      - intros p a b a' _. apply sim_keys. intros A prod.
        apply sim_diagStep.
      - split; reflexivity. }
    destruct S1 as (t1 & F1 & HR1). rewrite F1, bind_Ok.
    match goal with
    | |- context [@forEach _ (Run BackTable) ?l ?f s1] =>
        destruct (forEach l f s1) as [s2|] eqn:E2; [|discriminate]
    end.
    rewrite bind_Ok.
    match goal with
    | |- context [@forEach _ (Run (list jsstring)) ?l ?f t1] =>
        assert (S2 : exists t2, forEach l f t1 = Ok t2 /\ sameTable s2 t2)
    end.
    { eapply (forEach_sim sameTable); [| |exact E2].
      - intros len a b a' _. apply forEach_sim. intros i a0 b0 a0' _.
        apply forEach_sim. intros k a1 b1 a1' _. apply sim_keys.
        intros A prod. apply sim_pairStep.
      - exact HR1. }
    destruct S2 as (t2 & F2 & HR2). rewrite F2, bind_Ok.
    destruct (tableHas _ _ _ s2) as [[b s3]|] eqn:E3; [|discriminate].
    destruct (sim_tableHas _ _ _ _ _ _ _ HR2 E3) as (t3 & E4 & [Ht El]).
    rewrite E4, !bind_Ok. intros E. injection E as <- <-.
    eexists. split; [rewrite El; reflexivity|]. simpl. auto.
Qed.

Lemma cykAlgorithm_of_traced word grammar r acc :
  cykAlgorithmTraced word grammar = Ok (r, acc) ->
  cykAlgorithm word grammar = Ok r.
Proof. intros E. unfold cykAlgorithm. rewrite E. reflexivity. Qed.

(** ** Texts without any rule line *)

Lemma forEachIdx_skip lines : forall from st,
  (forall line, In line lines -> splitterOf line = (-1)%Z) ->
  forEachIdx from lines compileLine st = Ok st.
Proof.
  induction lines as [|line lines IH]; intros from st H; simpl; [reflexivity|].
  unfold compileLine at 1. cbv zeta.
  rewrite (H line (or_introl eq_refl)). simpl. apply IH.
  intros l Hl. apply H. right. assumption.
Qed.

Lemma parseGrammarFromText_no_arrow text :
  firstArrowLine text = None ->
  parseGrammarFromText text =
  Ok {| variables := []; terminals := []; startSymbol := js "S";
        rules := [] |}.
Proof.
  intros H. unfold parseGrammarFromText.
  rewrite forEachIdx_skip; [reflexivity|].
  intros line Hin. apply (find_none _ _ H) in Hin.
  apply negb_false_iff, Z.eqb_eq in Hin. exact Hin.
Qed.

(** ** The recognizer: main results *)

(** C1. For a grammar in Chomsky normal form and any token sequence,
    [cykWithPointers] returns, and it returns [accepted = true] exactly
    when the start symbol derives the sequence by rewriting with the
    productions of the grammar. *)
Theorem cykWithPointers_accepts_iff_derives (G : Grammar)
  (w : list jsstring) :
  isCNF G = true ->
  exists r,
    cykWithPointers w G = Ok r /\ (accepted r = true <-> generates G w).
Proof.
  intros H. destruct (cykWithPointers_Yield w G) as (r & E & Hr).
  exists r. split; [assumption|]. rewrite Hr. symmetry.
  apply generates_iff_Yield. apply isCNF_CNF. assumption.
Qed.

Lemma cykWithPointers_accepts_iff_derives_witness :
  isCNF exampleGrammar = true /\
  exists r,
    cykWithPointers [js "a"; js "b"] exampleGrammar = Ok r /\
    (accepted r = true <-> generates exampleGrammar [js "a"; js "b"]).
Proof.
  split; [reflexivity|].
  apply cykWithPointers_accepts_iff_derives. reflexivity.
Defined.

(** C2. On the same grammar and token sequence, [cykAlgorithm] and
    [cykWithPointers] both return, with the same [accepted] value and the
    same derivability table, cell by cell. *)
Theorem cykAlgorithm_agrees_with_cykWithPointers (G : Grammar)
  (w : list jsstring) :
  exists r r',
    cykWithPointers w G = Ok r /\ cykAlgorithm w G = Ok r' /\
    tAccepted r' = accepted r /\ tTable r' = table r /\
    forall i j, cell (tTable r') i j = cell (table r) i j.
Proof.
  destruct (cykWithPointersTraced_total w G) as (r & acc & E).
  destruct (cykAlgorithm_sim _ _ _ _ E) as (r' & E' & Ha & Ht).
  exists r, r'. splits; eauto using cykWithPointers_of_traced,
    cykAlgorithm_of_traced.
  intros i j. rewrite Ht. reflexivity.
Qed.

(** C7. In both recognizers every access to the table, the read that
    computes [accepted] included, touches a cell on or above the diagonal,
    and every cell below the diagonal is still the empty set in the
    result. *)
Theorem triangular_invariant (G : Grammar) (w : list jsstring) :
  exists r acc r' acc',
    cykWithPointersTraced w G = Ok (r, acc) /\
    cykAlgorithmTraced w G = Ok (r', acc') /\
    Forall (triangular w) acc /\ Forall (triangular w) acc' /\
    forall i j, j < i < length w ->
      cell (table r) i j = Some [] /\ cell (tTable r') i j = Some [].
Proof.
  destruct w as [|t w].
  - do 4 eexists. split; [reflexivity|]. split; [reflexivity|].
    splits; auto. simpl. intros i j H. lia.
  - destruct (cykWithPointersTraced_spec G (t :: w))
      as (r & acc & E & HI & _); [discriminate|].
    destruct (cykAlgorithm_sim _ _ _ _ E) as (r' & E' & _ & Ht).
    exists r, acc, r', acc.
    assert (Hacc : Forall (triangular (t :: w)) acc).
    { rewrite <- (rev_involutive acc). apply Forall_rev.
      apply (inv_log HI). }
    splits; auto. intros i j Hij. rewrite Ht.
    destruct (square_cell (t :: w) _ i j (inv_square HI)) as (c & Ec);
      try lia.
    simpl in Ec. rewrite Ec. destruct c as [|A c]; [auto|]. exfalso.
    assert (M : mem (table r) i j A) by (exists (A :: c); simpl; auto).
    destruct (inv_sound HI _ _ _ M). lia.
Qed.

(** C8. Recognition never raises: both recognizers return for every
    grammar and every input, with [accepted = false] when the grammar has
    no production, as has the grammar compiled from a text without any
    rule line; on the empty input they return [accepted = false] with
    empty structures. *)
Theorem recognition_never_raises (G : Grammar) (w : list jsstring) :
  (exists r r',
      cykWithPointers w G = Ok r /\ cykAlgorithm w G = Ok r' /\
      (noProductions G = true ->
       accepted r = false /\ tAccepted r' = false)) /\
  cykWithPointers [] G = Ok {| accepted := false; table := []; back := [] |}
  /\
  cykAlgorithm [] G = Ok {| tAccepted := false; tTable := []; tSteps := [] |}
  /\
  (forall text, firstArrowLine text = None ->
     exists g, parseGrammarFromText text = Ok g /\ noProductions g = true).
Proof.
  splits; try reflexivity.
  2:{ intros text H. rewrite (parseGrammarFromText_no_arrow _ H).
      eexists. split; reflexivity. }
  destruct (cykWithPointersTraced_total w G) as (r & acc & E).
  destruct (cykAlgorithm_sim _ _ _ _ E) as (r' & E' & Ha & _).
  exists r, r'. splits; eauto using cykWithPointers_of_traced,
    cykAlgorithm_of_traced.
  intros Hno. rewrite Ha. assert (Hr : accepted r = false); [|auto].
  destruct (cykWithPointers_Yield w G) as (r0 & E0 & Hacc).
  rewrite (cykWithPointers_of_traced _ _ _ _ E) in E0. injection E0 as <-.
  destruct (accepted r); [|reflexivity]. exfalso.
  assert (HY : Yield G (startSymbol G) w) by (apply Hacc; reflexivity).
  assert (Hp : exists A rhs, hasProduction G A rhs)
    by (destruct HY; eauto).
  destruct Hp as (A & rhs & Hp).
  pose proof (hasProduction_key _ _ _ Hp) as Hk.
  destruct Hp as (prods & Ep & Hin).
  unfold noProductions in Hno. rewrite forallb_forall in Hno.
  apply Hno in Hk. rewrite Ep in Hk. destruct prods; [destruct Hin|].
  discriminate.
Qed.

Lemma recognition_never_raises_witness :
  (noProductions {| variables := []; terminals := [];
                    startSymbol := js "S"; rules := [] |} = true /\
   exists r,
     cykWithPointers [js "a"]
       {| variables := []; terminals := [];
          startSymbol := js "S"; rules := [] |} = Ok r /\
     accepted r = false) /\
  (firstArrowLine (js "no rule here") = None /\
   exists g,
     parseGrammarFromText (js "no rule here") = Ok g /\
     noProductions g = true).
Proof.
  destruct (recognition_never_raises
              {| variables := []; terminals := [];
                 startSymbol := js "S"; rules := [] |} [js "a"])
    as [(r & r' & E & _ & H) (_ & _ & Htext)].
  split; split; try reflexivity.
  - exists r. split; [exact E|]. apply H. reflexivity.
  - apply Htext. reflexivity.
Defined.

(** C10. When [cykWithPointers] accepts, [buildParseTree] (given a stack
    at least as deep as the input is long) returns a tree, not [null]; the
    tree has no bare node, its root is the start symbol and its leaves
    spell the token sequence from left to right. *)
Theorem buildParseTree_of_accepted (G : Grammar) (w : list jsstring)
  (r : CykResult) (depth : nat) :
  cykWithPointers w G = Ok r -> accepted r = true -> length w <= depth ->
  exists t,
    buildParseTree depth G w (back r) = Ok (Some t) /\
    noBare t = true /\ leaves t = w /\ rootLabel t = startSymbol G.
Proof.
  intros E Hacc Hd. destruct w as [|t0 w].
  - injection E as <-. discriminate.
  - destruct (cykWithPointersTraced_spec G (t0 :: w))
      as (r0 & acc & E0 & HI & _ & Hmem); [discriminate|].
    rewrite (cykWithPointers_of_traced _ _ _ _ E0) in E. injection E as ->.
    apply Hmem in Hacc.
    destruct (inv_bhas HI _ _ _ Hacc) as (m & l & Em & El).
    destruct (choose_spec _ _ _ HI depth _ _ _ Hacc) as (t & Et & Hn & Hl & Hr).
    + simpl. lia.
    + unfold span. simpl length in *. lia.
    + exists t. unfold buildParseTree. cbn [aux] in Em, Et.
      replace (length (t0 :: w) =? 0) with false by reflexivity.
      rewrite Em. unfold mapHas. rewrite El, Et. simpl.
      rewrite sub_full in Hl by discriminate. auto.
Qed.

Lemma buildParseTree_of_accepted_witness :
  exists r,
    cykWithPointers [js "a"; js "b"] exampleGrammar = Ok r /\
    accepted r = true /\ length [js "a"; js "b"] <= 2 /\
    exists t,
      buildParseTree 2 exampleGrammar [js "a"; js "b"] (back r)
        = Ok (Some t) /\
      noBare t = true /\ leaves t = [js "a"; js "b"] /\
      rootLabel t = startSymbol exampleGrammar.
Proof.
  eexists. split; [vm_compute; reflexivity|].
  split; [reflexivity|]. split; [simpl; lia|].
  apply (buildParseTree_of_accepted exampleGrammar [js "a"; js "b"]);
    [vm_compute; reflexivity | reflexivity | simpl; lia].
Defined.

(** ** The sentence of the Personal Grammar Checker tab *)

(** C9. For the default grammar text of the Personal Grammar Checker and
    the sentence [the cat chased a dog], split into words, the handler
    reports [accepted = true] and the tree [S (NP ..) (VP (V ..) (NP ..))],
    provided the stack allows the four nested calls of [choose]. *)
Theorem pgc_sentence_parse (depth : nat) :
  4 <= depth ->
  exists tbl,
    generatePGC depth pgcGrammarText pgcSentence =
    Ok {| oAccepted := true;
          oTable := tbl;
          oTree := Some
            (Node (js "S")
               (Node (js "NP")
                  (Leaf (js "Det") (js "the")) (Leaf (js "N") (js "cat")))
               (Node (js "VP")
                  (Leaf (js "V") (js "chased"))
                  (Node (js "NP")
                     (Leaf (js "Det") (js "a"))
                     (Leaf (js "N") (js "dog"))))) |}.
Proof.
  intros H. do 4 (destruct depth as [|depth]; [lia|]).
  eexists. vm_compute. reflexivity.
Qed.

Lemma pgc_sentence_parse_witness :
  4 <= 4 /\
  exists tbl,
    generatePGC 4 pgcGrammarText pgcSentence =
    Ok {| oAccepted := true;
          oTable := tbl;
          oTree := Some
            (Node (js "S")
               (Node (js "NP")
                  (Leaf (js "Det") (js "the")) (Leaf (js "N") (js "cat")))
               (Node (js "VP")
                  (Leaf (js "V") (js "chased"))
                  (Node (js "NP")
                     (Leaf (js "Det") (js "a"))
                     (Leaf (js "N") (js "dog"))))) |}.
Proof.
  split; [lia|]. apply (pgc_sentence_parse 4). lia.
Defined.

(** ** Grammar compilation: the start symbol *)

Lemma forEach_preserve {A St X} (f : St -> X) (body : A -> St -> result St)
  (l : list A) :
  (forall x s s', body x s = Ok s' -> f s' = f s) ->
  forall s s', forEach l body s = Ok s' -> f s' = f s.
Proof.
  intros Hb. induction l as [|x l IH]; intros s s' E; simpl in E.
  - injection E as <-. reflexivity.
  - destruct (body x s) as [s1|] eqn:E1; simpl in E; [|discriminate].
    rewrite (IH _ _ E). eauto.
Qed.

Lemma addProduction_start left prod st st' :
  addProduction left prod st = Ok st' -> psStart st' = psStart st.
Proof.
  unfold addProduction, pushRule, bind. intros E.
  repeat match type of E with
         | context [match ?x with _ => _ end] =>
             destruct x eqn:?; simpl in E; try discriminate
         end;
    injection E as <-; reflexivity.
Qed.

Lemma compileLine_start idx line st st' :
  compileLine idx line st = Ok st' ->
  psStart st' =
  if negb (splitterOf line =? -1)%Z && (idx =? 0)
     && nonEmpty (leftOf line (splitterOf line))
  then leftOf line (splitterOf line) else psStart st.
Proof.
  unfold compileLine. cbv zeta.
  destruct (splitterOf line =? -1)%Z; simpl.
  - intros E. injection E as <-. reflexivity.
  - intros E. apply (forEach_preserve psStart) in E.
    + rewrite E. reflexivity.
    + intros x s s'. apply addProduction_start.
Qed.

Lemma forEachIdx_start from lines st st' :
  1 <= from -> forEachIdx from lines compileLine st = Ok st' ->
  psStart st' = psStart st.
Proof.
  revert from st; induction lines as [|line lines IH]; intros from st Hf E;
    simpl in E.
  - injection E as <-. reflexivity.
  - destruct (compileLine from line st) as [s1|] eqn:E1; simpl in E;
      [|discriminate].
    rewrite (IH (S from) s1) by (auto; lia).
    rewrite (compileLine_start _ _ _ _ E1).
    destruct (Nat.eqb_spec from 0); [lia|].
    rewrite andb_false_r. reflexivity.
Qed.

Lemma mapGet_app_new {V} (m : JsMap V) k v :
  mapGet m k = None -> mapGet (m ++ [(k, v)]) k = Some v.
Proof.
  induction m as [|[k' v'] m IH]; simpl.
  - rewrite streq_refl. reflexivity.
  - destruct (streq k k'); [discriminate | assumption].
Qed.

Lemma mapGet_insertIndexed_new o n k v :
  mapGet o k = None -> mapGet (insertIndexed o n k v) k = Some v.
Proof.
  induction o as [|[k' v'] o IH]; simpl.
  - rewrite streq_refl. reflexivity.
  - destruct (streq k k') eqn:E; [discriminate|]. intros H.
    destruct (arrayIndex k') as [n'|]; [destruct (n <? n')%N|]; simpl;
      rewrite ?streq_refl, ?E; auto.
Qed.

Lemma getProp_setProp_new o k v :
  getProp o k = Undefined -> getProp (setProp o k v) k = Own v.
Proof.
  unfold getProp, setProp, mapHas.
  destruct (mapGet o k) eqn:E; [discriminate|]. intros _.
  destruct (arrayIndex k).
  - rewrite mapGet_insertIndexed_new by assumption. reflexivity.
  - rewrite mapGet_app_new by assumption. reflexivity.
Qed.

Lemma pushRule_own o left arr p :
  getProp o left = Own arr ->
  exists o', pushRule o left p = Ok o' /\
             getProp o' left = Own (arr ++ [p]).
Proof.
  intros H. unfold pushRule. rewrite H. eexists. split; [reflexivity|].
  unfold getProp. rewrite mapGet_mapSet_same. reflexivity.
Qed.

Lemma addProduction_ok left prod st :
  hasArray left st ->
  exists st', addProduction left prod st = Ok st' /\ hasArray left st'.
Proof.
  intros (arr & H). unfold addProduction.
  assert (P : forall p vs ts,
    exists st',
      (r <- pushRule (psRules st) left p ;;
       Ok {| psRules := r; psVariables := vs; psTerminals := ts;
             psStart := psStart st |}) = Ok st' /\ hasArray left st').
  { intros p vs ts. destruct (pushRule_own _ _ _ p H) as (o' & E & H').
    rewrite E. simpl. eexists. split; [reflexivity|].
    exists (arr ++ [p]). exact H'. }
  assert (K : exists st', Ok st = Ok st' /\ hasArray left st')
    by (exists st; split; [reflexivity | exists arr; exact H]).
  destruct (quotedMatch (trim prod)); [apply P|].
  destruct (filter nonEmpty (splitWs (trim prod))) as [|x [|y [|z l]]];
    auto.
  destruct (isLowerLetter x); [apply P|].
  destruct (upperPair x) as [[B C]|]; apply P.
Qed.

Lemma compileLine_ok idx line st :
  (splitterOf line =? -1)%Z
  || negb (setHas objectPrototypeKeys (leftOf line (splitterOf line)))
  = true ->
  exists st', compileLine idx line st = Ok st'.
Proof.
  intros H. unfold compileLine. cbv zeta.
  destruct (splitterOf line =? -1)%Z; [eauto|]. cbn [orb] in H.
  apply negb_true_iff in H.
  match goal with
  | |- context [forEach ?l ?f ?s0] =>
      destruct (forEach_each (hasArray (leftOf line (splitterOf line)))
                  (fun _ _ => True) (fun _ _ => True) f l s0)
        as (st' & E & _); auto
  end.
  - intros x s _ Hs. destruct (addProduction_ok _ x _ Hs) as (s' & E & Hs').
    eauto.
  - unfold hasArray. cbn [psRules].
    destruct (getProp (psRules st) _) as [| |arr] eqn:E; [| |eauto].
    + rewrite getProp_setProp_new by assumption. eauto.
    + unfold getProp in E. rewrite H in E.
      destruct (mapGet (psRules st) _); discriminate.
  - eauto.
Qed.

Lemma forEachIdx_ok lines : forall from st,
  forallb (fun line =>
    (splitterOf line =? -1)%Z
    || negb (setHas objectPrototypeKeys (leftOf line (splitterOf line))))
    lines = true ->
  exists st', forEachIdx from lines compileLine st = Ok st'.
Proof.
  induction lines as [|line lines IH]; intros from st H; simpl in *; [eauto|].
  apply andb_true_iff in H. destruct H as [H1 H2].
  destruct (compileLine_ok from line st H1) as (s1 & E1).
  rewrite E1. simpl. apply IH. assumption.
Qed.

(** C3, amended. Whenever the text compiles, the start symbol is the
    left-hand side of the first non-blank line if that line has an arrow
    marker and a non-empty left-hand side, and the default [S] otherwise;
    lines after the first never set it.  The text does compile when no
    left-hand side is the name of an inherited property of the [rules]
    object. *)
Theorem parseGrammarFromText_startSymbol (text : jsstring) :
  (forall g, parseGrammarFromText text = Ok g ->
     startSymbol g = startOfFirstLine text) /\
  (plainLeftSides text = true -> exists g, parseGrammarFromText text = Ok g).
Proof.
  unfold parseGrammarFromText, startOfFirstLine. split.
  - intros g.
    destruct (forEachIdx 0 (linesOf text) compileLine _) as [st|] eqn:E;
      simpl; [|discriminate].
    intros Eg. injection Eg as <-. simpl.
    destruct (linesOf text) as [|line lines]; simpl in E.
    + injection E as <-. reflexivity.
    + destruct (compileLine 0 line _) as [s1|] eqn:E1; simpl in E;
        [|discriminate].
      rewrite (forEachIdx_start _ _ _ _ (le_n 1) E).
      rewrite (compileLine_start _ _ _ _ E1). simpl.
      rewrite andb_true_r. reflexivity.
  - intros H.
    destruct (forEachIdx_ok (linesOf text) 0
                {| psRules := []; psVariables := []; psTerminals := [];
                   psStart := js "S" |} H) as (st & E).
    rewrite E. simpl. eauto.
Qed.

Lemma parseGrammarFromText_startSymbol_witness :
  plainLeftSides simGrammarText = true /\
  exists g,
    parseGrammarFromText simGrammarText = Ok g /\
    startSymbol g = startOfFirstLine simGrammarText.
Proof.
  split; [reflexivity|].
  destruct (parseGrammarFromText_startSymbol simGrammarText) as [H1 H2].
  destruct (H2 eq_refl) as (g & Eg).
  exists g. split; [exact Eg | apply H1; exact Eg].
Defined.

(** A left-hand side that names an inherited property makes the compiler
    throw, as the inherited value has no [push]. *)
Example parseGrammarFromText_inherited_key :
  parseGrammarFromText (js "toString -> a") = Throw TypeError.
Proof. reflexivity. Qed.

(** C3 as stated fails: the first line with an arrow marker is the second
    line, its left-hand side is [A], and the start symbol stays [S]. *)
Lemma startSymbol_first_arrow_line_counterexample :
  exists g line,
    parseGrammarFromText (js "x" ++ [LF] ++ js "A -> a") = Ok g /\
    firstArrowLine (js "x" ++ [LF] ++ js "A -> a") = Some line /\
    leftOf line (splitterOf line) = js "A" /\
    startSymbol g = js "S" /\
    startSymbol g <> leftOf line (splitterOf line).
Proof.
  eexists. eexists. split; [vm_compute; reflexivity|].
  split; [vm_compute; reflexivity|].
  split; [vm_compute; reflexivity|].
  split; [vm_compute; reflexivity|].
  vm_compute. discriminate.
Qed.

(** ** Grammar compilation: cutting a line at the arrow *)

Lemma startsWith_iff p s :
  startsWith p s = true <-> exists post, s = p ++ post.
Proof.
  revert s; induction p as [|x p IH]; intros s; simpl.
  - split; eauto.
  - destruct s as [|y s].
    + split; [discriminate | intros (post & E); discriminate].
    + rewrite andb_true_iff, N.eqb_eq, IH. split.
      * intros [-> (post & ->)]. eauto.
      * intros (post & E). injection E as -> ->. eauto.
Qed.

Lemma indexOfFrom_absent pos p s :
  ~ contains p s -> indexOfFrom pos p s = (-1)%Z.
Proof.
  revert pos; induction s as [|c s IH]; intros pos Hn; simpl;
    (destruct (startsWith p _) eqn:E;
     [apply startsWith_iff in E; destruct E as (post & E);
      exfalso; apply Hn; exists [], post; exact E|]); [reflexivity|].
  apply IH. intros (pre & post & ->). apply Hn. exists (c :: pre), post.
  reflexivity.
Qed.

Lemma indexOfFrom_first p pre : forall pos post,
  firstAt p pre post (pre ++ p ++ post) ->
  indexOfFrom pos p (pre ++ p ++ post) = (pos + Z.of_nat (length pre))%Z.
Proof.
  induction pre as [|c pre IH]; intros pos post [_ Hmin].
  - simpl app. assert (E : startsWith p (p ++ post) = true)
      by (apply startsWith_iff; eauto).
    destruct (p ++ post); simpl in *; rewrite E; lia.
  - simpl app. simpl indexOfFrom.
    destruct (startsWith p (c :: pre ++ p ++ post)) eqn:E.
    + apply startsWith_iff in E. destruct E as (post' & E).
      specialize (Hmin [] post' E). simpl in Hmin. lia.
    + rewrite IH.
      * simpl length. lia.
      * split; [reflexivity|]. intros pre' post' E'.
        specialize (Hmin (c :: pre') post'). simpl in Hmin.
        rewrite E' in Hmin. specialize (Hmin eq_refl). lia.
Qed.

Lemma indexOf_first p pre post line :
  firstAt p pre post line -> indexOf line p = Z.of_nat (length pre).
Proof.
  intros H. pose proof H as [-> _]. unfold indexOf.
  rewrite indexOfFrom_first by assumption. lia.
Qed.

Lemma indexOfFrom_range pos p s :
  indexOfFrom pos p s = (-1)%Z \/ (pos <= indexOfFrom pos p s)%Z.
Proof.
  revert pos; induction s as [|c s IH]; intros pos; simpl;
    destruct (startsWith p _); try (right; lia); auto.
  destruct (IH (pos + 1)%Z); [auto | right; lia].
Qed.

(** The two predicates can be decided by running [indexOf]. *)
Lemma indexOfFrom_contains pos p s :
  (0 <= pos)%Z -> indexOfFrom pos p s = (-1)%Z -> ~ contains p s.
Proof.
  revert pos; induction s as [|c s IH]; intros pos Hpos E (pre & post & Es);
    simpl in E; destruct (startsWith p _) eqn:Esw; try lia.
  - destruct pre; [|discriminate]. simpl in Es.
    assert (startsWith p [] = true) by (apply startsWith_iff; eauto).
    congruence.
  - destruct pre as [|c' pre].
    + assert (startsWith p (c :: s) = true) by (apply startsWith_iff; eauto).
      congruence.
    + injection Es as _ Es. apply (IH (pos + 1)%Z); [lia | assumption|].
      exists pre, post. assumption.
Qed.

Lemma indexOf_contains p s : indexOf s p = (-1)%Z -> ~ contains p s.
Proof. apply indexOfFrom_contains. lia. Qed.

Lemma indexOfFrom_firstAt p s : forall pos k,
  (0 <= pos)%Z -> indexOfFrom pos p s = (pos + Z.of_nat k)%Z ->
  firstAt p (firstn k s) (skipn (k + length p) s) s.
Proof.
  induction s as [|c s IH]; intros pos k Hpos E; simpl in E;
    destruct (startsWith p _) eqn:Esw; try lia.
  - assert (k = 0) by lia. subst k.
    apply startsWith_iff in Esw. destruct Esw as (post & Es).
    split; [|simpl; lia]. simpl. rewrite Es at 1.
    rewrite Es, skipn_app, skipn_all, Nat.sub_diag. reflexivity.
  - assert (k = 0) by lia. subst k.
    apply startsWith_iff in Esw. destruct Esw as (post & Es).
    split; [|simpl; lia]. simpl firstn. simpl "++". rewrite Es at 1.
    simpl Nat.add. rewrite Es, skipn_app, skipn_all, Nat.sub_diag.
    reflexivity.
  - destruct k as [|k].
    { destruct (indexOfFrom_range (pos + 1) p s); lia. }
    destruct (IH (pos + 1)%Z k) as [Es Hmin]; [lia | lia |].
    split.
    + simpl. rewrite <- Es. reflexivity.
    + intros pre' post' E'. destruct pre' as [|c' pre'].
      * assert (startsWith p (c :: s) = true)
          by (apply startsWith_iff; eauto).
        congruence.
      * injection E' as _ E'. specialize (Hmin _ _ E'). simpl. lia.
Qed.

Lemma indexOf_firstAt p s k :
  indexOf s p = Z.of_nat k ->
  firstAt p (firstn k s) (skipn (k + length p) s) s.
Proof. intros E. apply (indexOfFrom_firstAt p s 0 k); [lia | exact E]. Qed.

Lemma splitterOf_ascii line pre post :
  firstAt (js "->") pre post line -> splitterOf line = Z.of_nat (length pre).
Proof.
  intros H. unfold splitterOf. cbv zeta. rewrite (indexOf_first _ _ _ _ H).
  assert (E : (Z.of_nat (length pre) =? -1)%Z = false)
    by (apply Z.eqb_neq; lia).
  rewrite !E. reflexivity.
Qed.

Lemma splitterOf_unicode line pre post :
  ~ contains (js "->") line -> firstAt [RIGHT_ARROW] pre post line ->
  splitterOf line = Z.of_nat (length pre).
Proof.
  intros Hn H.
  assert (E0 : indexOf line (js "->") = (-1)%Z)
    by (apply indexOfFrom_absent; assumption).
  assert (E : (Z.of_nat (length pre) =? -1)%Z = false)
    by (apply Z.eqb_neq; lia).
  unfold splitterOf. cbv zeta.
  rewrite !E0, Z.eqb_refl, (indexOf_first _ _ _ _ H), !E. reflexivity.
Qed.

Lemma splitterOf_none line :
  ~ contains (js "->") line -> ~ contains [RIGHT_ARROW] line ->
  splitterOf line = (-1)%Z.
Proof.
  intros H1 H2. unfold splitterOf, indexOf.
  rewrite !indexOfFrom_absent by assumption. reflexivity.
Qed.

Lemma slice_prefix pre rest :
  slice (pre ++ rest) 0 (Z.of_nat (length pre)) = pre.
Proof.
  unfold slice, sliceIndex. simpl.
  destruct (Z.ltb_spec (Z.of_nat (length pre)) 0); [lia|].
  rewrite Nat2Z.id, length_app, Nat.min_l, Nat.sub_0_r by lia.
  rewrite firstn_app, Nat.sub_diag, firstn_all. simpl.
  apply app_nil_r.
Qed.

Lemma sliceFrom_suffix pre a b post :
  sliceFrom (pre ++ [a; b] ++ post) (Z.of_nat (length pre) + 2) = post.
Proof.
  unfold sliceFrom, sliceIndex.
  destruct (Z.ltb_spec (Z.of_nat (length pre) + 2) 0); [lia|].
  rewrite !length_app. simpl length.
  rewrite Nat.min_l by lia.
  replace (Z.to_nat (Z.of_nat (length pre) + 2)) with (length pre + 2) by lia.
  rewrite skipn_app, skipn_all2 by lia.
  replace (length pre + 2 - length pre) with 2 by lia. reflexivity.
Qed.

Lemma stripWhite_trimStart s : stripWhite (trimStart s) = stripWhite s.
Proof.
  induction s as [|c s IH]; simpl; [reflexivity|].
  destruct (isWhite c) eqn:E; simpl; rewrite ?E; auto.
Qed.

Lemma stripWhite_rev s : stripWhite (rev s) = rev (stripWhite s).
Proof.
  unfold stripWhite. induction s as [|c s IH]; simpl; [reflexivity|].
  rewrite filter_app, IH. simpl. destruct (negb (isWhite c)); simpl;
    [reflexivity | apply app_nil_r].
Qed.

Lemma stripWhite_trim s : stripWhite (trim s) = stripWhite s.
Proof.
  unfold trim, trimEnd.
  rewrite stripWhite_rev, stripWhite_trimStart, stripWhite_rev,
    rev_involutive.
  apply stripWhite_trimStart.
Qed.

Lemma splitChar_nonempty sep cur s : splitChar sep cur s <> [].
Proof.
  revert cur; induction s as [|c s IH]; intros cur; simpl; [discriminate|].
  destruct (c =? sep)%N; [discriminate | apply IH].
Qed.

Lemma join1_cons sep p rest :
  rest <> [] -> join1 sep (p :: rest) = p ++ sep :: join1 sep rest.
Proof. destruct rest; [congruence | reflexivity]. Qed.

Lemma splitChar_join sep s : forall cur,
  join1 sep (splitChar sep cur s) = rev cur ++ s.
Proof.
  induction s as [|c s IH]; intros cur; simpl.
  - symmetry. apply app_nil_r.
  - destruct (N.eqb_spec c sep) as [-> | Hne].
    + rewrite join1_cons by apply splitChar_nonempty.
      rewrite IH. reflexivity.
    + rewrite IH. simpl. rewrite <- app_assoc. reflexivity.
Qed.

Lemma splitChar_pieces sep s : forall cur,
  ~ In sep cur -> Forall (fun p => ~ In sep p) (splitChar sep cur s).
Proof.
  induction s as [|c s IH]; intros cur Hc; simpl.
  - constructor; [|constructor]. rewrite <- in_rev. assumption.
  - destruct (N.eqb_spec c sep) as [-> | Hne].
    + constructor; [rewrite <- in_rev; assumption | apply IH; simpl; tauto].
    + apply IH. simpl. intros [E | H]; [congruence | tauto].
Qed.

(** C4, amended. A line with no arrow marker is skipped without error.  A
    line with an ASCII arrow is cut at the first ASCII arrow: the left-hand
    side is what precedes it, white space removed, and the right-hand side
    is what follows it, trimmed, whose alternatives are its pieces between
    bars.  A line with only Unicode arrows has as left-hand side what
    precedes the first of them, white space removed. *)
Theorem compileLine_cuts_at_arrow (idx : nat) (line : jsstring)
  (st : ParseState) :
  (~ contains (js "->") line -> ~ contains [RIGHT_ARROW] line ->
   compileLine idx line st = Ok st) /\
  (forall pre post, firstAt (js "->") pre post line ->
     leftOf line (splitterOf line) = stripWhite pre /\
     rightOf line (splitterOf line) = trim post /\
     join1 BAR (split1 (rightOf line (splitterOf line)) BAR) = trim post /\
     Forall (fun p => ~ In BAR p)
       (split1 (rightOf line (splitterOf line)) BAR)) /\
  (forall pre post, ~ contains (js "->") line ->
     firstAt [RIGHT_ARROW] pre post line ->
     leftOf line (splitterOf line) = stripWhite pre).
Proof.
  splits.
  - intros H1 H2. unfold compileLine. cbv zeta.
    rewrite (splitterOf_none _ H1 H2). reflexivity.
  - intros pre post H. rewrite (splitterOf_ascii _ _ _ H).
    destruct H as [-> _]. unfold leftOf, rightOf.
    rewrite slice_prefix, stripWhite_trim.
    change (js "->") with [45%N; 62%N]. rewrite sliceFrom_suffix.
    unfold split1. rewrite splitChar_join. simpl.
    splits; auto. apply splitChar_pieces. simpl. tauto.
  - intros pre post Hn H. rewrite (splitterOf_unicode _ _ _ Hn H).
    destruct H as [-> _]. unfold leftOf.
    rewrite slice_prefix. apply stripWhite_trim.
Qed.

Lemma compileLine_cuts_at_arrow_witness :
  (* a line without marker *)
  (~ contains (js "->") (js "x") /\ ~ contains [RIGHT_ARROW] (js "x") /\
   compileLine 0 (js "x")
     {| psRules := []; psVariables := []; psTerminals := [];
        psStart := js "S" |} =
   Ok {| psRules := []; psVariables := []; psTerminals := [];
         psStart := js "S" |}) /\
  (* a line with an ASCII arrow *)
  (firstAt (js "->") (js "S ") (js " AB | BC") (js "S -> AB | BC") /\
   leftOf (js "S -> AB | BC") (splitterOf (js "S -> AB | BC")) = js "S" /\
   rightOf (js "S -> AB | BC") (splitterOf (js "S -> AB | BC"))
     = js "AB | BC") /\
  (* a line with a Unicode arrow *)
  (~ contains (js "->") (js "S " ++ [RIGHT_ARROW] ++ js " AB") /\
   firstAt [RIGHT_ARROW] (js "S ") (js " AB")
     (js "S " ++ [RIGHT_ARROW] ++ js " AB") /\
   leftOf (js "S " ++ [RIGHT_ARROW] ++ js " AB")
     (splitterOf (js "S " ++ [RIGHT_ARROW] ++ js " AB")) = js "S").
Proof.
  splits.
  - apply indexOf_contains. reflexivity.
  - apply indexOf_contains. reflexivity.
  - apply (compileLine_cuts_at_arrow 0 (js "x"));
      apply indexOf_contains; reflexivity.
  - apply (indexOf_firstAt (js "->") (js "S -> AB | BC") 2). reflexivity.
  - apply (proj1 (proj2 (compileLine_cuts_at_arrow 0 (js "S -> AB | BC")
             {| psRules := []; psVariables := []; psTerminals := [];
                psStart := js "S" |})) (js "S ") (js " AB | BC")).
    apply (indexOf_firstAt (js "->") (js "S -> AB | BC") 2). reflexivity.
  - apply (proj1 (proj2 (compileLine_cuts_at_arrow 0 (js "S -> AB | BC")
             {| psRules := []; psVariables := []; psTerminals := [];
                psStart := js "S" |})) (js "S ") (js " AB | BC")).
    apply (indexOf_firstAt (js "->") (js "S -> AB | BC") 2). reflexivity.
  - apply indexOf_contains. reflexivity.
  - apply (indexOf_firstAt [RIGHT_ARROW]
             (js "S " ++ [RIGHT_ARROW] ++ js " AB") 2).
    reflexivity.
  - apply (proj2 (proj2 (compileLine_cuts_at_arrow 0
             (js "S " ++ [RIGHT_ARROW] ++ js " AB")
             {| psRules := []; psVariables := []; psTerminals := [];
                psStart := js "S" |})) (js "S ") (js " AB")).
    + apply indexOf_contains. reflexivity.
    + apply (indexOf_firstAt [RIGHT_ARROW]
               (js "S " ++ [RIGHT_ARROW] ++ js " AB") 2).
      reflexivity.
Defined.

(** C4 as stated fails: in this line the first arrow marker is the Unicode
    arrow, before which stands [A], yet the line is cut at the ASCII arrow
    further right. *)
Lemma first_marker_counterexample :
  firstAt [RIGHT_ARROW] (js "A ") (js " b -> c")
    (js "A " ++ [RIGHT_ARROW] ++ js " b -> c") /\
  firstAt (js "->") (js "A " ++ [RIGHT_ARROW] ++ js " b ") (js " c")
    (js "A " ++ [RIGHT_ARROW] ++ js " b -> c") /\
  leftOf (js "A " ++ [RIGHT_ARROW] ++ js " b -> c")
    (splitterOf (js "A " ++ [RIGHT_ARROW] ++ js " b -> c"))
    = js "A" ++ [RIGHT_ARROW] ++ js "b" /\
  leftOf (js "A " ++ [RIGHT_ARROW] ++ js " b -> c")
    (splitterOf (js "A " ++ [RIGHT_ARROW] ++ js " b -> c"))
    <> stripWhite (js "A ").
Proof.
  splits.
  - apply (indexOf_firstAt [RIGHT_ARROW]
             (js "A " ++ [RIGHT_ARROW] ++ js " b -> c") 2).
    reflexivity.
  - apply (indexOf_firstAt (js "->")
             (js "A " ++ [RIGHT_ARROW] ++ js " b -> c") 6).
    reflexivity.
  - reflexivity.
  - vm_compute. discriminate.
Qed.

(** After a Unicode arrow the code skips two code units although the
    marker has one: the first character of the right-hand side is lost
    when no space follows the arrow. *)
Example unicode_arrow_right_hand_side :
  rightOf (js "S" ++ [RIGHT_ARROW] ++ js "AB")
    (splitterOf (js "S" ++ [RIGHT_ARROW] ++ js "AB")) = js "B" /\
  parseGrammarFromText (js "S" ++ [RIGHT_ARROW] ++ js "AB") =
  Ok {| variables := [js "S"; js "B"]; terminals := [];
        startSymbol := js "S"; rules := [(js "S", [[js "B"]])] |}.
Proof. split; reflexivity. Qed.

(** ** Tokenizers *)

Lemma includes_char s c : includes s [c] = true <-> In c s.
Proof.
  unfold includes, indexOf.
  assert (H : forall pos, (0 <= pos)%Z ->
            (indexOfFrom pos [c] s = (-1)%Z <-> ~ In c s)).
  { induction s as [|x s IH]; intros pos Hpos; simpl; [tauto|].
    destruct (N.eqb_spec c x) as [-> | Hne]; simpl.
    - split; [lia | tauto].
    - rewrite IH by lia. intuition congruence. }
  specialize (H 0%Z (Z.le_refl 0)).
  destruct (Z.eqb_spec (indexOfFrom 0 [c] s) (-1)) as [E | E]; simpl.
  - split; [discriminate | tauto].
  - split; [|reflexivity]. intros _.
    destruct (in_dec N.eq_dec c s); tauto.
Qed.

Lemma Words_white_cons c s ws :
  isWhite c = true -> Words s ws -> Words (c :: s) ws.
Proof.
  intros Hc H. destruct H as [gap Hg | gap w rest ws Hg Hw Hn Hr H].
  - constructor. simpl. rewrite Hc. assumption.
  - apply (Words_more (c :: gap)); auto. simpl. rewrite Hc. assumption.
Qed.

Lemma Words_white_app g s ws :
  allWhite g = true -> Words s ws -> Words (g ++ s) ws.
Proof.
  induction g as [|c g IH]; simpl; [auto|].
  rewrite andb_true_iff. intros [Hc Hg] H.
  apply Words_white_cons; auto.
Qed.

Lemma Words_app_white s ws g :
  Words s ws -> allWhite g = true -> Words (s ++ g) ws.
Proof.
  intros H Hg. induction H as [gap Hgap | gap w rest ws Hgap Hw Hn Hr H IH].
  - constructor. unfold allWhite in *. rewrite forallb_app, Hgap, Hg.
    reflexivity.
  - rewrite <- !app_assoc. apply Words_more; auto.
    destruct Hr as [-> | (c & rest' & -> & Hc)].
    + destruct g as [|c g]; [auto|]. right. exists c, g.
      simpl in Hg. apply andb_true_iff in Hg. tauto.
    + right. exists c, (rest' ++ g). auto.
Qed.

Lemma noWhite_rev s : noWhite (rev s) = noWhite s.
Proof.
  unfold noWhite. induction s as [|c s IH]; simpl; [reflexivity|].
  rewrite forallb_app, IH. simpl. rewrite andb_true_r. apply andb_comm.
Qed.

Lemma allWhite_rev s : allWhite (rev s) = allWhite s.
Proof.
  unfold allWhite. induction s as [|c s IH]; simpl; [reflexivity|].
  rewrite forallb_app, IH. simpl. rewrite andb_true_r. apply andb_comm.
Qed.

Lemma endsClean_cons c s :
  s <> [] -> endsClean (c :: s) = endsClean s.
Proof. destruct s; [congruence | reflexivity]. Qed.

Lemma endsClean_snoc p c : endsClean (p ++ [c]) = negb (isWhite c).
Proof.
  induction p as [|x p IH]; [reflexivity|].
  simpl app. rewrite endsClean_cons; [assumption|].
  destruct p; discriminate.
Qed.

(** The pieces of a string that neither starts (unless [cur] is pending)
    nor ends with white space are its words. *)
Lemma splitWsFrom_Words s :
  endsClean s = true ->
  (forall cur, noWhite cur = true -> cur <> [] \/ startsClean s ->
     Words (rev cur ++ s) (splitWsFrom false cur s)) /\
  (s <> [] -> Words s (splitWsFrom true [] s)).
Proof.
  induction s as [|c s IH]; intros Hend.
  - split; [|congruence]. intros cur Hcur [Hne | []]. simpl.
    apply (Words_more [] (rev cur) [] []); auto.
    + intros E. apply Hne. rewrite <- (rev_involutive cur), E. reflexivity.
    + rewrite noWhite_rev. assumption.
    + constructor. reflexivity.
  - destruct (isWhite c) eqn:Hc.
    + assert (Hs : s <> []) by (intros ->; simpl in Hend; rewrite Hc in Hend;
                                discriminate).
      rewrite endsClean_cons in Hend by assumption.
      destruct (IH Hend) as [_ IH2]. specialize (IH2 Hs).
      split.
      * intros cur Hcur [Hne | Hst]; [|simpl in Hst; congruence].
        simpl. rewrite Hc.
        apply (Words_more [] (rev cur) (c :: s)); auto.
        -- intros E. apply Hne. rewrite <- (rev_involutive cur), E.
           reflexivity.
        -- rewrite noWhite_rev. assumption.
        -- right. eauto.
        -- apply Words_white_cons; assumption.
      * intros _. simpl. rewrite Hc. apply Words_white_cons; assumption.
    + assert (Hend' : endsClean s = true).
      { destruct s; [reflexivity|]. rewrite endsClean_cons in Hend;
          [assumption | discriminate]. }
      destruct (IH Hend') as [IH1 _].
      assert (Hnw : forall cur, noWhite cur = true ->
                noWhite (c :: cur) = true)
        by (intros cur H; simpl; rewrite Hc, H; reflexivity).
      split.
      * intros cur Hcur _. simpl. rewrite Hc.
        replace (rev cur ++ c :: s) with (rev (c :: cur) ++ s)
          by (simpl; rewrite <- app_assoc; reflexivity).
        apply IH1; [auto | left; discriminate].
      * intros _. simpl. rewrite Hc.
        apply (IH1 [c]); [apply (Hnw []); reflexivity | left; discriminate].
Qed.

Lemma trimStart_split s :
  exists g, s = g ++ trimStart s /\ allWhite g = true /\
            (trimStart s = [] \/ startsClean (trimStart s)).
Proof.
  induction s as [|c s (g & E & Hg & H)]; simpl.
  - exists []. auto.
  - destruct (isWhite c) eqn:Hc.
    + exists (c :: g). simpl. rewrite Hc, Hg. splits; auto. congruence.
    + exists []. splits; auto.
Qed.

Lemma trimEnd_split s :
  exists g, s = trimEnd s ++ g /\ allWhite g = true /\
            endsClean (trimEnd s) = true.
Proof.
  unfold trimEnd. destruct (trimStart_split (rev s)) as (g & E & Hg & H).
  exists (rev g). splits.
  - rewrite <- rev_app_distr, <- E, rev_involutive. reflexivity.
  - rewrite allWhite_rev. assumption.
  - destruct (trimStart (rev s)) as [|c t]; [reflexivity|].
    destruct H as [H | H]; [discriminate|]. simpl in H.
    simpl rev. rewrite endsClean_snoc, H. reflexivity.
Qed.

Lemma splitWs_trim_Words s : trim s <> [] -> Words s (splitWs (trim s)).
Proof.
  intros Hne. unfold trim in *.
  destruct (trimStart_split s) as (g1 & E1 & Hg1 & H1).
  destruct (trimEnd_split (trimStart s)) as (g2 & E2 & Hg2 & H2).
  set (t := trimEnd (trimStart s)) in *.
  assert (Hst : startsClean t).
  { destruct H1 as [H1 | H1].
    - rewrite H1 in E2. destruct t; [congruence | discriminate].
    - rewrite E2 in H1. destruct t; [congruence | exact H1]. }
  rewrite E1 at 1. rewrite E2.
  apply Words_white_app; [assumption|].
  apply Words_app_white; [|assumption].
  apply (proj1 (splitWsFrom_Words t H2) []); auto.
Qed.

(** C5, amended. The Simulator tokenizer yields the words of the input
    when the input contains a space character and is not blank, and the
    characters of the trimmed input when it contains no space character
    (the empty sequence for the empty input); the Personal Grammar Checker
    tokenizer yields the words of every input that is not blank. *)
Theorem tokenizers_words_or_characters (s : jsstring) :
  (In SPACE s -> trim s <> [] -> Words s (tokenizeSimulator s)) /\
  (~ In SPACE s -> tokenizeSimulator s = chars (trim s)) /\
  (s = [] -> tokenizeSimulator s = []) /\
  (trim s <> [] -> Words s (tokenizePGC s)).
Proof.
  unfold tokenizeSimulator, tokenizePGC. splits.
  - intros Hin Hne. apply includes_char in Hin. rewrite Hin.
    apply splitWs_trim_Words. assumption.
  - intros Hn. destruct (includes s [SPACE]) eqn:E; [|reflexivity].
    apply includes_char in E. tauto.
  - intros ->. reflexivity.
  - apply splitWs_trim_Words.
Qed.

Lemma tokenizers_words_or_characters_witness :
  (In SPACE (js "the cat") /\ trim (js "the cat") <> [] /\
   Words (js "the cat") (tokenizeSimulator (js "the cat"))) /\
  (~ In SPACE (js "ab") /\ tokenizeSimulator (js "ab") = chars (trim (js "ab")))
  /\
  (trim (js " a dog ") <> [] /\
   Words (js " a dog ") (tokenizePGC (js " a dog "))) /\
  tokenizeSimulator [] = [].
Proof.
  splits.
  8: apply (proj1 (proj2 (proj2 (tokenizers_words_or_characters []))));
       reflexivity.
  - apply includes_char. reflexivity.
  - vm_compute. discriminate.
  - apply (proj1 (tokenizers_words_or_characters (js "the cat"))).
    + apply includes_char. reflexivity.
    + vm_compute. discriminate.
  - intros H. apply includes_char in H. discriminate.
  - apply (proj1 (proj2 (tokenizers_words_or_characters (js "ab")))).
    intros H. apply includes_char in H. discriminate.
  - vm_compute. discriminate.
  - apply (proj2 (proj2 (proj2
             (tokenizers_words_or_characters (js " a dog "))))).
    vm_compute. discriminate.
Defined.

(** C5 as stated fails: this input contains white space (a TAB) and its
    words are [a] and [b], yet the Simulator tokenizer yields its three
    characters. *)
Lemma tokenizeSimulator_tab_counterexample :
  isWhite 9 = true /\ In 9%N [97; 9; 98]%N /\
  Words [97; 9; 98]%N [[97]; [98]]%N /\
  tokenizeSimulator [97; 9; 98]%N = [[97]; [9]; [98]]%N /\
  ~ Words [97; 9; 98]%N (tokenizeSimulator [97; 9; 98]%N).
Proof.
  splits.
  - reflexivity.
  - simpl. auto.
  - apply (Words_more [] [97%N] [9%N; 98%N] [[98%N]]);
      try reflexivity; try discriminate.
    + right. exists 9%N, [98%N]. split; reflexivity.
    + apply (Words_more [9%N] [98%N] [] []);
        try reflexivity; try discriminate; auto.
      constructor. reflexivity.
  - reflexivity.
  - change (tokenizeSimulator [97; 9; 98]%N) with [[97]; [9]; [98]]%N.
    intros H. inversion H; subst.
    match goal with
    | H1 : Words _ ([9%N] :: _) |- _ => inversion H1; subst
    end.
    match goal with
    | Hn : noWhite [9%N] = true |- _ => discriminate Hn
    end.
Qed.

(** ** The scenarios of the two tabs *)

(** The example grammar accepts [ab] and rejects [aa]. *)
Example exampleGrammar_ab :
  exists r,
    cykWithPointers (chars (js "ab")) exampleGrammar = Ok r /\
    accepted r = true /\ cell (table r) 0 1 = Some [js "S"] /\
    buildParseTree 2 exampleGrammar (chars (js "ab")) (back r) =
    Ok (Some (Node (js "S") (Leaf (js "A") (js "a")) (Leaf (js "B") (js "b")))).
Proof. eexists. splits; vm_compute; reflexivity. Qed.

Example exampleGrammar_aa :
  exists r,
    cykWithPointers (chars (js "aa")) exampleGrammar = Ok r /\
    accepted r = false.
Proof. eexists. splits; vm_compute; reflexivity. Qed.

(** The Simulator tab with its initial grammar and word accepts. *)
Example simulator_ababa :
  exists tbl tree,
    generateSimulator 5 simGrammarText simWord =
    Ok {| oAccepted := true; oTable := tbl; oTree := Some tree |}.
Proof. eexists. eexists. vm_compute. reflexivity. Qed.

(** * Further properties of the recognizer *)

(** ** The records of the back table name productions *)

Lemma forEach_keeps {A St} (P : St -> Prop) (body : A -> St -> result St)
  (l : list A) :
  (forall x s s', In x l -> body x s = Ok s' -> P s -> P s') ->
  forall s s', forEach l body s = Ok s' -> P s -> P s'.
Proof.
  induction l as [|x l IH]; intros Hb s s' E HP; simpl in E.
  - injection E as <-. assumption.
  - destruct (body x s) as [s1|] eqn:E1; simpl in E; [|discriminate].
    apply (IH (fun y a b Hy => Hb y a b (or_intror Hy)) s1 s' E).
    apply (Hb x s s1 (or_introl eq_refl) E1 HP).
Qed.

Lemma rulesOf_Ok grammar A prods :
  rulesOf grammar A = Ok prods -> getProp (rules grammar) A = Own prods.
Proof.
  unfold rulesOf. destruct (getProp (rules grammar) A); try discriminate.
  intros E. injection E as <-. reflexivity.
Qed.

Lemma tableHas_frame {X} i j x (st st' : Run X) b :
  tableHas i j x st = Ok (b, st') ->
  tbl st' = tbl st /\ aux st' = aux st /\
  exists c, cell (tbl st) i j = Some c /\ b = setHas c x.
Proof.
  unfold tableHas. destruct (cell (tbl st) i j) as [c|]; [|discriminate].
  intros E. injection E as <- <-. simpl. eauto.
Qed.

Section Records.
Variable grammar : Grammar.

Lemma Justified_frame (st st' : Run BackTable) :
  tbl st' = tbl st -> aux st' = aux st ->
  Justified grammar st -> Justified grammar st'.
Proof. unfold Justified. intros -> ->. auto. Qed.

Lemma push_keeps i j A d (st st' : Run BackTable) :
  (st1 <- tableAdd i j A st ;; backPush i j A d st1) = Ok st' ->
  justifies grammar A d -> Justified grammar st -> Justified grammar st'.
Proof.
  unfold tableAdd.
  destruct (cell (tbl st) i j) as [c|] eqn:Ec; [|discriminate].
  rewrite bind_Ok. unfold backPush. cbn [aux tbl log].
  destruct (cell (aux st) i j) as [m|] eqn:Em; [|discriminate].
  set (m1 := if mapHas m A then m else mapSet m A []).
  assert (Hm1 : forall A' l', mapGet m1 A' = Some l' ->
            mapGet m A' = Some l' \/ (A' = A /\ l' = [])).
  { intros A' l'. unfold m1, mapHas.
    destruct (mapGet m A) eqn:E; [auto|].
    destruct (list_eq_dec N.eq_dec A' A) as [-> | Hne].
    - rewrite mapGet_mapSet_same. intros H. injection H as <-. auto.
    - rewrite mapGet_mapSet_other by assumption. auto. }
  destruct (mapGet m1 A) as [l|] eqn:El; [|discriminate].
  intros E Hd HJ. injection E as <-.
  assert (Hmono : forall i' j' A', mem (tbl st) i' j' A' ->
            mem (setCell (tbl st) i j (setAdd c A)) i' j' A')
    by (intros; apply (mem_add _ _ _ _ _ _ _ _ Ec); auto).
  intros i' j' m' A' l' Hc Hg. cbn [aux tbl] in *.
  destruct (pair_eq_dec i j i' j') as [Eq | Ne].
  - injection Eq as <- <-. rewrite (cell_setCell_same _ _ _ _ _ Em) in Hc.
    injection Hc as <-.
    destruct (list_eq_dec N.eq_dec A' A) as [-> | Hne].
    + rewrite mapGet_mapSet_same in Hg. injection Hg as <-. split.
      * apply (mem_add _ _ _ _ _ _ _ _ Ec). auto.
      * apply Forall_app. split; [|constructor; auto].
        destruct (Hm1 _ _ El) as [H | [_ ->]]; [|constructor].
        apply (HJ _ _ _ _ _ Em H).
    + rewrite mapGet_mapSet_other in Hg by assumption.
      destruct (Hm1 _ _ Hg) as [H | [E _]]; [|congruence].
      destruct (HJ _ _ _ _ _ Em H). auto.
  - rewrite cell_setCell_other in Hc by assumption.
    destruct (HJ _ _ _ _ _ Hc Hg). auto.
Qed.

Lemma diagStep_keeps i tok A prod (st st' : Run BackTable) :
  diagStep i tok A prod st = Ok st' -> hasProduction grammar A prod ->
  Justified grammar st -> Justified grammar st'.
Proof.
  unfold diagStep. intros E Hp HJ.
  destruct prod as [|p0 [|p1 prod]];
    try (injection E as <-; assumption).
  destruct (streq p0 tok) eqn:Es; [|injection E as <-; assumption].
  apply streq_true_iff in Es. subst p0.
  eapply push_keeps; eauto.
Qed.

Lemma pairStep_keeps i j k A prod (st st' : Run BackTable) :
  pairStep i j k A prod st = Ok st' -> hasProduction grammar A prod ->
  Justified grammar st -> Justified grammar st'.
Proof.
  unfold pairStep. intros E Hp HJ.
  destruct prod as [|B [|C [|D prod]]];
    try (injection E as <-; assumption).
  destruct (tableHas i k B st) as [[b st1]|] eqn:E1; [|discriminate].
  rewrite bind_Ok in E.
  destruct (tableHas_frame _ _ _ _ _ _ E1) as (T1 & A1 & _).
  pose proof (Justified_frame _ _ T1 A1 HJ) as J1.
  destruct b; [|injection E as <-; assumption].
  destruct (tableHas (k + 1) j C st1) as [[c st2]|] eqn:E2; [|discriminate].
  rewrite bind_Ok in E.
  destruct (tableHas_frame _ _ _ _ _ _ E2) as (T2 & A2 & _).
  pose proof (Justified_frame _ _ T2 A2 J1) as J2.
  destruct c; [|injection E as <-; assumption].
  eapply push_keeps; eauto.
Qed.

Lemma keys_keep (f : jsstring -> Production -> Run BackTable ->
                     result (Run BackTable)) :
  (forall A prod s s', f A prod s = Ok s' -> hasProduction grammar A prod ->
     Justified grammar s -> Justified grammar s') ->
  forall s s',
    forEach (objectKeys (rules grammar)) (fun A st =>
      prods <- rulesOf grammar A ;; forEach prods (f A) st) s = Ok s' ->
    Justified grammar s -> Justified grammar s'.
Proof.
  intros Hf. apply forEach_keeps. intros A s s' _ E.
  destruct (rulesOf grammar A) as [prods|] eqn:Er; [|discriminate].
  rewrite bind_Ok in E. apply rulesOf_Ok in Er. revert s s' E.
  apply forEach_keeps. intros prod s s' Hin E. apply (Hf _ _ _ _ E).
  exists prods. auto.
Qed.

Lemma cykWithPointersTraced_Justified tokens r acc :
  cykWithPointersTraced tokens grammar = Ok (r, acc) ->
  Justified grammar {| tbl := table r; aux := back r; log := [] |}.
Proof.
  unfold cykWithPointersTraced. cbv zeta.
  destruct (length tokens =? 0).
  - intros E. injection E as <- _. intros i j m A l Hc.
    destruct i; discriminate.
  - rewrite forEachIdx_forEach.
    match goal with
    | |- context [@forEach _ (Run BackTable) ?l ?f ?s0] =>
        destruct (forEach l f s0) as [s1|] eqn:E1; [|discriminate]
    end.
    rewrite bind_Ok.
    match goal with
    | |- context [@forEach _ (Run BackTable) ?l ?f s1] =>
        destruct (forEach l f s1) as [s2|] eqn:E2; [|discriminate]
    end.
    rewrite bind_Ok.
    destruct (tableHas _ _ _ s2) as [[b s3]|] eqn:E3; [|discriminate].
    rewrite bind_Ok. intros E. injection E as <- _.
    destruct (tableHas_frame _ _ _ _ _ _ E3) as (T3 & A3 & _).
    cbn [table back]. apply (Justified_frame s2); auto.
    assert (J1 : Justified grammar s1).
    { refine (forEach_keeps (Justified grammar) _ _ _ _ _ E1 _).
      - intros p a b' _. apply keys_keep. intros A prod.
        apply diagStep_keeps.
      - intros i j m A l Hc. cbn [aux] in Hc.
        rewrite cell_newMatrix in Hc.
        destruct ((i <? length tokens) && (j <? length tokens));
          [|discriminate].
        injection Hc as <-. discriminate. }
    refine (forEach_keeps (Justified grammar) _ _ _ _ _ E2 J1).
    intros len a b' _. apply forEach_keeps. intros i a0 b0 _.
    apply forEach_keeps. intros k a1 b1 _. apply keys_keep.
    intros A prod. apply pairStep_keeps.
Qed.
End Records.


Lemma cykWithPointers_state tokens grammar r :
  tokens <> [] -> cykWithPointers tokens grammar = Ok r ->
  exists acc,
    Inv grammar tokens {| tbl := table r; aux := back r; log := rev acc |} /\
    Justified grammar {| tbl := table r; aux := back r; log := rev acc |}.
Proof.
  intros Hne E.
  destruct (cykWithPointersTraced_spec grammar tokens Hne)
    as (r0 & acc & E0 & HI & _).
  rewrite (cykWithPointers_of_traced _ _ _ _ E0) in E. injection E as ->.
  exists acc. split; [assumption|].
  apply (Justified_frame grammar
           {| tbl := table r; aux := back r; log := [] |}); auto.
  eapply cykWithPointersTraced_Justified; eauto.
Qed.

Section DerivationTrees.
Variable grammar : Grammar.
Variable tokens : list jsstring.
Variable st : Run BackTable.
Hypothesis HI : Inv grammar tokens st.
Hypothesis HJ : Justified grammar st.

Lemma choose_derivation depth : forall i j A t,
  mem (tbl st) i j A -> choose depth (aux st) A i j = Ok t ->
  DerivationTree grammar t /\ rootLabel t = A.
Proof.
  induction depth as [|d IH]; intros i j A t M E; [discriminate|].
  destruct (inv_bhas HI _ _ _ M) as (m & l & Em & El).
  destruct (inv_bvalid HI _ _ _ _ _ Em El) as [Hne Hv].
  destruct (HJ _ _ _ _ _ Em El) as [_ Hj].
  simpl in E. rewrite Em, El in E. destruct l as [|dv l]; [congruence|].
  apply Forall_inv in Hv. apply Forall_inv in Hj.
  destruct dv as [tok | B C k]; simpl in Hv, Hj.
  - injection E as <-. split; [constructor; assumption | reflexivity].
  - destruct Hv as (Hk & MB & MC).
    destruct (choose d (aux st) B i k) as [tl|] eqn:E1; [|discriminate].
    destruct (choose d (aux st) C (k + 1) j) as [tr|] eqn:E2;
      [|discriminate].
    simpl in E. injection E as <-.
    destruct (IH _ _ _ _ MB E1) as [D1 R1].
    destruct (IH _ _ _ _ MC E2) as [D2 R2].
    split; [|reflexivity]. constructor; auto. rewrite R1, R2. assumption.
Qed.
End DerivationTrees.

Lemma returned_tree_root G w r depth t :
  cykWithPointers w G = Ok r ->
  buildParseTree depth G w (back r) = Ok (Some t) ->
  w <> [] /\
  exists acc,
    Inv G w {| tbl := table r; aux := back r; log := rev acc |} /\
    Justified G {| tbl := table r; aux := back r; log := rev acc |} /\
    mem (table r) 0 (length w - 1) (startSymbol G) /\
    choose depth (back r) (startSymbol G) 0 (length w - 1) = Ok t.
Proof.
  intros E B. destruct w as [|t0 w]; [discriminate|].
  split; [discriminate|].
  destruct (cykWithPointers_state (t0 :: w) G r) as (acc & HI & HJ);
    [discriminate | assumption |].
  exists acc. unfold buildParseTree in B.
  replace (length (t0 :: w) =? 0) with false in B by reflexivity.
  destruct (cell (back r) 0 (length (t0 :: w) - 1)) as [m|] eqn:Em;
    [|discriminate].
  unfold mapHas in B.
  destruct (mapGet m (startSymbol G)) as [l|] eqn:El; [|discriminate].
  destruct (HJ _ _ _ _ _ Em El) as [M _].
  destruct (choose depth (back r) _ 0 _) as [t'|] eqn:Ec; [|discriminate].
  simpl in B. injection B as ->. auto.
Qed.

Lemma returned_tree_shape G w r depth t :
  cykWithPointers w G = Ok r ->
  buildParseTree depth G w (back r) = Ok (Some t) ->
  noBare t = true /\ rootLabel t = startSymbol G /\ leaves t = w.
Proof.
  intros E B.
  destruct (returned_tree_root _ _ _ _ _ E B)
    as (Hne & acc & HI & HJ & M & Ec).
  assert (Hn : 0 < length w) by (destruct w; simpl; [congruence | lia]).
  destruct (choose_spec _ _ _ HI (Nat.max depth (length w)) _ _ _ M)
    as (t' & Et & Hb & Hl & Hr).
  - lia.
  - unfold span. lia.
  - cbn [aux] in Et.
    rewrite (choose_more_depth _ _ _ _ _ _ _ Ec) in Et by lia.
    injection Et as <-. rewrite Hl, sub_full by assumption. auto.
Qed.

(** X1. Whatever tree [buildParseTree] returns for the back table of a
    recognition is a derivation tree of the grammar: every leaf applies a
    one-symbol production and every inner node a two-symbol production of
    its label; its root is the start symbol and its leaves are the
    tokens. *)
Theorem buildParseTree_derivation_tree (G : Grammar) (w : list jsstring)
  (r : CykResult) (depth : nat) (t : ParseTree) :
  cykWithPointers w G = Ok r ->
  buildParseTree depth G w (back r) = Ok (Some t) ->
  DerivationTree G t /\ rootLabel t = startSymbol G /\ leaves t = w.
Proof.
  intros E B.
  destruct (returned_tree_root _ _ _ _ _ E B)
    as (Hne & acc & HI & HJ & M & Ec).
  destruct (choose_derivation _ _ _ HI HJ depth _ _ _ _ M Ec) as [D R].
  destruct (returned_tree_shape _ _ _ _ _ E B) as (_ & _ & Hl).
  auto.
Qed.

Lemma buildParseTree_derivation_tree_witness :
  exists r t,
    cykWithPointers (chars (js "ba")) exampleGrammar = Ok r /\
    buildParseTree 2 exampleGrammar (chars (js "ba")) (back r)
      = Ok (Some t) /\
    DerivationTree exampleGrammar t /\
    rootLabel t = startSymbol exampleGrammar /\
    leaves t = chars (js "ba").
Proof.
  eexists. eexists.
  split; [vm_compute; reflexivity|]. split; [vm_compute; reflexivity|].
  eapply (buildParseTree_derivation_tree exampleGrammar (chars (js "ba"))
            _ 2); vm_compute; reflexivity.
Defined.

(** X2. In the result of [cykWithPointers] the back table has an entry
    for a variable in a cell exactly when the variable is in that cell of
    the table, and the entry is then a non-empty list of records. *)
Theorem back_matches_table (G : Grammar) (w : list jsstring)
  (r : CykResult) :
  cykWithPointers w G = Ok r ->
  forall i j A,
    (mem (table r) i j A <->
     exists m, cell (back r) i j = Some m /\ mapHas m A = true) /\
    (forall m l, cell (back r) i j = Some m -> mapGet m A = Some l ->
       l <> []).
Proof.
  intros E i j A. destruct w as [|t0 w].
  - injection E as <-. simpl. split.
    + split; [intros (c & Ec & _) | intros (m & Em & _)];
        destruct i; discriminate.
    + intros m l Em. destruct i; discriminate.
  - destruct (cykWithPointers_state (t0 :: w) G r) as (acc & HI & HJ);
      [discriminate | assumption |].
    split; [split|].
    + intros M. destruct (inv_bhas HI _ _ _ M) as (m & l & Em & El).
      exists m. unfold mapHas. rewrite El. auto.
    + intros (m & Em & Hm). unfold mapHas in Hm.
      destruct (mapGet m A) as [l|] eqn:El; [|discriminate].
      apply (HJ _ _ _ _ _ Em El).
    + intros m l Em El. apply (inv_bvalid HI _ _ _ _ _ Em El).
Qed.

Lemma back_matches_table_witness :
  exists r,
    cykWithPointers (chars (js "ab")) exampleGrammar = Ok r /\
    (mem (table r) 0 1 (js "S") <->
     exists m, cell (back r) 0 1 = Some m /\ mapHas m (js "S") = true).
Proof.
  eexists. split; [vm_compute; reflexivity|].
  apply (back_matches_table exampleGrammar (chars (js "ab"))).
  vm_compute. reflexivity.
Defined.

(** X3. Every record of the back table is well placed: a terminal record
    sits on the diagonal and carries the token of its position and a
    one-symbol production of its variable; a binary record of cell
    [(i, j)] has its split in [i, j), its two symbols in the table cells
    on either side of the split, and names a production of its
    variable. *)
Theorem back_records_valid (G : Grammar) (w : list jsstring)
  (r : CykResult) :
  cykWithPointers w G = Ok r ->
  forall i j m A l d,
    cell (back r) i j = Some m -> mapGet m A = Some l -> In d l ->
    match d with
    | Terminal tok =>
        i = j /\ nth_error w i = Some tok /\ hasProduction G A [tok]
    | Binary B C k =>
        i <= k < j /\ mem (table r) i k B /\ mem (table r) (k + 1) j C /\
        hasProduction G A [B; C]
    end.
Proof.
  intros E i j m A l d Em El Hd. destruct w as [|t0 w].
  - injection E as <-. destruct i; discriminate.
  - destruct (cykWithPointers_state (t0 :: w) G r) as (acc & HI & HJ);
      [discriminate | assumption |].
    destruct (inv_bvalid HI _ _ _ _ _ Em El) as [_ Hv].
    destruct (HJ _ _ _ _ _ Em El) as [_ Hj].
    rewrite Forall_forall in Hv, Hj.
    specialize (Hv d Hd). specialize (Hj d Hd).
    destruct d as [tok | B C k]; simpl in *; tauto.
Qed.

Lemma back_records_valid_witness :
  exists r m l,
    cykWithPointers (chars (js "ab")) exampleGrammar = Ok r /\
    cell (back r) 0 1 = Some m /\ mapGet m (js "S") = Some l /\
    In (Binary (js "A") (js "B") 0) l /\
    (0 <= 0 < 1 /\ mem (table r) 0 0 (js "A") /\
     mem (table r) (0 + 1) 1 (js "B") /\
     hasProduction exampleGrammar (js "S") [js "A"; js "B"]).
Proof.
  eexists. eexists. eexists.
  split; [vm_compute; reflexivity|]. split; [vm_compute; reflexivity|].
  split; [vm_compute; reflexivity|]. split; [left; reflexivity|].
  refine (back_records_valid exampleGrammar (chars (js "ab")) _ _
            0 1 _ (js "S") _ (Binary (js "A") (js "B") 0) _ _ _);
    [vm_compute; reflexivity .. | left; reflexivity].
Defined.

Lemma cykWithPointers_table_witness :
  exists r,
    cykWithPointers (chars (js "ab")) exampleGrammar = Ok r /\
    0 <= 1 < length (chars (js "ab")) /\
    (mem (table r) 0 1 (js "S") <->
     Yield exampleGrammar (js "S") (sub (chars (js "ab")) 0 1)).
Proof.
  eexists. split; [vm_compute; reflexivity|]. split; [simpl; lia|].
  apply (cykWithPointers_table (chars (js "ab")) exampleGrammar);
    [vm_compute; reflexivity | simpl; lia].
Defined.

(** ** What the handlers show *)

Lemma DerivationTree_noBare G t : DerivationTree G t -> noBare t = true.
Proof.
  induction 1 as [A tok H | A l r H Hl IHl Hr IHr]; simpl; [reflexivity|].
  rewrite IHl, IHr. reflexivity.
Qed.

Lemma d3Leaves_toD3Node t :
  noBare t = true -> d3Leaves (toD3Node t) = leaves t.
Proof.
  induction t as [A | A tok | A l IHl r IHr]; simpl; [discriminate|auto|].
  rewrite andb_true_iff. intros [Hl Hr].
  rewrite IHl, IHr, app_nil_r by assumption. reflexivity.
Qed.

(** X4. The export for the tree widget loses nothing: two parse trees
    with the same export are the same tree. *)
Theorem toD3Tree_injective (t1 t2 : option ParseTree) :
  toD3Tree t1 = toD3Tree t2 -> t1 = t2.
Proof.
  assert (H : forall a b, toD3Node a = toD3Node b -> a = b).
  { induction a as [A | A tok | A l IHl r IHr];
      intros [B | B tok' | B l' r'] E; simpl in E; try discriminate.
    - injection E as ->. reflexivity.
    - injection E as -> ->. reflexivity.
    - injection E as -> E2 E3. rewrite (IHl _ E2), (IHr _ E3).
      reflexivity. }
  destruct t1 as [a|], t2 as [b|]; simpl; try discriminate; auto.
  intros E. injection E as E. rewrite (H _ _ E). reflexivity.
Qed.

Lemma toD3Tree_injective_witness :
  toD3Tree (Some (Leaf (js "A") (js "a")))
    = toD3Tree (Some (Leaf (js "A") (js "a"))) /\
  Some (Leaf (js "A") (js "a")) = Some (Leaf (js "A") (js "a")).
Proof.
  split; [reflexivity|].
  apply (toD3Tree_injective (Some (Leaf (js "A") (js "a")))). reflexivity.
Defined.

Lemma draw_keeps t : forall indent lines x,
  In x lines -> In x (draw t indent lines).
Proof.
  induction t as [A | A tok | A l IHl r IHr]; intros indent lines x H;
    simpl.
  - apply in_or_app. auto.
  - apply in_or_app. auto.
  - apply IHr, IHl. apply in_or_app. auto.
Qed.

Lemma draw_length t : forall indent lines,
  noBare t = true ->
  length (draw t indent lines) + 2 = length lines + 5 * length (leaves t).
Proof.
  induction t as [A | A tok | A l IHl r IHr]; intros indent lines H;
    simpl in H; [discriminate | |].
  - simpl. rewrite !length_app. simpl. lia.
  - apply andb_true_iff in H. destruct H as [Hl Hr].
    cbn [draw leaves]. cbv zeta.
    specialize (IHr (indent + 2)
      (draw l (indent + 0)
         (lines ++ [spaces indent ++ A]
                ++ [spaces indent ++ js "/ " ++ [BACKSLASH]])) Hr).
    specialize (IHl (indent + 0)
      (lines ++ [spaces indent ++ A]
             ++ [spaces indent ++ js "/ " ++ [BACKSLASH]]) Hl).
    rewrite !length_app in IHl. cbn [length] in IHl.
    rewrite length_app. lia.
Qed.

Lemma draw_app t : forall indent lines,
  draw t indent lines = lines ++ draw t indent [].
Proof.
  induction t as [A | A tok | A l IHl r IHr]; intros indent lines;
    cbn [draw]; cbv zeta; try reflexivity.
  rewrite IHr, IHl, (IHr _ (draw l _ _)), (IHl _ ([] ++ _)).
  rewrite <- !app_assoc. reflexivity.
Qed.

Lemma draw_first t indent :
  exists rest, draw t indent [] = (spaces indent ++ rootLabel t) :: rest.
Proof.
  destruct t as [A | A tok | A l r]; cbn [draw]; cbv zeta.
  - eexists. reflexivity.
  - eexists. reflexivity.
  - rewrite draw_app, (draw_app l). simpl. eexists. reflexivity.
Qed.

Lemma draw_tokens t : forall indent lines tok,
  In tok (leaves t) ->
  exists k, In (spaces k ++ tok) (draw t indent lines).
Proof.
  induction t as [A | A tok' | A l IHl r IHr]; intros indent lines tok H;
    simpl in H.
  - destruct H.
  - destruct H as [<- | []]. exists indent. simpl.
    apply in_or_app. right. simpl. auto.
  - apply in_app_iff in H. simpl. destruct H as [H | H].
    + destruct (IHl (indent + 0)
        (lines ++ [spaces indent ++ A]
               ++ [spaces indent ++ js "/ " ++ [BACKSLASH]]) tok H)
        as (k & Hk).
      exists k. apply draw_keeps. exact Hk.
    + apply IHr. exact H.
Qed.

Lemma buildParseTree_returns G w r depth :
  cykWithPointers w G = Ok r -> accepted r = true -> length w <= depth ->
  exists t, buildParseTree depth G w (back r) = Ok (Some t).
Proof.
  intros E Hacc Hd. destruct w as [|t0 w].
  - injection E as <-. discriminate.
  - destruct (cykWithPointersTraced_spec G (t0 :: w))
      as (r0 & acc & E0 & HI & _ & Hmem); [discriminate|].
    rewrite (cykWithPointers_of_traced _ _ _ _ E0) in E. injection E as ->.
    apply Hmem in Hacc.
    destruct (inv_bhas HI _ _ _ Hacc) as (m & l & Em & El).
    destruct (choose_spec _ _ _ HI depth _ _ _ Hacc) as (t & Et & _).
    + simpl. lia.
    + unfold span. simpl length in *. lia.
    + exists t. unfold buildParseTree. cbn [aux] in Em, Et.
      replace (length (t0 :: w) =? 0) with false by reflexivity.
      rewrite Em. unfold mapHas. rewrite El, Et. reflexivity.
Qed.

(** X5. A Generate-Table handler whose grammar text compiles never
    raises when the stack is at least as deep as the input is long: it
    reports [accepted] exactly when the start symbol has a derivation tree
    over the tokens, it shows a tree exactly when it reports [accepted],
    and the tree shown is a derivation tree of the grammar whose leaves
    are the tokens. *)
Theorem recognize_outcome (depth : nat) (text : jsstring)
  (tokens : list jsstring) (g : Grammar) :
  parseGrammarFromText text = Ok g -> length tokens <= depth ->
  exists o,
    recognize depth text tokens = Ok o /\
    (oAccepted o = true <-> Yield g (startSymbol g) tokens) /\
    (oAccepted o = true <-> exists t, oTree o = Some t) /\
    (forall t, oTree o = Some t ->
       DerivationTree g t /\ rootLabel t = startSymbol g /\
       leaves t = tokens).
Proof.
  intros Eg Hd. unfold recognize. rewrite Eg, bind_Ok.
  destruct (cykWithPointers_Yield tokens g) as (r & E & Hacc).
  rewrite E, bind_Ok. destruct (accepted r) eqn:Ea.
  - destruct (buildParseTree_returns _ _ _ depth E Ea Hd) as (t & Et).
    rewrite Et, bind_Ok. eexists. split; [reflexivity|]. cbn.
    splits; auto.
    + split; eauto.
    + intros t' Ht. injection Ht as <-.
      destruct (returned_tree_root _ _ _ _ _ E Et)
        as (Hne & acc & HI & HJ & M & Ec).
      destruct (choose_derivation _ _ _ HI HJ depth _ _ _ _ M Ec) as [D R].
      destruct (returned_tree_shape _ _ _ _ _ E Et) as (_ & _ & Hl). auto.
  - rewrite bind_Ok. eexists. split; [reflexivity|]. cbn. splits; auto.
    + split; [discriminate | intros (t & Ht); discriminate].
    + intros t Ht. discriminate.
Qed.

Lemma recognize_outcome_witness :
  exists o,
    recognize 5 pgcGrammarText (tokenizePGC pgcSentence) = Ok o /\
    (oAccepted o = true <-> exists t, oTree o = Some t).
Proof.
  destruct (recognize_outcome 5 pgcGrammarText (tokenizePGC pgcSentence) _
              ltac:(vm_compute; reflexivity) ltac:(vm_compute; lia))
    as (o & Eo & _ & H & _).
  exists o. split; assumption.
Defined.

(** X6. The tree handed to the tree widget for a reconstructed parse has
    the start symbol as the name of its root and the tokens, in order, as
    the names of its nodes without children. *)
Theorem toD3Tree_of_parse (G : Grammar) (w : list jsstring)
  (r : CykResult) (depth : nat) (t : ParseTree) :
  cykWithPointers w G = Ok r ->
  buildParseTree depth G w (back r) = Ok (Some t) ->
  exists d,
    toD3Tree (Some t) = Some d /\ d3Name d = startSymbol G /\
    d3Leaves d = w.
Proof.
  intros E B. destruct (returned_tree_shape _ _ _ _ _ E B) as (Hb & Hr & Hl).
  exists (toD3Node t). split; [reflexivity|]. split.
  - rewrite <- Hr. destruct t; reflexivity.
  - rewrite d3Leaves_toD3Node by assumption. assumption.
Qed.

Lemma toD3Tree_of_parse_witness :
  exists r t,
    cykWithPointers (chars (js "ab")) exampleGrammar = Ok r /\
    buildParseTree 2 exampleGrammar (chars (js "ab")) (back r)
      = Ok (Some t) /\
    exists d,
      toD3Tree (Some t) = Some d /\
      d3Name d = startSymbol exampleGrammar /\
      d3Leaves d = chars (js "ab").
Proof.
  eexists. eexists.
  split; [vm_compute; reflexivity|]. split; [vm_compute; reflexivity|].
  eapply (toD3Tree_of_parse exampleGrammar (chars (js "ab")) _ 2);
    vm_compute; reflexivity.
Defined.

(** X7. The ASCII drawing of a reconstructed parse of [n] tokens has
    [5 n - 2] lines, the first of which is the start symbol without
    indentation, and every token stands on a line of its own after some
    indentation. *)
Theorem renderAsciiTree_of_parse (G : Grammar) (w : list jsstring)
  (r : CykResult) (depth : nat) (t : ParseTree) :
  cykWithPointers w G = Ok r ->
  buildParseTree depth G w (back r) = Ok (Some t) ->
  exists rest,
    renderAsciiTree (Some t) = join1 LF (startSymbol G :: rest) /\
    length (startSymbol G :: rest) + 2 = 5 * length w /\
    forall tok, In tok w ->
      exists indent, In (spaces indent ++ tok) (startSymbol G :: rest).
Proof.
  intros E B. destruct (returned_tree_shape _ _ _ _ _ E B) as (Hb & Hr & Hl).
  destruct (draw_first t 0) as (rest & Ed).
  change (spaces 0 ++ rootLabel t) with (rootLabel t) in Ed.
  rewrite Hr in Ed. exists rest. unfold renderAsciiTree.
  pose proof (draw_length t 0 [] Hb) as Hn.
  pose proof (fun tok => draw_tokens t 0 [] tok) as Ht.
  rewrite Ed in *. rewrite Hl in *. splits.
  - reflexivity.
  - simpl length in *. lia.
  - intros tok Hin. apply Ht. assumption.
Qed.

Lemma renderAsciiTree_of_parse_witness :
  exists r t,
    cykWithPointers (chars (js "ab")) exampleGrammar = Ok r /\
    buildParseTree 2 exampleGrammar (chars (js "ab")) (back r)
      = Ok (Some t) /\
    exists rest,
      renderAsciiTree (Some t)
        = join1 LF (startSymbol exampleGrammar :: rest) /\
      length (startSymbol exampleGrammar :: rest) + 2
        = 5 * length (chars (js "ab")) /\
      forall tok, In tok (chars (js "ab")) ->
        exists indent,
          In (spaces indent ++ tok) (startSymbol exampleGrammar :: rest).
Proof.
  eexists. eexists.
  split; [vm_compute; reflexivity|]. split; [vm_compute; reflexivity|].
  eapply (renderAsciiTree_of_parse exampleGrammar (chars (js "ab")) _ 2);
    vm_compute; reflexivity.
Defined.

(** * The Check Grammar tab *)

(** ** Splitting at a separator string *)

Lemma splitStr_nonempty sep s : forall skip cur,
  splitStr sep skip cur s <> [].
Proof.
  induction s as [|c s IH]; intros skip cur; simpl; [discriminate|].
  destruct skip; [|apply IH].
  destruct (startsWith sep (c :: s)); [discriminate | apply IH].
Qed.

Lemma splitStr_skip sep u : forall cur post,
  splitStr sep (length u) cur (u ++ post) = splitStr sep 0 cur post.
Proof.
  induction u as [|c u IH]; intros cur post; simpl.
  - destruct post; reflexivity.
  - apply IH.
Qed.

Lemma splitStr_absent sep s :
  sep <> [] -> ~ contains sep s ->
  forall cur, splitStr sep 0 cur s = [rev cur ++ s].
Proof.
  intros Hsep. induction s as [|c s IH]; intros Hn cur; simpl splitStr.
  - rewrite app_nil_r. reflexivity.
  - destruct (startsWith sep (c :: s)) eqn:E.
    + apply startsWith_iff in E. destruct E as (post & E).
      exfalso. apply Hn. exists [], post. exact E.
    + rewrite IH.
      * simpl. rewrite <- app_assoc. reflexivity.
      * intros (pre & post & ->). apply Hn. exists (c :: pre), post.
        reflexivity.
Qed.

Lemma splitStr_first sep pre :
  sep <> [] -> forall post cur,
  firstAt sep pre post (pre ++ sep ++ post) ->
  splitStr sep 0 cur (pre ++ sep ++ post)
  = (rev cur ++ pre) :: splitStr sep 0 [] post.
Proof.
  intros Hsep. induction pre as [|c pre IH]; intros post cur [_ Hmin].
  - destruct sep as [|x sep]; [congruence|].
    assert (E : startsWith (x :: sep) ((x :: sep) ++ post) = true)
      by (apply startsWith_iff; eauto).
    simpl app in *. simpl splitStr. simpl in E. rewrite E.
    rewrite app_nil_r. f_equal.
    replace (length sep - 0) with (length sep) by lia.
    apply splitStr_skip.
  - simpl app. simpl splitStr.
    destruct (startsWith sep (c :: pre ++ sep ++ post)) eqn:E.
    + apply startsWith_iff in E. destruct E as (post' & E).
      specialize (Hmin [] post' E). simpl in Hmin. lia.
    + rewrite IH.
      * simpl. rewrite <- app_assoc. reflexivity.
      * split; [reflexivity|]. intros pre' post' E'.
        specialize (Hmin (c :: pre') post'). simpl in Hmin.
        rewrite E' in Hmin. specialize (Hmin eq_refl). lia.
Qed.

Lemma contains_firstAt p s :
  contains p s -> exists pre post, firstAt p pre post s.
Proof.
  intros H. destruct (indexOfFrom_range 0 p s) as [E | E].
  - exfalso. apply (indexOf_contains p s E H).
  - exists (firstn (Z.to_nat (indexOf s p)) s),
           (skipn (Z.to_nat (indexOf s p) + length p) s).
    apply indexOf_firstAt. unfold indexOf. lia.
Qed.

Lemma contains_dec p s : contains p s \/ ~ contains p s.
Proof.
  destruct (indexOfFrom_range 0 p s) as [E | E].
  - right. apply indexOf_contains. exact E.
  - left. destruct (indexOf_firstAt p s (Z.to_nat (indexOf s p)))
      as [E' _]; [unfold indexOf; lia|].
    eexists. eexists. exact E'.
Qed.

(** ** Reading one line *)

Lemma readRule_no_arrow line :
  ~ contains (js "->") line -> readRule line = Throw TypeError.
Proof.
  intros H. unfold readRule, split.
  rewrite splitStr_absent by (assumption || discriminate). reflexivity.
Qed.

Lemma readRule_firstAt line pre post :
  firstAt (js "->") pre post line ->
  readRule line
  = Ok (trim pre,
        map symbolsOf (split1 (hd [] (split post (js "->"))) BAR)).
Proof.
  intros H. pose proof H as [-> _]. unfold readRule, split.
  rewrite splitStr_first by (assumption || discriminate).
  destruct (splitStr (js "->") 0 [] post) as [|right rest] eqn:E.
  - exfalso. exact (splitStr_nonempty _ _ _ _ E).
  - reflexivity.
Qed.

Lemma readRule_arrow line :
  contains (js "->") line -> exists A prods, readRule line = Ok (A, prods).
Proof.
  intros H. destruct (contains_firstAt _ _ H) as (pre & post & F).
  rewrite (readRule_firstAt _ _ _ F). eauto.
Qed.

Lemma readRule_Ok line A prods :
  readRule line = Ok (A, prods) -> contains (js "->") line.
Proof.
  intros E. destruct (contains_dec (js "->") line) as [H | H]; [exact H|].
  rewrite readRule_no_arrow in E by assumption. discriminate.
Qed.

Lemma trim_unit c : nonEmpty (trim [c]) = negb (isWhite c).
Proof.
  unfold trim, trimEnd. simpl. destruct (isWhite c) eqn:E; simpl.
  - reflexivity.
  - rewrite E. reflexivity.
Qed.

Lemma symbolsOf_units prod x :
  In x (symbolsOf prod) -> exists c, x = [c] /\ isWhite c = false.
Proof.
  unfold symbolsOf, chars. intros H. apply filter_In in H.
  destruct H as [H Hx]. apply in_map_iff in H. destruct H as (c & <- & _).
  exists c. split; [reflexivity|]. rewrite trim_unit in Hx.
  destruct (isWhite c); [discriminate | reflexivity].
Qed.

Lemma readRule_productions line A prods :
  readRule line = Ok (A, prods) ->
  prods <> [] /\
  forall p x, In p prods -> In x p -> exists c, x = [c] /\ isWhite c = false.
Proof.
  unfold readRule. destruct (split line (js "->")) as [|l [|r rest]];
    try discriminate.
  intros E. injection E as <- <-. split.
  - unfold split1. pose proof (splitChar_nonempty BAR [] r) as H.
    destruct (splitChar BAR [] r); [congruence | discriminate].
  - intros p x Hp Hx. apply in_map_iff in Hp. destruct Hp as (prod & <- & _).
    eapply symbolsOf_units; eauto.
Qed.

(** ** Own properties after an assignment *)

Lemma mapGet_app_other {V} (m : JsMap V) k k' v :
  k' <> k -> mapGet (m ++ [(k, v)]) k' = mapGet m k'.
Proof.
  intros Hne. induction m as [|[k0 v0] m IH]; simpl.
  - apply streq_false_iff in Hne. rewrite Hne. reflexivity.
  - destruct (streq k' k0); auto.
Qed.

Lemma mapGet_insertIndexed_other o n k v k' :
  k' <> k -> mapGet (insertIndexed o n k v) k' = mapGet o k'.
Proof.
  intros Hne. pose proof (proj2 (streq_false_iff k' k) Hne) as E.
  induction o as [|[k0 v0] o IH]; simpl.
  - rewrite E. reflexivity.
  - destruct (arrayIndex k0) as [n'|]; [destruct (n <? n')%N|]; simpl;
      rewrite ?E; try reflexivity.
    destruct (streq k' k0); auto.
Qed.

Lemma mapGet_setProp_same o k v : mapGet (setProp o k v) k = Some v.
Proof.
  unfold setProp, mapHas. destruct (mapGet o k) eqn:E.
  - apply mapGet_mapSet_same.
  - destruct (arrayIndex k).
    + apply mapGet_insertIndexed_new. assumption.
    + apply mapGet_app_new. assumption.
Qed.

Lemma mapGet_setProp_other o k v k' :
  k' <> k -> mapGet (setProp o k v) k' = mapGet o k'.
Proof.
  intros Hne. unfold setProp. destruct (mapHas o k).
  - apply mapGet_mapSet_other. assumption.
  - destruct (arrayIndex k).
    + apply mapGet_insertIndexed_other. assumption.
    + apply mapGet_app_other. assumption.
Qed.

Lemma mapGet_assignProp_same o k v :
  k <> js "__proto__" -> mapGet (assignProp o k v) k = Some v.
Proof.
  intros Hne. unfold assignProp. apply streq_false_iff in Hne.
  rewrite Hne. apply mapGet_setProp_same.
Qed.

Lemma mapGet_assignProp_other o k v k' :
  k' <> k -> mapGet (assignProp o k v) k' = mapGet o k'.
Proof.
  intros Hne. unfold assignProp. destruct (streq k (js "__proto__")).
  - reflexivity.
  - apply mapGet_setProp_other. assumption.
Qed.

Lemma In_mapSet {V} (m : JsMap V) k v k' v' :
  In (k', v') (mapSet m k v) -> (k' = k /\ v' = v) \/ In (k', v') m.
Proof.
  induction m as [|[k0 v0] m IH]; simpl.
  - intros [E | []]. injection E as <- <-. auto.
  - destruct (streq k k0) eqn:E; simpl.
    + apply streq_true_iff in E. subst k0.
      intros [H | H]; [injection H as <- <-; auto | auto].
    + intros [H | H]; [auto|]. destruct (IH H); auto.
Qed.

Lemma In_insertIndexed o n k v k' v' :
  In (k', v') (insertIndexed o n k v) ->
  (k' = k /\ v' = v) \/ In (k', v') o.
Proof.
  induction o as [|[k0 v0] o IH]; simpl.
  - intros [E | []]. injection E as <- <-. auto.
  - destruct (arrayIndex k0) as [n'|]; [destruct (n <? n')%N|]; simpl.
    + intros [H | H]; [injection H as <- <-; auto | auto].
    + intros [H | H]; [auto|]. destruct (IH H); auto.
    + intros [H | H]; [injection H as <- <-; auto | auto].
Qed.

Lemma In_setProp o k v k' v' :
  In (k', v') (setProp o k v) -> (k' = k /\ v' = v) \/ In (k', v') o.
Proof.
  unfold setProp. destruct (mapHas o k).
  - apply In_mapSet.
  - destruct (arrayIndex k).
    + apply In_insertIndexed.
    + intros H. apply in_app_or in H. destruct H as [H | [H | []]]; [auto|].
      injection H as <- <-. auto.
Qed.

Lemma In_assignProp o k v k' v' :
  In (k', v') (assignProp o k v) ->
  (k' = k /\ v' = v /\ k <> js "__proto__") \/ In (k', v') o.
Proof.
  unfold assignProp. destruct (streq k (js "__proto__")) eqn:E; [auto|].
  apply streq_false_iff in E. intros H.
  destruct (In_setProp _ _ _ _ _ H) as [[-> ->] | H']; auto.
Qed.

Lemma mapGet_In {V} (m : JsMap V) k v : mapGet m k = Some v -> In (k, v) m.
Proof.
  induction m as [|[k0 v0] m IH]; simpl; [discriminate|].
  destruct (streq k k0) eqn:E; [|auto].
  apply streq_true_iff in E. subst k0. intros H. injection H as <-. auto.
Qed.

(** ** The loop over the lines *)

Lemma customLine_Ok line o o' :
  customLine line o = Ok o' ->
  exists A prods, readRule line = Ok (A, prods) /\ o' = assignProp o A prods.
Proof.
  unfold customLine. destruct (readRule line) as [[A prods]|]; simpl;
    [|discriminate].
  intros E. injection E as <-. eauto.
Qed.

Lemma In_ruleLines gi line :
  In line (ruleLines gi) <->
  In line (split1 (Custom.rules gi) LF) /\ trim line <> [].
Proof.
  unfold ruleLines. rewrite filter_In.
  destruct (trim line); simpl; intuition congruence.
Qed.

Lemma customLines_raise lines : forall o,
  match forEach lines customLine o with
  | Ok _ => forall line, In line lines -> contains (js "->") line
  | Throw e =>
      e = TypeError /\
      exists line, In line lines /\ ~ contains (js "->") line
  end.
Proof.
  induction lines as [|l lines IH]; intros o; simpl.
  - intros line [].
  - unfold customLine at 1.
    destruct (contains_dec (js "->") l) as [H | H].
    + destruct (readRule_arrow _ H) as (A & prods & E). rewrite E.
      cbn [bind]. specialize (IH (assignProp o A prods)).
      destruct (forEach lines customLine _).
      * intros line [<- | Hl]; auto.
      * destruct IH as (-> & line & Hl & Hn). split; [reflexivity|].
        exists line. auto.
    + rewrite readRule_no_arrow by assumption. cbn [bind].
      split; [reflexivity|]. exists l. auto.
Qed.

Lemma customLines_last lines A prods : A <> js "__proto__" ->
  forall o o', forEach lines customLine o = Ok o' ->
  (mapGet o' A = Some prods <->
   (exists before line after,
      lines = before ++ line :: after /\
      readRule line = Ok (A, prods) /\
      forall l B ps, In l after -> readRule l = Ok (B, ps) -> B <> A)
   \/ (mapGet o A = Some prods /\
       forall l B ps, In l lines -> readRule l = Ok (B, ps) -> B <> A)).
Proof.
  intros HA. induction lines as [|l lines IH]; intros o o' E; simpl in E.
  - injection E as <-. split.
    + intros H. right. split; [assumption|]. intros ? ? ? [].
    + intros [(before & line & after & E & _) | [H _]]; [|assumption].
      destruct before; discriminate.
  - destruct (customLine l o) as [o1|] eqn:E1; simpl in E; [|discriminate].
    destruct (customLine_Ok _ _ _ E1) as (B & ps & Er & ->).
    rewrite (IH _ _ E). split.
    + intros [(before & line & after & -> & Hl & Hafter) | [Hg Hno]].
      * left. exists (l :: before), line, after. auto.
      * destruct (streq_true_iff B A) as [_ Hdec].
        destruct (streq B A) eqn:EB.
        -- apply streq_true_iff in EB. subst B.
           rewrite mapGet_assignProp_same in Hg by assumption.
           injection Hg as ->. left. exists [], l, lines. auto.
        -- apply streq_false_iff in EB.
           rewrite mapGet_assignProp_other in Hg by congruence.
           right. split; [assumption|].
           intros l' B' ps' [<- | Hl] Hr; [|eauto]. congruence.
    + intros [(before & line & after & El & Hl & Hafter) | [Hg Hno]].
      * destruct before as [|b before]; simpl in El; injection El as <- ->.
        -- right. rewrite Hl in Er. injection Er as <- <-.
           rewrite mapGet_assignProp_same by assumption. auto.
        -- left. exists before, line, after. auto.
      * right. assert (B <> A) by (eapply Hno; [left; reflexivity | eauto]).
        rewrite mapGet_assignProp_other by congruence. split; [assumption|].
        intros l' B' ps' Hl'. apply Hno. right. assumption.
Qed.

Lemma customLines_shape lines :
  forall o o', forEach lines customLine o = Ok o' ->
  forall A prods, In (A, prods) o' ->
    In (A, prods) o \/
    (A <> js "__proto__" /\
     exists line, In line lines /\ readRule line = Ok (A, prods)).
Proof.
  induction lines as [|l lines IH]; intros o o' E A prods Hin; simpl in E.
  - injection E as <-. auto.
  - destruct (customLine l o) as [o1|] eqn:E1; simpl in E; [|discriminate].
    destruct (customLine_Ok _ _ _ E1) as (B & ps & Er & ->).
    destruct (IH _ _ E _ _ Hin) as [H | (Hp & line & Hl & Hr)].
    + destruct (In_assignProp _ _ _ _ _ H) as [(-> & -> & Hp) | H']; [|auto].
      right. split; [assumption|]. exists l. simpl. auto.
    + right. split; [assumption|]. exists line. simpl. auto.
Qed.

(** X8. [parseGrammar] raises exactly when a line of the rules text that
    is not blank has no [->], and what it raises is a [TypeError]; no other
    field of the form can make it fail. *)
Theorem parseGrammar_raises (grammarInput : Custom.GrammarInput) :
  match parseGrammar grammarInput with
  | Ok _ =>
      forall line, In line (split1 (Custom.rules grammarInput) LF) ->
        trim line <> [] -> contains (js "->") line
  | Throw e =>
      e = TypeError /\
      exists line,
        In line (split1 (Custom.rules grammarInput) LF) /\
        trim line <> [] /\ ~ contains (js "->") line
  end.
Proof.
  unfold parseGrammar. cbv zeta.
  pose proof (customLines_raise (ruleLines grammarInput) []) as H.
  destruct (forEach (ruleLines grammarInput) customLine []); cbn [bind].
  - intros line Hl Hb. apply H. apply In_ruleLines. auto.
  - destruct H as (-> & line & Hl & Hn). split; [reflexivity|].
    apply In_ruleLines in Hl. exists line. tauto.
Qed.

(** X9. In the grammar returned by [parseGrammar] the productions of a
    variable are those of the last line that names it on its left-hand
    side: a later line for the same variable replaces the earlier ones.
    The name [__proto__] never gets productions. *)
Theorem parseGrammar_last_line_wins (grammarInput : Custom.GrammarInput)
  (g : Grammar) :
  parseGrammar grammarInput = Ok g ->
  mapGet (rules g) (js "__proto__") = None /\
  forall A prods, A <> js "__proto__" ->
    (mapGet (rules g) A = Some prods <->
     exists before line after,
       ruleLines grammarInput = before ++ line :: after /\
       readRule line = Ok (A, prods) /\
       forall l B ps, In l after -> readRule l = Ok (B, ps) -> B <> A).
Proof.
  unfold parseGrammar. cbv zeta.
  destruct (forEach (ruleLines grammarInput) customLine []) as [o|] eqn:E;
    cbn [bind]; [|discriminate].
  intros Eg. injection Eg as <-. cbn [rules]. split.
  - destruct (mapGet o (js "__proto__")) as [v|] eqn:Ev; [|reflexivity].
    pose proof (mapGet_In _ _ _ Ev) as Hv.
    destruct (customLines_shape _ _ _ E _ _ Hv) as [[] | [Hp _]].
    congruence.
  - intros A prods HA. rewrite (customLines_last _ A prods HA _ _ E).
    split; [|auto]. intros [H | [H _]]; [assumption | discriminate].
Qed.

Lemma parseGrammar_last_line_wins_witness :
  mapGet [(js "S", [[js "b"]])] (js "S") = Some [[js "b"]] <->
  exists before line after,
    [js "S->a"; js "S->b"] = before ++ line :: after /\
    readRule line = Ok (js "S", [[js "b"]]) /\
    forall l B ps, In l after -> readRule l = Ok (B, ps) -> B <> js "S".
Proof.
  apply (proj2 (parseGrammar_last_line_wins
           {| Custom.variables := js "S"; Custom.terminals := js "a,b";
              Custom.startSymbol := js "S";
              Custom.rules := js "S->a" ++ [LF] ++ js "S->b" |}
           {| variables := [js "S"]; terminals := [js "a"; js "b"];
              startSymbol := js "S"; rules := [(js "S", [[js "b"]])] |}
           ltac:(vm_compute; reflexivity)) (js "S") [[js "b"]]).
  vm_compute. discriminate.
Defined.

(** X10. Every symbol of every production that [parseGrammar] returns is
    a single code unit that is not white space, and every variable it
    registers has at least one production (possibly without symbols). *)
Theorem parseGrammar_symbols (grammarInput : Custom.GrammarInput)
  (g : Grammar) :
  parseGrammar grammarInput = Ok g ->
  forall A prods, In (A, prods) (rules g) ->
    prods <> [] /\
    forall p x, In p prods -> In x p ->
      exists c, x = [c] /\ isWhite c = false.
Proof.
  unfold parseGrammar. cbv zeta.
  destruct (forEach (ruleLines grammarInput) customLine []) as [o|] eqn:E;
    cbn [bind]; [|discriminate].
  intros Eg. injection Eg as <-. cbn [rules]. intros A prods Hin.
  destruct (customLines_shape _ _ _ E _ _ Hin) as [[] | (_ & l & _ & Hr)].
  eapply readRule_productions; eauto.
Qed.

Lemma parseGrammar_symbols_witness :
  [[js "A"; js "B"]; [js "B"; js "A"]] <> [] /\
  forall p x, In p [[js "A"; js "B"]; [js "B"; js "A"]] -> In x p ->
    exists c, x = [c] /\ isWhite c = false.
Proof.
  apply (parseGrammar_symbols customGrammar exampleGrammar
           ltac:(vm_compute; reflexivity) (js "S")).
  left. reflexivity.
Defined.

(** ** handleCheckGrammar *)

Lemma cykAlgorithm_Yield word grammar :
  exists r,
    cykAlgorithm word grammar = Ok r /\
    (tAccepted r = true <-> Yield grammar (startSymbol grammar) word).
Proof.
  destruct (cykWithPointersTraced_total word grammar) as (r0 & acc & E0).
  destruct (cykAlgorithm_sim _ _ _ _ E0) as (r & E & Ha & _).
  exists r. split; [eapply cykAlgorithm_of_traced; eassumption|].
  rewrite Ha. destruct (cykWithPointers_Yield word grammar) as (r1 & E1 & H).
  rewrite (cykWithPointers_of_traced _ _ _ _ E0) in E1.
  injection E1 as <-. exact H.
Qed.

(** X11. The Parse String handler fails exactly when [parseGrammar]
    fails on the form, with the same exception; otherwise it reports
    [accepted] exactly when the start symbol of the parsed grammar has a
    derivation tree over the code units of the input. *)
Theorem handleCheckGrammar_custom (customGrammar : Custom.GrammarInput)
  (input : jsstring) :
  match parseGrammar customGrammar with
  | Ok g =>
      exists r,
        handleCheckGrammar true customGrammar input = Ok r /\
        (tAccepted r = true <-> Yield g (startSymbol g) (chars input))
  | Throw e => handleCheckGrammar true customGrammar input = Throw e
  end.
Proof.
  unfold handleCheckGrammar.
  destruct (parseGrammar customGrammar) as [g|e]; cbn [bind];
    [|reflexivity].
  apply cykAlgorithm_Yield.
Qed.

Lemma mapGet_cons {V} (m : JsMap V) k k' v :
  mapGet ((k', v) :: m) k = if streq k k' then Some v else mapGet m k.
Proof. reflexivity. Qed.

Lemma exampleGrammar_productions A rhs :
  hasProduction exampleGrammar A rhs ->
  (A = js "S" /\ (rhs = [js "A"; js "B"] \/ rhs = [js "B"; js "A"]))
  \/ (A = js "A" /\ rhs = [js "a"])
  \/ (A = js "B" /\ rhs = [js "b"]).
Proof.
  intros (prods & E & Hin). unfold getProp, exampleGrammar in E.
  cbn [rules] in E. rewrite !mapGet_cons in E.
  destruct (streq A (js "S")) eqn:ES;
    [|destruct (streq A (js "A")) eqn:EA;
      [|destruct (streq A (js "B")) eqn:EB]].
  - apply streq_true_iff in ES. injection E as <-. left.
    destruct Hin as [<- | [<- | []]]; auto.
  - apply streq_true_iff in EA. injection E as <-. right. left.
    destruct Hin as [<- | []]; auto.
  - apply streq_true_iff in EB. injection E as <-. right. right.
    destruct Hin as [<- | []]; auto.
  - cbn [mapGet] in E. destruct (setHas objectPrototypeKeys A); discriminate.
Qed.

Lemma exampleGrammar_has A rhs prods :
  mapGet (rules exampleGrammar) A = Some prods -> In rhs prods ->
  hasProduction exampleGrammar A rhs.
Proof.
  intros E Hin. exists prods. unfold getProp. rewrite E. auto.
Qed.

Lemma exampleGrammar_Yield_unit A a w :
  (A = js "A" /\ a = js "a") \/ (A = js "B" /\ a = js "b") ->
  Yield exampleGrammar A w -> w = [a].
Proof.
  intros HA H. inversion H as [A' t Hp | A' B C u v Hp _ _]; subst.
  - apply exampleGrammar_productions in Hp.
    destruct HA as [[-> ->] | [-> ->]];
      destruct Hp as [[E _] | [[E E'] | [E E']]];
      try discriminate E; congruence.
  - apply exampleGrammar_productions in Hp.
    destruct HA as [[-> ->] | [-> ->]];
      destruct Hp as [[E _] | [[E E'] | [E E']]];
      try discriminate E; discriminate E'.
Qed.

Lemma exampleGrammar_language w :
  Yield exampleGrammar (startSymbol exampleGrammar) w <->
  w = [js "a"; js "b"] \/ w = [js "b"; js "a"].
Proof.
  split.
  - intros H. inversion H as [A' t Hp | A' B C u v Hp Hu Hv]; subst.
    + apply exampleGrammar_productions in Hp.
      destruct Hp as [[_ [E | E]] | [[E _] | [E _]]]; discriminate E.
    + apply exampleGrammar_productions in Hp.
      destruct Hp as [[_ [E | E]] | [[E _] | [E _]]];
        try discriminate E; injection E as -> ->.
      * rewrite (exampleGrammar_Yield_unit _ (js "a") _ ltac:(auto) Hu).
        rewrite (exampleGrammar_Yield_unit _ (js "b") _ ltac:(auto) Hv).
        auto.
      * rewrite (exampleGrammar_Yield_unit _ (js "b") _ ltac:(auto) Hu).
        rewrite (exampleGrammar_Yield_unit _ (js "a") _ ltac:(auto) Hv).
        auto.
  - intros [-> | ->].
    + apply (Yield_binary _ _ (js "A") (js "B") [js "a"] [js "b"]).
      * eapply exampleGrammar_has; [reflexivity | simpl; auto].
      * apply Yield_terminal.
        eapply exampleGrammar_has; [reflexivity | simpl; auto].
      * apply Yield_terminal.
        eapply exampleGrammar_has; [reflexivity | simpl; auto].
    + apply (Yield_binary _ _ (js "B") (js "A") [js "b"] [js "a"]).
      * eapply exampleGrammar_has; [reflexivity | simpl; auto].
      * apply Yield_terminal.
        eapply exampleGrammar_has; [reflexivity | simpl; auto].
      * apply Yield_terminal.
        eapply exampleGrammar_has; [reflexivity | simpl; auto].
Qed.

Lemma chars_inj s s' : chars s = chars s' -> s = s'.
Proof.
  revert s'; induction s as [|c s IH]; intros [|c' s'] E;
    try discriminate; [reflexivity|].
  injection E as -> E. f_equal. auto.
Qed.

(** X12. With the predefined grammar the handler never fails and reports
    [accepted] for exactly two inputs, [ab] and [ba]; the form is not
    read. *)
Theorem handleCheckGrammar_example (customGrammar : Custom.GrammarInput)
  (input : jsstring) :
  exists r,
    handleCheckGrammar false customGrammar input = Ok r /\
    (tAccepted r = true <-> input = js "ab" \/ input = js "ba").
Proof.
  unfold handleCheckGrammar. cbn [bind].
  destruct (cykAlgorithm_Yield (chars input) exampleGrammar) as (r & E & H).
  exists r. split; [assumption|].
  rewrite H, exampleGrammar_language. split.
  - intros [E' | E']; [left | right]; apply chars_inj; exact E'.
  - intros [-> | ->]; [left | right]; reflexivity.
Qed.

(** The form as it is first shown holds the predefined grammar. *)
Example parseGrammar_customGrammar :
  parseGrammar customGrammar = Ok exampleGrammar.
Proof. vm_compute. reflexivity. Qed.

(** ** The steps of cykAlgorithm *)

Lemma forKeys_keeps {X} (grammar : Grammar) (P : Run X -> Prop)
  (f : jsstring -> Production -> Run X -> result (Run X)) :
  (forall A prod s s', f A prod s = Ok s' -> hasProduction grammar A prod ->
     P s -> P s') ->
  forall s s',
    forEach (objectKeys (rules grammar)) (fun A st =>
      prods <- rulesOf grammar A ;; forEach prods (f A) st) s = Ok s' ->
    P s -> P s'.
Proof.
  intros Hf. apply forEach_keeps. intros A s s' _ E.
  destruct (rulesOf grammar A) as [prods|] eqn:Er; [|discriminate].
  rewrite bind_Ok in E. apply rulesOf_Ok in Er. revert s s' E.
  apply forEach_keeps. intros prod s s' Hin E. apply (Hf _ _ _ _ E).
  exists prods. auto.
Qed.

Section Steps.
Variable grammar : Grammar.
Variable word : list jsstring.

Lemma Reported_mono (t t' : Matrix JsSet) msg :
  (forall i j A, mem t i j A -> mem t' i j A) ->
  Reported grammar word t msg -> Reported grammar word t' msg.
Proof.
  intros Hm H. destruct H; [apply Reported_diag | apply Reported_pair]; auto.
Qed.

Lemma Reported_mem (t : Matrix JsSet) msg :
  Reported grammar word t msg -> exists i j A, mem t i j A.
Proof. intros H. destruct H; eauto. Qed.

Lemma Explained_frame (st st' : Run (list jsstring)) :
  tbl st' = tbl st -> aux st' = aux st ->
  Explained grammar word st -> Explained grammar word st'.
Proof. unfold Explained. intros -> ->. auto. Qed.

Lemma add_explained i j A msg (st st1 : Run (list jsstring)) :
  tableAdd i j A st = Ok st1 -> reports i j A msg ->
  (mem (tbl st1) i j A -> Reported grammar word (tbl st1) msg) ->
  Explained grammar word st -> Explained grammar word (stepsPush msg st1).
Proof.
  unfold tableAdd.
  destruct (cell (tbl st) i j) as [c|] eqn:Ec; [|discriminate].
  intros E Hr Hm [HF HM]. injection E as <-. cbn [tbl aux] in *.
  pose proof (fun i' j' A' => mem_add (tbl st) i j c A i' j' A' Ec) as Hadd.
  split; cbn [stepsPush tbl aux].
  - apply Forall_app. split.
    + eapply Forall_impl; [|exact HF]. intros m. apply Reported_mono.
      intros i' j' A' H. apply Hadd. auto.
    + constructor; [|constructor]. apply Hm. apply Hadd. auto.
  - intros i' j' A' H. apply Hadd in H.
    destruct H as [H | (-> & -> & ->)].
    + destruct (HM _ _ _ H) as (m & Hin & Hrep). exists m.
      split; [apply in_or_app; auto | assumption].
    + exists msg. split; [apply in_or_app; simpl; auto | assumption].
Qed.

Lemma diagStepA_keeps i tok A prod (st st' : Run (list jsstring)) :
  diagStepA i tok A prod st = Ok st' ->
  nth_error word i = Some tok -> hasProduction grammar A prod ->
  Explained grammar word st -> Explained grammar word st'.
Proof.
  unfold diagStepA. intros E Hn Hp HE.
  destruct prod as [|p0 [|p1 prod]];
    try (injection E as <-; assumption).
  destruct (streq p0 tok) eqn:Es; [|injection E as <-; assumption].
  apply streq_true_iff in Es. subst p0.
  destruct (tableAdd i i A st) as [st1|] eqn:E1; [|discriminate].
  rewrite bind_Ok in E. injection E as <-.
  eapply add_explained; eauto.
  - left. eauto.
  - intros H. apply Reported_diag; assumption.
Qed.

Lemma pairStepA_keeps i j k A prod (st st' : Run (list jsstring)) :
  pairStepA i j k A prod st = Ok st' ->
  i <= k < j -> hasProduction grammar A prod ->
  Explained grammar word st -> Explained grammar word st'.
Proof.
  unfold pairStepA. intros E Hk Hp HE.
  destruct prod as [|B [|C [|D prod]]];
    try (injection E as <-; assumption).
  destruct (tableHas i k B st) as [[b st1]|] eqn:E1; [|discriminate].
  rewrite bind_Ok in E.
  destruct (tableHas_frame _ _ _ _ _ _ E1) as (T1 & A1 & c1 & Ec1 & Eb).
  pose proof (Explained_frame _ _ T1 A1 HE) as H1.
  destruct b; [|injection E as <-; assumption].
  destruct (tableHas (k + 1) j C st1) as [[c st2]|] eqn:E2; [|discriminate].
  rewrite bind_Ok in E.
  destruct (tableHas_frame _ _ _ _ _ _ E2) as (T2 & A2 & c2 & Ec2 & Ec).
  pose proof (Explained_frame _ _ T2 A2 H1) as H2.
  destruct c; [|injection E as <-; assumption].
  destruct (tableAdd i j A st2) as [st3|] eqn:E3; [|discriminate].
  rewrite bind_Ok in E. injection E as <-.
  assert (MB : mem (tbl st2) i k B).
  { exists c1. rewrite T2, T1. split; [assumption|].
    apply setHas_In. auto. }
  assert (MC : mem (tbl st2) (k + 1) j C).
  { exists c2. rewrite T2. split; [assumption | apply setHas_In; auto]. }
  assert (Hmono : forall i' j' A', mem (tbl st2) i' j' A' ->
            mem (tbl st3) i' j' A').
  { unfold tableAdd in E3.
    destruct (cell (tbl st2) i j) as [c|] eqn:Ec'; [|discriminate].
    injection E3 as <-. cbn [tbl]. intros i' j' A' H.
    apply (mem_add _ _ _ _ _ _ _ _ Ec'). auto. }
  eapply add_explained; eauto.
  - right. eauto.
  - intros H. apply Reported_pair; auto.
Qed.

Lemma cykAlgorithmTraced_Explained r acc :
  cykAlgorithmTraced word grammar = Ok (r, acc) ->
  Explained grammar word {| tbl := tTable r; aux := tSteps r; log := [] |}.
Proof.
  unfold cykAlgorithmTraced. cbv zeta.
  destruct (length word =? 0).
  - intros E. injection E as <- _. split; [constructor|].
    intros i j A (c & Hc & _). destruct i; discriminate.
  - rewrite forEachIdx_forEach.
    match goal with
    | |- context [@forEach _ (Run (list jsstring)) ?l ?f ?s0] =>
        destruct (forEach l f s0) as [s1|] eqn:E1; [|discriminate]
    end.
    rewrite bind_Ok.
    match goal with
    | |- context [@forEach _ (Run (list jsstring)) ?l ?f s1] =>
        destruct (forEach l f s1) as [s2|] eqn:E2; [|discriminate]
    end.
    rewrite bind_Ok.
    destruct (tableHas _ _ _ s2) as [[b s3]|] eqn:E3; [|discriminate].
    rewrite bind_Ok. intros E. injection E as <- _.
    destruct (tableHas_frame _ _ _ _ _ _ E3) as (T3 & A3 & _).
    cbn [tTable tSteps]. apply (Explained_frame s2); auto.
    assert (J1 : Explained grammar word s1).
    { refine (forEach_keeps (Explained grammar word) _ _ _ _ _ E1 _).
      - intros [i tok] a b' Hin. apply In_combine_seq in Hin.
        destruct Hin as [_ Hn]. rewrite Nat.sub_0_r in Hn.
        apply forKeys_keeps. intros A prod s s' E.
        apply (diagStepA_keeps _ _ _ _ _ _ E Hn).
      - split; [constructor|]. intros i j A (c & Hc & Hin).
        cbn [tbl] in Hc. rewrite cell_newMatrix in Hc.
        destruct ((i <? length word) && (j <? length word));
          [|discriminate].
        injection Hc as <-. destruct Hin. }
    refine (forEach_keeps (Explained grammar word) _ _ _ _ _ E2 J1).
    intros len a b' _. apply forEach_keeps. intros i a0 b0 _.
    apply forEach_keeps. intros k a1 b1 Hk. apply in_seq in Hk.
    apply forKeys_keeps. intros A prod s s' E.
    apply (pairStepA_keeps _ _ _ _ _ _ _ E). lia.
Qed.
End Steps.

(** X13. The steps returned by [cykAlgorithm] and its table tell the same
    story.  Every message reports an application of a production of the
    grammar whose premises and conclusion are in the table: a one-symbol
    production on the token of a diagonal cell, or a two-symbol production
    at a split of a span.  Every variable in a cell has a message that
    tells how it came there.  So there are no steps exactly when the
    table is empty. *)
Theorem cykAlgorithm_steps (G : Grammar) (w : list jsstring)
  (r : TraceResult) :
  cykAlgorithm w G = Ok r ->
  Forall (Reported G w (tTable r)) (tSteps r) /\
  (forall i j A, mem (tTable r) i j A ->
     exists msg, In msg (tSteps r) /\ reports i j A msg) /\
  (tSteps r = [] <-> forall i j A, ~ mem (tTable r) i j A).
Proof.
  unfold cykAlgorithm.
  destruct (cykAlgorithmTraced w G) as [[r0 acc]|] eqn:E; [|discriminate].
  rewrite bind_Ok. intros Er. injection Er as <-.
  destruct (cykAlgorithmTraced_Explained _ _ _ _ E) as [HF HM].
  cbn [tbl aux] in HF, HM.
  split; [assumption|]. split; [assumption|]. split.
  - intros Hs i j A Hmem. destruct (HM _ _ _ Hmem) as (msg & Hin & _).
    rewrite Hs in Hin. destruct Hin.
  - intros Hno. destruct (tSteps r0) as [|msg rest]; [reflexivity|].
    inversion HF as [|? ? Hr _]; subst.
    destruct (Reported_mem _ _ _ _ Hr) as (i & j & A & Hmem).
    destruct (Hno _ _ _ Hmem).
Qed.

Lemma cykAlgorithm_steps_witness :
  exists r,
    cykAlgorithm (chars (js "ab")) exampleGrammar = Ok r /\
    Forall (Reported exampleGrammar (chars (js "ab")) (tTable r))
           (tSteps r).
Proof.
  eexists. split; [vm_compute; reflexivity|].
  refine (proj1 (cykAlgorithm_steps exampleGrammar (chars (js "ab")) _ _)).
  vm_compute. reflexivity.
Defined.

(** * What parseGrammarFromText returns *)

Lemma NoDup_setAdd (s : JsSet) x : NoDup s -> NoDup (setAdd s x).
Proof.
  intros H. unfold setAdd. destruct (setHas s x) eqn:E; [assumption|].
  apply NoDup_app; [assumption | repeat constructor; simpl; tauto |].
  intros y Hy [<- | []]. apply setHas_In in Hy. congruence.
Qed.

Lemma In_setAdd_old (s : JsSet) x y : In y s -> In y (setAdd s x).
Proof. intros H. apply In_setAdd. auto. Qed.

Lemma In_setAdd_new (s : JsSet) x : In x (setAdd s x).
Proof. apply In_setAdd. auto. Qed.

Lemma registered_mono (vars vars' terms terms' : JsSet) p :
  (forall x, In x vars -> In x vars') ->
  (forall x, In x terms -> In x terms') ->
  registered vars terms p -> registered vars' terms' p.
Proof.
  intros Hv Ht. destruct p as [|x [|y [|z p]]]; simpl; try tauto.
  - intros (Hx & [H | H]); auto.
  - intros (Hx & Hy & HB & HC). auto.
Qed.

Lemma quotedMatch_nonempty t token : quotedMatch t = Some token -> token <> [].
Proof.
  unfold quotedMatch. destruct t as [|c rest]; [discriminate|].
  destruct (c =? QUOTE)%N; [|discriminate].
  destruct (rev rest) as [|d rmid]; [discriminate|].
  destruct (d =? QUOTE)%N; [|discriminate].
  destruct rmid as [|e rmid]; [discriminate|]. cbn [nonEmpty andb].
  destruct (forallb _ _); [|discriminate].
  intros E. injection E as <-. simpl. destruct (rev rmid); discriminate.
Qed.

Lemma upperPair_nonempty sym B C :
  upperPair sym = Some (B, C) -> B <> [] /\ C <> [].
Proof.
  unfold upperPair. destruct sym as [|b [|c [|d sym]]]; try discriminate.
  destruct (_ && _)%bool; [|discriminate].
  intros E. injection E as <- <-. split; discriminate.
Qed.

Lemma filter_nonEmpty_In x l : In x (filter nonEmpty l) -> x <> [].
Proof.
  intros H. apply filter_In in H. destruct H as [_ H].
  destruct x; [discriminate | discriminate].
Qed.

(** Pushing a registered production on the array of [left]. *)
Lemma pushRule_closed left p (st : ParseState) r vars terms :
  pushRule (psRules st) left p = Ok r -> Closed st ->
  NoDup vars -> NoDup terms ->
  (forall x, In x (psVariables st) -> In x vars) ->
  (forall x, In x (psTerminals st) -> In x terms) ->
  registered vars terms p ->
  Closed {| psRules := r; psVariables := vars; psTerminals := terms;
            psStart := psStart st |}.
Proof.
  unfold pushRule, getProp.
  destruct (mapGet (psRules st) left) as [arr|] eqn:Eg;
    [|destruct (setHas objectPrototypeKeys left); discriminate].
  intros E [_ HC] Nv Nt Hv Ht Hp. injection E as <-.
  split; [split; assumption|]. cbn [psRules psVariables psTerminals].
  intros A prods Hin. apply In_mapSet in Hin.
  destruct Hin as [[-> ->] | Hin].
  - destruct (HC _ _ (mapGet_In _ _ _ Eg)) as [HA HF]. split; [auto|].
    apply Forall_app. split; [|constructor; auto].
    eapply Forall_impl; [|exact HF]. intros q. apply registered_mono; auto.
  - destruct (HC _ _ Hin) as [HA HF]. split; [auto|].
    eapply Forall_impl; [|exact HF]. intros q. apply registered_mono; auto.
Qed.

Lemma addProduction_closed left prod st st' :
  addProduction left prod st = Ok st' -> Closed st -> Closed st'.
Proof.
  unfold addProduction. cbv zeta. intros E HC.
  pose proof HC as [[Nv Nt] _].
  destruct (quotedMatch (trim prod)) as [token|] eqn:Eq.
  { destruct (pushRule _ _ _) as [r|] eqn:Ep; [|discriminate].
    rewrite bind_Ok in E. injection E as <-.
    apply (pushRule_closed _ _ _ _ _ _ Ep HC); auto using NoDup_setAdd.
    - intros x. apply In_setAdd_old.
    - split; [eapply quotedMatch_nonempty; eauto|].
      left. apply In_setAdd_new. }
  destruct (filter nonEmpty (splitWs (trim prod))) as [|s1 [|s2 [|s3 parts]]]
    eqn:Ef; try (injection E as <-; assumption).
  - assert (H1 : s1 <> [])
      by (apply (filter_nonEmpty_In s1 (splitWs (trim prod)));
          rewrite Ef; simpl; auto).
    destruct (isLowerLetter s1).
    { destruct (pushRule _ _ _) as [r|] eqn:Ep; [|discriminate].
      rewrite bind_Ok in E. injection E as <-.
      apply (pushRule_closed _ _ _ _ _ _ Ep HC); auto using NoDup_setAdd.
      - intros x. apply In_setAdd_old.
      - split; [assumption|]. left. apply In_setAdd_new. }
    destruct (upperPair s1) as [[B C]|] eqn:Eu.
    { destruct (pushRule _ _ _) as [r|] eqn:Ep; [|discriminate].
      rewrite bind_Ok in E. injection E as <-.
      destruct (upperPair_nonempty _ _ _ Eu) as [HB HC'].
      apply (pushRule_closed _ _ _ _ _ _ Ep HC); auto using NoDup_setAdd.
      - intros x Hx. apply In_setAdd_old, In_setAdd_old. assumption.
      - simpl. splits; auto.
        + apply In_setAdd_old, In_setAdd_new.
        + apply In_setAdd_new. }
    destruct (pushRule _ _ _) as [r|] eqn:Ep; [|discriminate].
    rewrite bind_Ok in E. injection E as <-.
    apply (pushRule_closed _ _ _ _ _ _ Ep HC); auto using NoDup_setAdd.
    + intros x. apply In_setAdd_old.
    + split; [assumption|]. right. apply In_setAdd_new.
  - assert (H1 : s1 <> [])
      by (apply (filter_nonEmpty_In s1 (splitWs (trim prod)));
          rewrite Ef; simpl; auto).
    assert (H2 : s2 <> [])
      by (apply (filter_nonEmpty_In s2 (splitWs (trim prod)));
          rewrite Ef; simpl; auto).
    destruct (pushRule _ _ _) as [r|] eqn:Ep; [|discriminate].
    rewrite bind_Ok in E. injection E as <-.
    apply (pushRule_closed _ _ _ _ _ _ Ep HC); auto using NoDup_setAdd.
    + intros x Hx. apply In_setAdd_old, In_setAdd_old. assumption.
    + simpl. splits; auto.
      * apply In_setAdd_old, In_setAdd_new.
      * apply In_setAdd_new.
Qed.

Lemma compileLine_closed idx line st st' :
  compileLine idx line st = Ok st' -> Closed st -> Closed st'.
Proof.
  unfold compileLine. cbv zeta.
  destruct (splitterOf line =? -1)%Z.
  { intros E. injection E as <-. auto. }
  intros E HC. refine (forEach_keeps Closed _ _ _ _ _ E _).
  { intros prod s s' _. apply addProduction_closed. }
  destruct HC as [[Nv Nt] HC].
  split; [split; [apply NoDup_setAdd|]; assumption|].
  cbn [psRules psVariables psTerminals]. intros A prods Hin.
  assert (Hold : In (A, prods) (psRules st) ->
            In A (setAdd (psVariables st) (leftOf line (splitterOf line)))
            /\ Forall (registered
                 (setAdd (psVariables st) (leftOf line (splitterOf line)))
                 (psTerminals st)) prods).
  { intros H. destruct (HC _ _ H) as [HA HF].
    split; [apply In_setAdd_old; assumption|].
    eapply Forall_impl; [|exact HF]. intros q.
    apply registered_mono; auto. intros x. apply In_setAdd_old. }
  destruct (getProp (psRules st) _); auto.
  apply In_setProp in Hin. destruct Hin as [[-> ->] | Hin]; [|auto].
  split; [apply In_setAdd_new | constructor].
Qed.

Lemma parseGrammarFromText_Closed text g :
  parseGrammarFromText text = Ok g ->
  Closed {| psRules := rules g; psVariables := variables g;
            psTerminals := terminals g; psStart := startSymbol g |}.
Proof.
  unfold parseGrammarFromText.
  destruct (forEachIdx 0 (linesOf text) compileLine _) as [st|] eqn:E;
    [|discriminate].
  rewrite bind_Ok. intros Eg. injection Eg as <-. cbn.
  rewrite forEachIdx_forEach in E.
  assert (H : Closed st).
  { refine (forEach_keeps Closed _ _ _ _ _ E _).
    - intros [idx line] s s' _. apply compileLine_closed.
    - split; [split; constructor|]. intros A prods []. }
  destruct st. exact H.
Qed.

(** X14. In a grammar compiled by [parseGrammarFromText] every
    left-hand side is listed among the variables, every production has
    one or two symbols, none of them empty, a single symbol is listed
    among the terminals or the variables and the symbols of a pair are
    listed among the variables; no variable and no terminal is listed
    twice. *)
Theorem parseGrammarFromText_closed (text : jsstring) (g : Grammar) :
  parseGrammarFromText text = Ok g ->
  NoDup (variables g) /\ NoDup (terminals g) /\
  forall A prods, In (A, prods) (rules g) ->
    In A (variables g) /\
    Forall (registered (variables g) (terminals g)) prods.
Proof.
  intros E. destruct (parseGrammarFromText_Closed _ _ E) as [[Nv Nt] H].
  auto.
Qed.

Lemma parseGrammarFromText_closed_witness :
  exists g,
    parseGrammarFromText pgcGrammarText = Ok g /\
    NoDup (variables g) /\ NoDup (terminals g).
Proof.
  eexists. split; [vm_compute; reflexivity|].
  refine ((fun H => conj (proj1 H) (proj1 (proj2 H)))
            (parseGrammarFromText_closed pgcGrammarText _ _)).
  vm_compute. reflexivity.
Defined.

(** ** Blank input *)

Lemma hasProduction_In G A rhs :
  hasProduction G A rhs ->
  exists prods, In (A, prods) (rules G) /\ In rhs prods.
Proof.
  intros (prods & E & Hin). exists prods. split; [|assumption].
  unfold getProp in E. destruct (mapGet (rules G) A) as [v|] eqn:Eg.
  - injection E as ->. apply mapGet_In. assumption.
  - destruct (setHas objectPrototypeKeys A); discriminate.
Qed.

Lemma recognize_rejects depth text g tokens :
  parseGrammarFromText text = Ok g ->
  tokens = [] \/ tokens = [[]] ->
  exists tbl,
    recognize depth text tokens
    = Ok {| oAccepted := false; oTable := tbl; oTree := None |}.
Proof.
  intros Eg Ht. unfold recognize. rewrite Eg, bind_Ok.
  destruct (cykWithPointers_Yield tokens g) as (r & E & Hacc).
  rewrite E, bind_Ok. destruct (accepted r) eqn:Ea.
  - exfalso. destruct Hacc as [Hacc _]. specialize (Hacc eq_refl).
    destruct Ht as [-> | ->].
    + exact (Yield_nonempty _ _ _ Hacc eq_refl).
    + apply Yield_single in Hacc. apply hasProduction_In in Hacc.
      destruct Hacc as (prods & Hin & Hp).
      destruct (parseGrammarFromText_Closed _ _ Eg) as [_ HC].
      destruct (HC _ _ Hin) as [_ HF]. cbn in HF.
      rewrite Forall_forall in HF. destruct (HF _ Hp) as [Hne _].
      congruence.
  - rewrite bind_Ok. eexists. reflexivity.
Qed.

(** X15. A sentence or word of white space only is rejected by both
    Generate-Table handlers, whatever the grammar text compiles to: no
    exception, [accepted] is false and there is no tree. *)
Theorem blank_input_rejected (depth : nat) (text input : jsstring)
  (g : Grammar) :
  parseGrammarFromText text = Ok g -> trim input = [] ->
  (exists tbl, generatePGC depth text input
     = Ok {| oAccepted := false; oTable := tbl; oTree := None |}) /\
  (exists tbl, generateSimulator depth text input
     = Ok {| oAccepted := false; oTable := tbl; oTree := None |}).
Proof.
  intros Eg Et. unfold generatePGC, generateSimulator, tokenizePGC,
    tokenizeSimulator. rewrite Et. split.
  - apply (recognize_rejects _ _ _ _ Eg). right. reflexivity.
  - apply (recognize_rejects _ _ _ _ Eg).
    destruct (includes input [SPACE]); [right | left]; reflexivity.
Qed.

Lemma blank_input_rejected_witness :
  (exists tbl, generatePGC 0 pgcGrammarText (js "  ")
     = Ok {| oAccepted := false; oTable := tbl; oTree := None |}) /\
  (exists tbl, generateSimulator 0 pgcGrammarText (js "  ")
     = Ok {| oAccepted := false; oTable := tbl; oTree := None |}).
Proof.
  refine (blank_input_rejected 0 pgcGrammarText (js "  ") _ _ _).
  - vm_compute. reflexivity.
  - vm_compute. reflexivity.
Defined.

(** ** When parseGrammarFromText raises *)

Lemma addProduction_inherited left prod st :
  getProp (psRules st) left = Inherited ->
  addProduction left prod st
  = if pushes prod then Throw TypeError else Ok st.
Proof.
  intros H. unfold addProduction, pushes, pushRule. cbv zeta. rewrite H.
  destruct (quotedMatch (trim prod)); [reflexivity|].
  destruct (filter nonEmpty (splitWs (trim prod))) as [|x [|y [|z l]]];
    try reflexivity.
  destruct (isLowerLetter x); [reflexivity|].
  destruct (upperPair x) as [[B C]|]; reflexivity.
Qed.

Lemma addProductions_inherited left alts st :
  getProp (psRules st) left = Inherited ->
  forEach alts (addProduction left) st
  = if existsb pushes alts then Throw TypeError else Ok st.
Proof.
  intros H. induction alts as [|prod alts IH]; simpl; [reflexivity|].
  rewrite addProduction_inherited by assumption.
  destruct (pushes prod); simpl; [reflexivity | assumption].
Qed.

Lemma addProduction_noShadow left prod st st' :
  addProduction left prod st = Ok st' -> noShadow st -> noShadow st'.
Proof.
  intros E HP.
  assert (K : forall p r, pushRule (psRules st) left p = Ok r ->
            forall k, setHas objectPrototypeKeys k = true ->
              mapGet r k = None).
  { intros p r Ep k Hk. unfold pushRule, getProp in Ep.
    destruct (mapGet (psRules st) left) as [arr|] eqn:Eg;
      [|destruct (setHas objectPrototypeKeys left); discriminate].
    injection Ep as <-. rewrite mapGet_mapSet_other; [auto|].
    intros ->. rewrite (HP _ Hk) in Eg. discriminate. }
  unfold addProduction in E. cbv zeta in E.
  repeat match type of E with
         | context [pushRule ?o ?l ?p] =>
             let Ep := fresh "Ep" in
             destruct (pushRule o l p) eqn:Ep; [|discriminate];
             rewrite bind_Ok in E; injection E as <-;
             exact (K _ _ Ep)
         | context [match ?x with _ => _ end] => destruct x
         end;
    try (injection E as <-; assumption).
Qed.

Lemma compileLine_raises idx line st :
  noShadow st ->
  if offending line then compileLine idx line st = Throw TypeError
  else exists st', compileLine idx line st = Ok st' /\ noShadow st'.
Proof.
  intros HP. unfold offending. cbv zeta.
  destruct (splitterOf line =? -1)%Z eqn:Es; cbn [negb andb].
  { unfold compileLine. cbv zeta. rewrite Es. eauto. }
  destruct (setHas objectPrototypeKeys (leftOf line (splitterOf line)))
    eqn:Ek; cbn [andb].
  - unfold compileLine. cbv zeta. rewrite Es.
    assert (Eg : getProp (psRules st) (leftOf line (splitterOf line))
                 = Inherited)
      by (unfold getProp; rewrite (HP _ Ek), Ek; reflexivity).
    rewrite Eg, addProductions_inherited by exact Eg.
    destruct (existsb pushes _); [reflexivity|].
    eexists. split; [reflexivity | exact HP].
  - destruct (compileLine_ok idx line st) as (st' & E);
      [rewrite Es, Ek; reflexivity|].
    exists st'. split; [assumption|].
    unfold compileLine in E. cbv zeta in E. rewrite Es in E.
    refine (forEach_keeps noShadow _ _ _ _ _ E _).
    + intros prod s s' _. apply addProduction_noShadow.
    + intros k Hk. cbn [psRules].
      destruct (getProp (psRules st) _); auto.
      rewrite mapGet_setProp_other; [auto|]. intros ->. congruence.
Qed.

Lemma compileLines_raise lines : forall from st,
  noShadow st ->
  match forEachIdx from lines compileLine st with
  | Ok _ => existsb offending lines = false
  | Throw e => e = TypeError /\ existsb offending lines = true
  end.
Proof.
  induction lines as [|line lines IH]; intros from st HP; simpl;
    [reflexivity|].
  pose proof (compileLine_raises from line st HP) as H.
  destruct (offending line).
  - rewrite H. simpl. auto.
  - destruct H as (st' & -> & HP'). rewrite bind_Ok. simpl.
    apply IH. assumption.
Qed.

(** X16. [parseGrammarFromText] raises exactly when some line with an
    arrow marker has the name of a property inherited from
    [Object.prototype] as its left-hand side and an alternative that
    registers a production; what it raises is a [TypeError]. *)
Theorem parseGrammarFromText_raises (text : jsstring) :
  match parseGrammarFromText text with
  | Ok _ => existsb offending (linesOf text) = false
  | Throw e => e = TypeError /\ existsb offending (linesOf text) = true
  end.
Proof.
  unfold parseGrammarFromText.
  match goal with
  | |- context [forEachIdx 0 ?l compileLine ?s0] =>
      pose proof (compileLines_raise l 0 s0) as H
  end.
  destruct (forEachIdx 0 (linesOf text) compileLine _); cbn [bind];
    apply H; intros k _; reflexivity.
Qed.

(** ** The result of buildParseTree on any back table of a recognition *)

Lemma cykWithPointers_root tokens grammar r :
  tokens <> [] -> cykWithPointers tokens grammar = Ok r ->
  exists acc m,
    Inv grammar tokens {| tbl := table r; aux := back r; log := rev acc |} /\
    cell (back r) 0 (length tokens - 1) = Some m /\
    (accepted r = true <->
     mem (table r) 0 (length tokens - 1) (startSymbol grammar)) /\
    (accepted r = mapHas m (startSymbol grammar)).
Proof.
  intros Hne E.
  destruct (cykWithPointersTraced_spec grammar tokens Hne)
    as (r0 & acc & E0 & HI & _ & Hacc).
  pose proof E as E'.
  rewrite (cykWithPointers_of_traced _ _ _ _ E0) in E'. injection E' as ->.
  destruct (cykWithPointers_state _ _ _ Hne E) as (acc' & _ & HJ).
  assert (Hn : 0 < length tokens)
    by (destruct tokens; simpl; [congruence | lia]).
  destruct (cell (back r) 0 (length tokens - 1)) as [m|] eqn:Em.
  - exists acc, m. splits; auto.
    unfold mapHas. destruct (mapGet m (startSymbol grammar)) as [l|] eqn:El.
    + apply Hacc. destruct (HJ _ _ _ _ _ Em El) as [M _]. exact M.
    + destruct (accepted r) eqn:Ea; [|reflexivity].
      destruct (proj1 Hacc eq_refl) as (c & Hc & Hin).
      destruct (inv_bhas HI 0 (length tokens - 1) (startSymbol grammar))
        as (m' & l' & Em' & El'); [exists c; auto|].
      cbn [aux] in Em'. congruence.
  - exfalso. apply (proj2 (inv_bsquare HI 0 (length tokens - 1)));
      [lia | exact Em].
Qed.

(** X17. On the back table of a recognition [buildParseTree] returns
    [null] exactly when the input was rejected, whatever stack it is
    given; it never fails on a rejected input. *)
Theorem buildParseTree_null_iff_rejected (G : Grammar)
  (w : list jsstring) (r : CykResult) (depth : nat) :
  cykWithPointers w G = Ok r ->
  (buildParseTree depth G w (back r) = Ok None <-> accepted r = false).
Proof.
  intros E. destruct w as [|t0 w].
  - injection E as <-. simpl. tauto.
  - destruct (cykWithPointers_root (t0 :: w) G r)
      as (acc & m & HI & Em & _ & Hm); [discriminate | assumption |].
    unfold buildParseTree. cbv zeta.
    replace (length (t0 :: w) =? 0) with false by reflexivity.
    rewrite Em, <- Hm. destruct (accepted r).
    + destruct (choose depth (back r) _ 0 _); simpl;
        split; discriminate.
    + tauto.
Qed.

Lemma buildParseTree_null_iff_rejected_witness :
  exists r,
    cykWithPointers (chars (js "aa")) exampleGrammar = Ok r /\
    (buildParseTree 0 exampleGrammar (chars (js "aa")) (back r) = Ok None
     <-> accepted r = false).
Proof.
  eexists. split; [vm_compute; reflexivity|].
  refine (buildParseTree_null_iff_rejected exampleGrammar
            (chars (js "aa")) _ 0 _).
  vm_compute. reflexivity.
Defined.

(** ** The tree that buildParseTree picks *)

Lemma choose_height back depth : forall A i j t,
  choose depth back A i j = Ok t -> height t <= depth.
Proof.
  induction depth as [|depth IH]; intros A i j t E; [discriminate|].
  simpl in E. destruct (cell back i j) as [m|]; [|discriminate].
  destruct (mapGet m A) as [[|[tok | B C k] l]|];
    try (injection E as <-; simpl; lia).
  destruct (choose depth back B i k) as [tl|] eqn:E1; [|discriminate].
  destruct (choose depth back C (k + 1) j) as [tr|] eqn:E2; [|discriminate].
  rewrite !bind_Ok in E. injection E as <-. cbn [height].
  pose proof (IH _ _ _ _ E1). pose proof (IH _ _ _ _ E2). lia.
Qed.

Lemma choose_at_height back depth : forall A i j t,
  choose depth back A i j = Ok t ->
  forall d, height t <= d -> choose d back A i j = Ok t.
Proof.
  induction depth as [|depth IH]; intros A i j t E d Hd; [discriminate|].
  simpl in E. destruct d as [|d]; [destruct t; simpl in Hd; lia|].
  simpl choose. destruct (cell back i j) as [m|]; [|discriminate].
  destruct (mapGet m A) as [[|[tok | B C k] l]|];
    try (injection E as <-; reflexivity).
  destruct (choose depth back B i k) as [tl|] eqn:E1; [|discriminate].
  destruct (choose depth back C (k + 1) j) as [tr|] eqn:E2; [|discriminate].
  rewrite !bind_Ok in E. injection E as <-. cbn [height] in Hd.
  rewrite (IH _ _ _ _ E1 d), (IH _ _ _ _ E2 d) by lia. reflexivity.
Qed.

Lemma choose_FirstRecorded back depth : forall A i j t,
  choose depth back A i j = Ok t -> noBare t = true ->
  FirstRecorded back A i j t.
Proof.
  induction depth as [|depth IH]; intros A i j t E Hb; [discriminate|].
  simpl in E. destruct (cell back i j) as [m|] eqn:Em; [|discriminate].
  destruct (mapGet m A) as [[|[tok | B C k] l]|] eqn:El;
    try (injection E as <-; discriminate).
  - injection E as <-. eapply FirstRecorded_leaf; eauto.
  - destruct (choose depth back B i k) as [tl|] eqn:E1; [|discriminate].
    destruct (choose depth back C (k + 1) j) as [tr|] eqn:E2;
      [|discriminate].
    rewrite !bind_Ok in E. injection E as <-. cbn [noBare] in Hb.
    apply andb_true_iff in Hb. destruct Hb as [Hl Hr].
    eapply FirstRecorded_node; eauto.
Qed.

Lemma FirstRecorded_unique back A i j t :
  FirstRecorded back A i j t ->
  forall t', FirstRecorded back A i j t' -> t' = t.
Proof.
  induction 1 as [A i j m tok rest Em El
                 | A i j m B C k rest l r Em El _ IHl _ IHr];
    intros t' H'; inversion H'; subst;
    match goal with
    | Hc : cell back i j = Some ?m' |- _ =>
        rewrite Em in Hc; injection Hc as <-
    end;
    match goal with
    | Hg : mapGet m A = Some _ |- _ => rewrite El in Hg; inversion Hg; subst
    end.
  - reflexivity.
  - f_equal; auto.
Qed.

(** The tree of an accepted run: it has no bare node, carries the tokens,
    follows the first records, and as many nested calls as it is high
    build it. *)
Lemma accepted_tree tokens grammar r :
  cykWithPointers tokens grammar = Ok r -> accepted r = true ->
  exists t,
    height t <= length tokens /\
    FirstRecorded (back r) (startSymbol grammar) 0 (length tokens - 1) t /\
    forall depth,
      (height t <= depth ->
       buildParseTree depth grammar tokens (back r) = Ok (Some t)) /\
      (forall t', buildParseTree depth grammar tokens (back r) = Ok t' ->
         t' = Some t).
Proof.
  intros E Ha.
  destruct tokens as [|t0 w]; [injection E as <-; discriminate|].
  destruct (cykWithPointers_root (t0 :: w) grammar r)
    as (acc & m & HI & Em & Hacc & Hm); [discriminate | assumption |].
  apply Hacc in Ha as M.
  destruct (choose_spec _ _ _ HI (length (t0 :: w)) _ _ _ M)
    as (t & Et & Hb & _); [simpl; lia | unfold span; simpl; lia |].
  cbn [aux] in Et. exists t. split; [eapply choose_height; eauto|].
  split; [eapply choose_FirstRecorded; eauto|].
  intros depth. unfold buildParseTree. cbv zeta.
  replace (length (t0 :: w) =? 0) with false by reflexivity.
  rewrite Em, <- Hm, Ha. split.
  - intros Hd. rewrite (choose_at_height _ _ _ _ _ _ Et depth Hd).
    reflexivity.
  - intros t'.
    destruct (choose depth (back r) _ 0 _) as [u|] eqn:Eu; [|discriminate].
    rewrite bind_Ok. intros H. injection H as <-. f_equal.
    apply (choose_more_depth _ _ (Nat.max depth (length (t0 :: w)))) in Eu;
      [|lia].
    apply (choose_more_depth _ _ (Nat.max depth (length (t0 :: w)))) in Et;
      [|lia].
    congruence.
Qed.

(** X18. The tree that [buildParseTree] returns for an accepted input
    has at most as many levels as there are tokens.  As many nested calls
    of [choose] as the tree has levels are enough to build it, and no
    call of [buildParseTree] on the same back table returns anything
    else. *)
Theorem buildParseTree_stack_depth (G : Grammar) (w : list jsstring)
  (r : CykResult) :
  cykWithPointers w G = Ok r -> accepted r = true ->
  exists t,
    height t <= length w /\
    (forall depth, height t <= depth ->
       buildParseTree depth G w (back r) = Ok (Some t)) /\
    (forall depth t', buildParseTree depth G w (back r) = Ok t' ->
       t' = Some t).
Proof.
  intros E Ha. destruct (accepted_tree _ _ _ E Ha) as (t & Hh & _ & H).
  exists t. split; [assumption|]. split.
  - intros depth. apply (H depth).
  - intros depth. apply (H depth).
Qed.

Lemma buildParseTree_stack_depth_witness :
  exists r t,
    cykWithPointers (chars (js "ab")) exampleGrammar = Ok r /\
    accepted r = true /\
    height t <= length (chars (js "ab")) /\
    (forall depth, height t <= depth ->
       buildParseTree depth exampleGrammar (chars (js "ab")) (back r)
       = Ok (Some t)).
Proof.
  eexists.
  assert (E : cykWithPointers (chars (js "ab")) exampleGrammar = Ok ?[r])
    by (vm_compute; reflexivity).
  destruct (buildParseTree_stack_depth exampleGrammar (chars (js "ab")) _ E)
    as (t & H1 & H2 & _); [vm_compute; reflexivity|].
  exists t. split; [exact E|]. split; [vm_compute; reflexivity|]. auto.
Defined.

(** ** Calling the recognizer twice *)

(** C6. For every grammar and every token sequence the recognizer
    returns, and what it returns is fixed by the two inputs: any two calls
    give the same [accepted] and the same table, cell by cell.  The tree
    builder returns on the back table of either call as soon as the stack
    allows one nested call per token, and all its calls return the same
    value whatever stack they had: nothing when the input was rejected,
    and otherwise the one tree that takes, at every node, the record
    pushed first for the variable and the span of the node. *)
Theorem recognition_deterministic (G : Grammar) (w : list jsstring) :
  exists r t,
    cykWithPointers w G = Ok r /\
    (forall depth, length w <= depth ->
       buildParseTree depth G w (back r) = Ok t) /\
    (forall r1 r2 d1 d2 t1 t2,
       cykWithPointers w G = Ok r1 -> cykWithPointers w G = Ok r2 ->
       buildParseTree d1 G w (back r1) = Ok t1 ->
       buildParseTree d2 G w (back r2) = Ok t2 ->
       accepted r1 = accepted r /\ accepted r2 = accepted r /\
       table r1 = table r /\ table r2 = table r /\
       (forall i j, cell (table r1) i j = cell (table r2) i j) /\
       t1 = t /\ t2 = t) /\
    (forall tr, t = Some tr <->
       accepted r = true /\
       FirstRecorded (back r) (startSymbol G) 0 (length w - 1) tr).
Proof.
  destruct (cykWithPointers_Yield w G) as (r & E & _).
  destruct (accepted r) eqn:Ha.
  - destruct (accepted_tree _ _ _ E Ha) as (t & Hh & HF & H).
    exists r, (Some t). split; [assumption|]. split; [|split].
    + intros depth Hd. apply (H depth). lia.
    + intros r1 r2 d1 d2 t1 t2 E1 E2 B1 B2.
      rewrite E in E1, E2. injection E1 as <-. injection E2 as <-.
      rewrite (proj2 (H d1) _ B1), (proj2 (H d2) _ B2), Ha. auto 10.
    + intros tr. split.
      * intros Et. injection Et as <-. auto.
      * intros [_ HF']. f_equal. symmetry.
        apply (FirstRecorded_unique _ _ _ _ _ HF _ HF').
  - assert (HN : forall depth, buildParseTree depth G w (back r) = Ok None).
    { intros depth. destruct w as [|t0 w]; [reflexivity|].
      destruct (cykWithPointers_root (t0 :: w) G r)
        as (acc & m & _ & Em & _ & Hm); [discriminate | assumption |].
      unfold buildParseTree. cbv zeta.
      replace (length (t0 :: w) =? 0) with false by reflexivity.
      rewrite Em, <- Hm, Ha. reflexivity. }
    exists r, None. split; [assumption|]. split; [|split].
    + intros depth _. apply HN.
    + intros r1 r2 d1 d2 t1 t2 E1 E2 B1 B2.
      rewrite E in E1, E2. injection E1 as <-. injection E2 as <-.
      rewrite HN in B1. rewrite HN in B2.
      injection B1 as <-. injection B2 as <-.
      rewrite Ha. auto 10.
    + intros tr. split; [discriminate | intros [H _]; congruence].
Qed.

Lemma recognition_deterministic_witness :
  exists r t,
    cykWithPointers [js "a"; js "b"] exampleGrammar = Ok r /\
    buildParseTree 2 exampleGrammar [js "a"; js "b"] (back r) = Ok t /\
    buildParseTree 7 exampleGrammar [js "a"; js "b"] (back r) = Ok t /\
    (forall tr, t = Some tr <->
       accepted r = true /\
       FirstRecorded (back r) (startSymbol exampleGrammar) 0
         (length [js "a"; js "b"] - 1) tr).
Proof.
  destruct (recognition_deterministic exampleGrammar [js "a"; js "b"])
    as (r & t & E & B & _ & F).
  exists r, t. split; [exact E|].
  split; [apply B; simpl; lia|]. split; [apply B; simpl; lia | exact F].
Defined.

(** On the input [ab] the tree of the first records is the one with the
    production [S -> A B] at the root. *)
Example first_records_ab :
  exists r,
    cykWithPointers [js "a"; js "b"] exampleGrammar = Ok r /\
    FirstRecorded (back r) (js "S") 0 1
      (Node (js "S") (Leaf (js "A") (js "a")) (Leaf (js "B") (js "b"))).
Proof.
  eexists. split; [vm_compute; reflexivity|].
  eapply FirstRecorded_node;
    [vm_compute; reflexivity | vm_compute; reflexivity | |];
    eapply FirstRecorded_leaf; vm_compute; reflexivity.
Qed.
